(** * HLSDownloader: the segment acquisition pipeline

    A shallow embedding of [pkg/hlsDownloader.go] and of the helper file of
    the same package (segment model, playlist resolution, decryption), with
    the properties of the decryption unit, the joiner, the worker pool and
    the pipeline coordinator.

    Conventions.
    - A Go [[]byte] is a [list byte]; a Go [string] is a [string], and
      [[]byte(s)] is [String.list_byte_of_string s].
    - [uint64] values are [N]; [int] values are [Z] (no operation of this
      package comes near the 64-bit bounds of [int]).
    - A Go [error] is represented by its message ([err.Error()]), which is
      the only thing the package ever inspects; a run-time panic is a
      separate outcome.
    - Log output ([log.Printf]) is not part of the model. *)

From Stdlib.Strings Require Import Byte Ascii.
From stdpp Require Import gmap strings list fin_maps sorting pretty.

Open Scope Z_scope.

(** ** Outcomes of a Go call *)

Inductive result (A : Type) : Type :=
  | Ok (a : A)            (* returned a value and a nil error *)
  | Err (msg : string)    (* returned a non-nil error *)
  | Panic (msg : string). (* did not return: run-time panic *)
Arguments Ok {A} a.
Arguments Err {A} msg.
Arguments Panic {A} msg.


(** ** Bytes *)

#[global] Instance byte_eq_dec : EqDecision byte := Byte.byte_eq_dec.

(** [int(b)] for a byte [b]. *)
Definition int_of_byte (b : byte) : Z := Z.of_N (Byte.to_N b).

(** [byte(n)] for an unsigned integer [n]: the low eight bits. *)
Definition uint8 (n : N) : byte := default x00 (Byte.of_N (n mod 256)%N).

(** [syncByte = uint8(71) //0x47] *)
Definition syncByte : byte := uint8 71.

(** [strings.Contains(s, substr)] *)
Fixpoint strings_Contains (s substr : string) : bool :=
  String.prefix substr s ||
  match s with
  | EmptyString => false
  | String _ s' => strings_Contains s' substr
  end.

(** ** encoding/binary, big endian *)

(** [binary.BigEndian.PutUint64(b, v)] writes these eight bytes to [b[0..7]]. *)
Definition bigEndian_bytes (v : N) : list byte :=
  [ uint8 (N.shiftr v 56); uint8 (N.shiftr v 48); uint8 (N.shiftr v 40);
    uint8 (N.shiftr v 32); uint8 (N.shiftr v 24); uint8 (N.shiftr v 16);
    uint8 (N.shiftr v 8); uint8 v ].

(** [binary.BigEndian.Uint64(b)]: the number a byte string denotes, most
    significant byte first. *)
Definition bigEndian_Uint64 (b : list byte) : N :=
  foldl (λ acc x, acc * 256 + Byte.to_N x)%N 0%N b.

(** ** Decryption unit: the pure part *)

(** [defaultIV]: a zeroed 16-byte buffer whose tail [buf[8:]] receives the
    big-endian sequence number. *)
Definition defaultIV (seqID : N) : list byte :=
  let buf := replicate 16 x00 in
  list_inserts 8 (bigEndian_bytes seqID) buf.

(** [pkcs5UnPadding]: [origData[length-1]] panics on an empty slice, and the
    slice expression [origData[:(length - unPadding)]] panics when its bound
    is negative.  The bound never exceeds [length], so the capacity of the
    slice plays no role. *)
Definition pkcs5UnPadding (origData : list byte) : result (list byte) :=
  let length := Z.of_nat (length origData) in
  match last origData with
  | None => Panic "index out of range [-1]"
  | Some b =>
      let unPadding := int_of_byte b in
      if length - unPadding <? 0
      then Panic "slice bounds out of range"
      else Ok (take (Z.to_nat (length - unPadding)) origData)
  end.

(** The scan at the end of [decrypt]:
    [for j := 0; j < len(data); j++ { if data[j] == syncByte { data = data[j:]; break } }].
    [sync_scan rest] is the loop at an index [j] with [rest = data[j:]]; it
    returns the new value of [data] when the loop breaks, and [None] when the
    loop runs off the end. *)
Fixpoint sync_scan (rest : list byte) : option (list byte) :=
  match rest with
  | [] => None
  | b :: rest' => if decide (b = syncByte) then Some rest else sync_scan rest'
  end.

Definition trimSync (data : list byte) : list byte :=
  default data (sync_scan data).

(** ** Error plumbing *)

#[global] Instance result_bind : MBind result := λ A B f r,
  match r with
  | Ok a => f a
  | Err msg => Err msg
  | Panic msg => Panic msg
  end.

(** ** Segment descriptors *)

(** [m3u8.Key], with the two fields this package reads. *)
Record m3u8_Key : Type := { Key_URI : string; IV : string }.

(** [segment] embeds [*m3u8.MediaSegment]; the promoted fields used by the
    package are listed next to [path]. *)
Record segment : Type := {
  SeqId : N;                 (* uint64 *)
  URI : string;
  Key : option m3u8_Key;     (* *m3u8.Key, nil when the segment is clear *)
  path : string;
}.

Definition set_path (s : segment) (p : string) : segment :=
  {| SeqId := SeqId s; URI := URI s; Key := Key s; path := p |}.
Definition set_URI (s : segment) (u : string) : segment :=
  {| SeqId := SeqId s; URI := u; Key := Key s; path := path s |}.
Definition set_Key (s : segment) (k : option m3u8_Key) : segment :=
  {| SeqId := SeqId s; URI := URI s; Key := k; path := path s |}.

Record downloadResult : Type := {
  err : option string;       (* nil or the error of the failed download *)
  seqId : N;
  totalSegments : N;         (* never written by the package *)
}.

#[global] Instance m3u8_Key_eq_dec : EqDecision m3u8_Key.
Proof. solve_decision. Defined.
#[global] Instance segment_eq_dec : EqDecision segment.
Proof. solve_decision. Defined.
#[global] Instance downloadResult_eq_dec : EqDecision downloadResult.
Proof. solve_decision. Defined.

(** ** HTTP *)

(** A [*http.Client] is known by its identity: the process-wide
    [http.DefaultClient] or a client value made by the package or its user. *)
Inductive http_client : Type :=
  | DefaultClient
  | Client (id : nat).

#[global] Instance http_client_eq_dec : EqDecision http_client.
Proof. solve_decision. Defined.

(** [http.Header] *)
Abbreviation http_Header := (gmap string (list string)).

(** A GET request as built by [http.NewRequest(http.MethodGet, url, nil)]. *)
Record request : Type := { req_url : string; req_header : http_Header }.

(** What [client.Do(req)] hands back: an error, or a response whose body
    delivers [Body] and then either ends or fails with [BodyErr]. *)
Inductive roundtrip : Type :=
  | RoundTripError (msg : string)
  | Response (StatusCode : Z) (Status : string) (Body : list byte)
             (BodyErr : option string).

(** The network as seen at one moment: the answer each client obtains for
    each request. *)
Definition transport : Type := http_client → request → roundtrip.

(** ** The file system *)

Record filesystem : Type := {
  dirs : gset string;
  files : gmap string (list byte);
}.

Definition has_slash (s : string) : bool := strings_Contains s "/".

(** The directory part of a path: everything before its last separator. *)
Fixpoint parent (p : string) : string :=
  match p with
  | EmptyString => EmptyString
  | String c p' => if has_slash p' then String c (parent p') else EmptyString
  end.

(** [within d p]: [p] is [d] or lies below it. *)
Definition within (d p : string) : bool :=
  bool_decide (p = d) || String.prefix (d +:+ "/") p.

(** [filepath.Join(dir, name)] for a clean [dir] and a plain file [name];
    empty elements are ignored. *)
Definition filepath_Join (dir name : string) : string :=
  if bool_decide (dir = "") then name else dir +:+ "/" +:+ name.

(** [os.Create]: needs the directory of the file, truncates what is there. *)
Definition os_Create (p : string) (fs : filesystem) : result unit * filesystem :=
  if bool_decide (p ∈ dirs fs) then (Err ("open " +:+ p +:+ ": is a directory"), fs)
  else if bool_decide (parent p = "" ∨ parent p ∈ dirs fs)
  then (Ok (), {| dirs := dirs fs; files := <[p := []]> (files fs) |})
  else (Err ("open " +:+ p +:+ ": no such file or directory"), fs).

(** [file.Write(d)] on the file opened at [p]; a write to a file that has
    been unlinked meanwhile does not show up under any path. *)
Definition file_Write (p : string) (d : list byte) (fs : filesystem) : filesystem :=
  {| dirs := dirs fs; files := alter (λ old, old ++ d) p (files fs) |}.

(** [os.Open] followed by [io.ReadAll]. *)
Definition os_ReadFile (p : string) (fs : filesystem) : result (list byte) :=
  match files fs !! p with
  | Some data => Ok data
  | None => Err ("open " +:+ p +:+ ": no such file or directory")
  end.

(** [os.RemoveAll]: removes the path and everything below it; the empty
    path and a missing path are not errors. *)
Definition os_RemoveAll (p : string) (fs : filesystem) : filesystem :=
  if bool_decide (p = "") then fs
  else {| dirs := filter (λ q, within p q = false) (dirs fs);
          files := filter (λ kv, within p kv.1 = false) (files fs) |}.

(** [os.MkdirAll(p, os.ModePerm)] *)
Definition os_MkdirAll (p : string) (fs : filesystem) : result unit * filesystem :=
  if bool_decide (is_Some (files fs !! p))
  then (Err ("mkdir " +:+ p +:+ ": not a directory"), fs)
  else (Ok (), {| dirs := {[p]} ∪ dirs fs; files := files fs |}).

(** [os.MkdirTemp("", "*-segments")]: the system either fails or makes a
    directory with a name of its choice. *)
Definition os_MkdirTemp (choice : result string) (fs : filesystem)
  : result string * filesystem :=
  match choice with
  | Ok d => (Ok d, {| dirs := {[d]} ∪ dirs fs; files := files fs |})
  | Err e => (Err e, fs)
  | Panic e => (Panic e, fs)
  end.

(** ** Libraries the package calls into *)

(** [m3u8.Playlist] after decoding: a master playlist, or a media playlist
    with its segment table (which has nil entries) and its own key. *)
Inductive m3u8_Playlist : Type :=
  | MasterPlaylist
  | MediaPlaylist (Segments : list (option segment)) (PlaylistKey : option m3u8_Key).

Record externals : Type := {
  (* url.Parse(u) succeeds *)
  url_valid : string → bool;
  (* base.Parse(ref), then String() *)
  url_resolve : string → string → result string;
  (* m3u8.DecodeFrom(body, false) *)
  m3u8_DecodeFrom : list byte → result m3u8_Playlist;
  (* cipher.NewCBCDecrypter(aes.NewCipher(key), iv).CryptBlocks(dst, src):
     the contents of dst afterwards *)
  cbc_decrypt : list byte → list byte → list byte → list byte;
}.

(** ** The downloader instance *)

Record hlsDownloader : Type := {
  url : string;
  output : string;
  h_path : string;           (* field path *)
  filename : string;
  extension : string;
  tmpDir : string;
  client : http_client;
  header : http_Header;
  workers : Z;
  bar : option nat;          (* nil, or a progress sink and its count *)
}.

Definition set_tmpDir (h : hlsDownloader) (d : string) : hlsDownloader :=
  {| url := url h; output := output h; h_path := h_path h;
     filename := filename h; extension := extension h; tmpDir := d;
     client := client h; header := header h; workers := workers h;
     bar := bar h |}.

(** The three setters; the receiver may be nil. *)
Definition SetClient (h : option hlsDownloader) (c : http_client)
  : result hlsDownloader :=
  match h with
  | None => Err "attempt to set client on nil instance"
  | Some h =>
      Ok {| url := url h; output := output h; h_path := h_path h;
            filename := filename h; extension := extension h;
            tmpDir := tmpDir h; client := c; header := header h;
            workers := workers h; bar := bar h |}
  end.

Definition SetHeader (h : option hlsDownloader) (hd : http_Header)
  : result hlsDownloader :=
  match h with
  | None => Err "attempt to set header on nil instance"
  | Some h =>
      Ok {| url := url h; output := output h; h_path := h_path h;
            filename := filename h; extension := extension h;
            tmpDir := tmpDir h; client := client h; header := hd;
            workers := workers h; bar := bar h |}
  end.

Definition SetWorkers (h : option hlsDownloader) (n : Z) : result hlsDownloader :=
  match h with
  | None => Err "attempt to set workers on nil instance"
  | Some h =>
      if n <? 1 then Err "workers must be greater than 0"
      else Ok {| url := url h; output := output h; h_path := h_path h;
                 filename := filename h; extension := extension h;
                 tmpDir := tmpDir h; client := client h; header := header h;
                 workers := n; bar := bar h |}
  end.

(** ** Sorting by sequence number *)

(** [sort.Slice(segments, func(i, j) { return segments[i].SeqId < segments[j].SeqId })]
    leaves the slice ordered so that no element is less than one before it.
    The library does not promise stability; the model sorts by merging, and
    [sort_Slice_unique] shows that for distinct sequence numbers every
    ordering with that property is this one. *)
Definition seq_le (a b : segment) : Prop := (SeqId a ≤ SeqId b)%N.

#[global] Instance seq_le_dec : RelDecision seq_le.
Proof. intros a b. unfold seq_le. apply _. Defined.

Definition sort_Slice (segments : list segment) : list segment :=
  merge_sort seq_le segments.

Section Package.
Context (lib : externals).

(** [newRequest]: a GET request carrying the given header set. *)
Definition newRequest (u : string) (hd : http_Header) : result request :=
  if url_valid lib u then Ok {| req_url := u; req_header := hd |}
  else Err ("parse " +:+ u +:+ ": invalid URL").

(** [c.Get(u)]: a GET request built by the client itself, with no header
    of the caller. *)
Definition client_Get (net : transport) (c : http_client) (u : string) : roundtrip :=
  if url_valid lib u then net c {| req_url := u; req_header := ∅ |}
  else RoundTripError ("parse " +:+ u +:+ ": invalid URL").

(** *** Playlist resolution *)

Definition getM3u8ListType (u : string) (hd : http_Header) (net : transport)
  : result m3u8_Playlist :=
  req ← newRequest u hd;
  match net DefaultClient req with
  | RoundTripError e => Err e
  | Response code status body berr =>
      if negb (code =? 200) then Err status
      else match berr with
           | Some e => Err e
           | None => m3u8_DecodeFrom lib body
           end
  end.

(** The loop of [parseHLSSegments].  A segment without a key shares the
    key object of the playlist, so resolving the URI of that key is seen by
    the segments that follow; [pkey] carries the playlist key along. *)
Fixpoint parse_segments (URL : string) (pkey : option m3u8_Key)
    (segs : list (option segment)) : result (list segment) :=
  match segs with
  | [] => Ok []
  | None :: segs' => parse_segments URL pkey segs'
  | Some seg :: segs' =>
      seg ← (if negb (strings_Contains (URI seg) "http")
             then u ← url_resolve lib URL (URI seg); Ok (set_URI seg u)
             else Ok seg);
      let inherited := bool_decide (Key seg = None) in
      let seg := if inherited then set_Key seg pkey else seg in
      k ← match Key seg with
          | Some k =>
              if negb (strings_Contains (Key_URI k) "http")
              then u ← url_resolve lib URL (Key_URI k);
                   Ok (Some {| Key_URI := u; IV := IV k |})
              else Ok (Some k)
          | None => Ok None
          end;
      let pkey := if inherited then k else pkey in
      rest ← parse_segments URL pkey segs';
      Ok (set_Key seg k :: rest)
  end.

Definition parseHLSSegments (URL : string) (hd : http_Header) (net : transport)
  : result (list segment) :=
  if negb (url_valid lib URL) then Err "invalid url"
  else
    p ← getM3u8ListType URL hd net;
    match p with
    | MasterPlaylist => Err "M38U is not media type"
    | MediaPlaylist segs pkey => parse_segments URL pkey segs
    end.

(** *** Decryption unit *)

(** [decryptAES128].  [aes.NewCipher] accepts keys of 16, 24 and 32 bytes.
    [iv[:blockSize]] keeps the first 16 bytes of [iv]; for a shorter [iv]
    the expression depends on the spare capacity of the slice, which the
    language does not fix, and the model takes the panic of the case
    without spare capacity.  [CryptBlocks] panics unless the input is a
    whole number of blocks. *)
Definition decryptAES128 (crypted key iv : list byte) : result (list byte) :=
  let k := length key in
  if negb (bool_decide (k = 16 ∨ k = 24 ∨ k = 32)%nat)
  then Err ("crypto/aes: invalid key size " +:+ pretty k)
  else
    let blockSize := 16%nat in
    if bool_decide (length iv < blockSize)%nat
    then Panic "slice bounds out of range"
    else if negb (bool_decide (length crypted `mod` blockSize = 0)%nat)
    then Panic "crypto/cipher: input not full blocks"
    else
      let origData := cbc_decrypt lib key (take blockSize iv) crypted in
      pkcs5UnPadding origData.

(** [getKey]: the key is fetched with the client alone; the IV is the text
    of the key's IV attribute when there is one, else [defaultIV]. *)
Definition getKey (seg : segment) (c : http_client) (net : transport)
  : result (list byte * list byte) :=
  match Key seg with
  | None => Panic "invalid memory address or nil pointer dereference"
  | Some k =>
      match client_Get net c (Key_URI k) with
      | RoundTripError e => Err e
      | Response code status body berr =>
          if negb (code =? 200) then Err "Failed to get descryption key"
          else match berr with
               | Some e => Err e
               | None =>
                   let iv := String.list_byte_of_string (IV k) in
                   let iv := if bool_decide (length iv = 0%nat)
                             then defaultIV (SeqId seg) else iv in
                   Ok (body, iv)
               end
      end
  end.

(** [decrypt] after reading the staging file: the [if segment.Key != nil]
    block, then the scan for the sync byte. *)
Definition cleartext (seg : segment) (c : http_client) (net : transport)
    (data : list byte) : result (list byte) :=
  match Key seg with
  | Some _ =>
      '(key, iv) ← getKey seg c net;
      decryptAES128 data key iv
  | None => Ok data
  end.

Definition payload (seg : segment) (c : http_client) (net : transport)
    (data : list byte) : result (list byte) :=
  data ← cleartext seg c net data;
  Ok (trimSync data).

Definition decrypt (seg : segment) (c : http_client) (net : transport)
    (fs : filesystem) : result (list byte) :=
  data ← os_ReadFile (path seg) fs;
  payload seg c net data.

(** *** Joiner *)

(** The [for _, segment := range segments] loop of [join].  [os.RemoveAll]
    is taken to succeed. *)
Fixpoint join_loop (h : hlsDownloader) (net : transport)
    (segments : list segment) (fs : filesystem) : result unit * filesystem :=
  match segments with
  | [] => (Ok (), fs)
  | segment :: rest =>
      match decrypt segment (client h) net fs with
      | Ok d =>
          let fs := file_Write (output h) d fs in
          let fs := os_RemoveAll (path segment) fs in
          join_loop h net rest fs
      | Err e => (Err e, fs)
      | Panic e => (Panic e, fs)
      end
  end.

Definition join (h : hlsDownloader) (net : transport)
    (segments : list segment) (fs : filesystem) : result string * filesystem :=
  match os_Create (output h) fs with
  | (Ok _, fs) =>
      match join_loop h net (sort_Slice segments) fs with
      | (Ok _, fs) => (Ok (output h), fs)
      | (Err e, fs) => (Err e, fs)
      | (Panic e, fs) => (Panic e, fs)
      end
  | (Err e, fs) => (Err e, fs)
  | (Panic e, fs) => (Panic e, fs)
  end.

(** *** One download attempt *)

(** [downloadSegment]: the error it returns (nil = [None]) and the file
    system it leaves. *)
Definition downloadSegment (h : hlsDownloader) (seg : segment)
    (net : transport) (fs : filesystem) : option string * filesystem :=
  match newRequest (URI seg) (header h) with
  | Ok req =>
      match net (client h) req with
      | RoundTripError e => (Some e, fs)
      | Response code status body berr =>
          if negb (code =? 200) then (Some status, fs)
          else match os_Create (path seg) fs with
               | (Ok _, fs) => (berr, file_Write (path seg) body fs)
               | (Err e, fs) => (Some e, fs)
               | (Panic e, fs) => (Some e, fs)
               end
      end
  | Err e => (Some e, fs)
  | Panic e => (Some e, fs)
  end.
End Package.

(** ** The worker pool and the coordinator *)

(** [time.Second], in nanoseconds. *)
Definition time_Second : Z := 1000000000.

(** [maxAttempts := 3] *)
Definition maxAttempts : Z := 3.

(** A worker ([downloadSegments]) between two of its interactions. *)
Inductive worker_pc : Type :=
  | WRecv                                   (* at [range wc.segments] *)
  | WCheck (seg : segment) (attempts : Z)   (* at [h.isAbort(wc)] *)
  | WDownload (seg : segment) (attempts : Z)(* at [h.downloadSegment(segment)] *)
  | WSleep (seg : segment) (attempts : Z)   (* at [time.Sleep(time.Second)] *)
  | WSend (r : downloadResult)              (* at [wc.downloadResult <- ...] *)
  | WClose                                  (* at [close(wc.downloadResult)] *)
  | WDone.                                  (* returned, [wc.wg.Done()] ran *)

#[global] Instance worker_pc_eq_dec : EqDecision worker_pc.
Proof. solve_decision. Defined.

(** What a worker meets at one interaction. *)
Inductive worker_obs : Type :=
  | Took (seg : segment)           (* received an item from the queue *)
  | QueueClosed                    (* the queue is closed and empty *)
  | Polled (aborted : bool)        (* the value of [isAbort] *)
  | Attempted (e : option string)  (* the error of [downloadSegment] *)
  | Slept (d : Z)                  (* [time.Sleep(d)] is over *)
  | Reported (r : downloadResult)  (* the result was received *)
  | ClosedResults.                 (* [close(wc.downloadResult)] was run *)

(** The body of [downloadSegments], one interaction at a time; [None] when
    the worker is not at such an interaction. *)
Definition worker_step (pc : worker_pc) (o : worker_obs) : option worker_pc :=
  match pc, o with
  | WRecv, Took seg => Some (WCheck seg 0)
  | WRecv, QueueClosed => Some WDone
  | WCheck seg attempts, Polled true => Some WClose
  | WCheck seg attempts, Polled false => Some (WDownload seg attempts)
  | WClose, ClosedResults => Some WDone
  | WDownload seg attempts, Attempted None =>
      Some (WSend {| err := None; seqId := SeqId seg; totalSegments := 0 |})
  | WDownload seg attempts, Attempted (Some e) =>
      let connectionReset := strings_Contains e "connection reset by peer" in
      if connectionReset && (attempts <? maxAttempts)
      then Some (WSleep seg (attempts + 1))
      else Some (WSend {| err := Some e; seqId := SeqId seg; totalSegments := 0 |})
  | WSleep seg attempts, Slept d =>
      if d =? time_Second then Some (WCheck seg attempts) else None
  | WSend r, Reported r' =>
      if bool_decide (err r = err r' ∧ seqId r = seqId r') then Some WRecv else None
  | _, _ => None
  end.

Fixpoint worker_run (pc : worker_pc) (os : list worker_obs) : option worker_pc :=
  match os with
  | [] => Some pc
  | o :: os' => pc' ← worker_step pc o; worker_run pc' os'
  end.

(** The feeder ([prepareSegments]). *)
Inductive feeder_pc : Type :=
  | FLoop (k : nat)      (* at the head of the loop, [segments[k]] is next *)
  | FSend (k : nat)      (* at [wc.segments <- segment] with [segments[k]] *)
  | FDone.               (* returned, [close(wc.segments)] ran *)

(** The goroutine that waits for the pool. *)
Inductive observer_pc : Type :=
  | OWait                (* at [wc.wg.Wait()] *)
  | OSignal              (* at [wc.success <- struct{}{}] *)
  | ODone.

(** The loop of [processSegments]. *)
Inductive coordinator_pc : Type :=
  | CSelect
  | CReturned (e : option string).

Record pipeline : Type := {
  segments : list segment;     (* the segment objects, shared with the caller *)
  abort : bool;                (* [wc.abort] is closed *)
  results_closed : bool;       (* [wc.downloadResult] is closed *)
  feeder : feeder_pc;
  pool : list worker_pc;
  observer : observer_pc;
  coordinator : coordinator_pc;
  disk : filesystem;
  progress : option nat;       (* [h.bar] *)
  crashed : option string;     (* a goroutine has panicked *)
}.

(** One scheduling decision: which goroutine moves, and what the world
    answers where it is asked. *)
Inductive label : Type :=
  | Feed                               (* the feeder runs up to its next send *)
  | Dispatch (w : nat)                 (* hand-off on [wc.segments] to worker w *)
  | Drained (w : nat)                  (* worker w finds the queue closed *)
  | Poll (w : nat)                     (* worker w calls [isAbort] *)
  | Fetch (w : nat) (net : transport)  (* worker w calls [downloadSegment] *)
  | Sleep (w : nat) (d : Z)            (* worker w has slept for d *)
  | Report (w : nat)                   (* hand-off on [wc.downloadResult] *)
  | CloseResults (w : nat)             (* worker w closes [wc.downloadResult] *)
  | NilResult                          (* the coordinator reads the closed channel *)
  | AllDone                            (* [wc.wg.Wait()] returns *)
  | Success.                           (* hand-off on [wc.success] *)

(** Field updates of the pipeline state. *)
Definition set_segments (v : list segment) (s : pipeline) : pipeline :=
  {| segments := v; abort := abort s; results_closed := results_closed s;
     feeder := feeder s; pool := pool s; observer := observer s;
     coordinator := coordinator s; disk := disk s; progress := progress s;
     crashed := crashed s |}.
Definition set_abort (v : bool) (s : pipeline) : pipeline :=
  {| segments := segments s; abort := v; results_closed := results_closed s;
     feeder := feeder s; pool := pool s; observer := observer s;
     coordinator := coordinator s; disk := disk s; progress := progress s;
     crashed := crashed s |}.
Definition set_results_closed (v : bool) (s : pipeline) : pipeline :=
  {| segments := segments s; abort := abort s; results_closed := v;
     feeder := feeder s; pool := pool s; observer := observer s;
     coordinator := coordinator s; disk := disk s; progress := progress s;
     crashed := crashed s |}.
Definition set_feeder (v : feeder_pc) (s : pipeline) : pipeline :=
  {| segments := segments s; abort := abort s;
     results_closed := results_closed s; feeder := v; pool := pool s;
     observer := observer s; coordinator := coordinator s; disk := disk s;
     progress := progress s; crashed := crashed s |}.
Definition set_worker (w : nat) (pc : worker_pc) (s : pipeline) : pipeline :=
  {| segments := segments s; abort := abort s;
     results_closed := results_closed s; feeder := feeder s;
     pool := <[w := pc]> (pool s); observer := observer s;
     coordinator := coordinator s; disk := disk s; progress := progress s;
     crashed := crashed s |}.
Definition set_observer (v : observer_pc) (s : pipeline) : pipeline :=
  {| segments := segments s; abort := abort s;
     results_closed := results_closed s; feeder := feeder s; pool := pool s;
     observer := v; coordinator := coordinator s; disk := disk s;
     progress := progress s; crashed := crashed s |}.
Definition set_coordinator (v : coordinator_pc) (s : pipeline) : pipeline :=
  {| segments := segments s; abort := abort s;
     results_closed := results_closed s; feeder := feeder s; pool := pool s;
     observer := observer s; coordinator := v; disk := disk s;
     progress := progress s; crashed := crashed s |}.
Definition set_disk (v : filesystem) (s : pipeline) : pipeline :=
  {| segments := segments s; abort := abort s;
     results_closed := results_closed s; feeder := feeder s; pool := pool s;
     observer := observer s; coordinator := coordinator s; disk := v;
     progress := progress s; crashed := crashed s |}.
Definition set_progress (v : option nat) (s : pipeline) : pipeline :=
  {| segments := segments s; abort := abort s;
     results_closed := results_closed s; feeder := feeder s; pool := pool s;
     observer := observer s; coordinator := coordinator s; disk := disk s;
     progress := v; crashed := crashed s |}.
Definition crash (msg : string) (s : pipeline) : pipeline :=
  {| segments := segments s; abort := abort s;
     results_closed := results_closed s; feeder := feeder s; pool := pool s;
     observer := observer s; coordinator := coordinator s; disk := disk s;
     progress := progress s; crashed := Some msg |}.

(** [h.bar.Increment()] when [h.bar != nil] *)
Definition Increment (b : option nat) : option nat := S <$> b.

Section Pipeline.
Context (lib : externals) (h : hlsDownloader).

(** The feeder from the head of its loop to its next send or its return:
    the loop ends, or [isAbort] is true, or the segment gets its staging
    path and is offered to the queue.  [close(wc.segments)] runs on
    return. *)
Definition feed (k : nat) (s : pipeline) : pipeline :=
  match segments s !! k with
  | None => set_feeder FDone s
  | Some segment =>
      if abort s then set_feeder FDone s
      else
        let segName := "seg" +:+ pretty (SeqId segment) +:+ ".ts" in
        let segment := set_path segment (filepath_Join (tmpDir h) segName) in
        set_feeder (FSend k) (set_segments (<[k := segment]> (segments s)) s)
  end.

(** The coordinator on receiving [result]: an error closes [wc.abort] and
    is returned; otherwise the progress sink is stepped. *)
Definition receive (r : downloadResult) (s : pipeline) : pipeline :=
  match err r with
  | Some e =>
      if abort s then crash "close of closed channel" s
      else set_coordinator (CReturned (Some e)) (set_abort true s)
  | None => set_progress (Increment (progress s)) s
  end.

(** One step of the pipeline; [None] when the goroutine named by the label
    cannot move (it is elsewhere, or blocked), or the process is gone. *)
Definition step (l : label) (s : pipeline) : option pipeline :=
  if bool_decide (crashed s = None) then
    match l with
    | Feed =>
        match feeder s with
        | FLoop k => Some (feed k s)
        | _ => None
        end
    | Dispatch w =>
        match feeder s with
        | FSend k =>
            pc ← pool s !! w;
            seg ← segments s !! k;
            pc' ← worker_step pc (Took seg);
            Some (set_worker w pc' (set_feeder (FLoop (S k)) s))
        | _ => None
        end
    | Drained w =>
        match feeder s with
        | FDone =>
            pc ← pool s !! w;
            pc' ← worker_step pc QueueClosed;
            Some (set_worker w pc' s)
        | _ => None
        end
    | Poll w =>
        pc ← pool s !! w;
        pc' ← worker_step pc (Polled (abort s));
        Some (set_worker w pc' s)
    | Fetch w net =>
        pc ← pool s !! w;
        match pc with
        | WDownload seg _ =>
            let '(e, fs) := downloadSegment lib h seg net (disk s) in
            pc' ← worker_step pc (Attempted e);
            Some (set_worker w pc' (set_disk fs s))
        | _ => None
        end
    | Sleep w d =>
        pc ← pool s !! w;
        pc' ← worker_step pc (Slept d);
        Some (set_worker w pc' s)
    | Report w =>
        pc ← pool s !! w;
        match pc with
        | WSend r =>
            if results_closed s then Some (crash "send on closed channel" s)
            else match coordinator s with
                 | CSelect =>
                     pc' ← worker_step pc (Reported r);
                     Some (set_worker w pc' (receive r s))
                 | CReturned _ => None
                 end
        | _ => None
        end
    | CloseResults w =>
        pc ← pool s !! w;
        pc' ← worker_step pc ClosedResults;
        if results_closed s then Some (crash "close of closed channel" s)
        else Some (set_worker w pc' (set_results_closed true s))
    | NilResult =>
        match coordinator s with
        | CSelect =>
            if results_closed s
            then Some (crash "invalid memory address or nil pointer dereference" s)
            else None
        | CReturned _ => None
        end
    | AllDone =>
        match observer s with
        | OWait =>
            if bool_decide (Forall (λ pc, pc = WDone) (pool s))
            then Some (set_observer OSignal s)
            else None
        | _ => None
        end
    | Success =>
        match observer s, coordinator s with
        | OSignal, CSelect =>
            Some (set_coordinator (CReturned None) (set_observer ODone s))
        | _, _ => None
        end
    end
  else None.

Fixpoint run (sched : list label) (s : pipeline) : option pipeline :=
  match sched with
  | [] => Some s
  | l :: sched' => s' ← step l s; run sched' s'
  end.

(** The pipeline as [processSegments] sets it up. *)
Definition start (segs : list segment) (fs : filesystem) : pipeline :=
  {| segments := segs; abort := false; results_closed := false;
     feeder := FLoop 0; pool := replicate (Z.to_nat (workers h)) WRecv;
     observer := OWait; coordinator := CSelect; disk := fs;
     progress := bar h; crashed := None |}.

(** [processSegments] under a schedule: the pipeline runs until the
    coordinator returns; [None] when the schedule does not get it there. *)
Fixpoint await (sched : list label) (s : pipeline)
  : option (option string * pipeline) :=
  match coordinator s with
  | CReturned e => Some (e, s)
  | CSelect =>
      match sched with
      | [] => None
      | l :: sched' => s' ← step l s; await sched' s'
      end
  end.

Definition processSegments (segs : list segment) (fs : filesystem)
    (sched : list label) : option (option string * pipeline) :=
  await sched (start segs fs).
End Pipeline.

(** ** What a worker sees of a run *)

(** The classification made in [downloadSegments]:
    [strings.Contains(err.Error(), "connection reset by peer")]. *)
Definition connection_reset (e : string) : bool :=
  strings_Contains e "connection reset by peer".

(** One failed attempt that is retried, as the worker lives it: the abort
    poll, the failed download, the sleep. *)
Definition retry_round (e : string) : list worker_obs :=
  [Polled false; Attempted (Some e); Slept time_Second].

Definition is_Reported (o : worker_obs) : bool :=
  match o with Reported _ => true | _ => false end.

Definition is_Took (o : worker_obs) : bool :=
  match o with Took _ => true | _ => false end.

Definition is_Slept (o : worker_obs) : bool :=
  match o with Slept _ => true | _ => false end.

(** The number of retry sleeps among some observations. *)
Definition sleeps (os : list worker_obs) : nat :=
  length (filter (λ o, is_Slept o = true) os).


Section Observation.
Context (lib : externals) (h : hlsDownloader).

(** What worker [w] meets when step [l] is taken from [s]. *)
Definition observed (w : nat) (l : label) (s : pipeline) : list worker_obs :=
  match l with
  | Dispatch w' =>
      match feeder s with
      | FSend k =>
          match segments s !! k with
          | Some seg => if bool_decide (w' = w) then [Took seg] else []
          | None => []
          end
      | _ => []
      end
  | Drained w' => if bool_decide (w' = w) then [QueueClosed] else []
  | Poll w' => if bool_decide (w' = w) then [Polled (abort s)] else []
  | Fetch w' net =>
      match pool s !! w with
      | Some (WDownload seg _) =>
          if bool_decide (w' = w)
          then [Attempted (downloadSegment lib h seg net (disk s)).1]
          else []
      | _ => []
      end
  | Sleep w' d => if bool_decide (w' = w) then [Slept d] else []
  | Report w' =>
      match pool s !! w with
      | Some (WSend r) =>
          if bool_decide (w' = w) && negb (results_closed s)
          then [Reported r] else []
      | _ => []
      end
  | CloseResults w' =>
      if bool_decide (w' = w) && negb (results_closed s)
      then [ClosedResults] else []
  | _ => []
  end.

(** The observations of worker [w] along a schedule. *)
Fixpoint observations (w : nat) (sched : list label) (s : pipeline)
  : list worker_obs :=
  match sched with
  | [] => []
  | l :: sched' =>
      match step lib h l s with
      | Some s' => observed w l s ++ observations w sched' s'
      | None => []
      end
  end.


(** How many steps of a schedule run [close(wc.abort)]: the hand-over of
    a result that carries an error. *)
Definition closes_abort (l : label) (s : pipeline) : bool :=
  match l with
  | Report w =>
      match pool s !! w, coordinator s with
      | Some (WSend r), CSelect =>
          negb (results_closed s) && bool_decide (is_Some (err r))
      | _, _ => false
      end
  | _ => false
  end.

Fixpoint abort_closings (sched : list label) (s : pipeline) : nat :=
  match sched with
  | [] => 0
  | l :: sched' =>
      match step lib h l s with
      | Some s' =>
          ((if closes_abort l s then 1 else 0) + abort_closings sched' s')%nat
      | None => 0%nat
      end
  end.
End Observation.

(** ** The top-level operation *)

(** What the outside world contributes to one [Download] call. *)
Record environment : Type := {
  manifest_net : transport;        (* the network while the playlist is read *)
  tmp_choice : result string;      (* the outcome of [os.MkdirTemp] *)
  schedule : list label;           (* the interleaving of the fetch phase *)
  join_net : transport;            (* the network while segments are joined *)
}.

Section Download.
Context (lib : externals).

(** [Download] from [h.processSegments(segments)] on: the part that runs
    with [os.RemoveAll(h.tmpDir)] deferred.  [None]: the call has not
    returned under the given schedule. *)
Definition fetch_and_join (h : hlsDownloader) (segs : list segment)
    (env : environment) (fs : filesystem)
  : option (result string * filesystem) :=
  '(e, s) ← processSegments lib h segs fs (schedule env);
  match e with
  | Some e => Some (Err e, disk s)
  | None => Some (join lib h (join_net env) (segments s) (disk s))
  end.

Definition Download (h : option hlsDownloader) (env : environment)
    (fs : filesystem) : option (result string * filesystem) :=
  match h with
  | None => Some (Err "instance is nil", fs)
  | Some h =>
      match parseHLSSegments lib (url h) (header h) (manifest_net env) with
      | Ok segs =>
          match os_MkdirAll (h_path h) fs with
          | (Ok _, fs) =>
              match os_MkdirTemp (tmp_choice env) fs with
              | (Ok tmp, fs) =>
                  let h := set_tmpDir h tmp in
                  (* defer os.RemoveAll(h.tmpDir) *)
                  '(r, fs) ← fetch_and_join h segs env fs;
                  Some (r, os_RemoveAll tmp fs)
              | (Err e, fs) => Some (Err e, fs)
              | (Panic e, fs) => Some (Panic e, fs)
              end
          | (Err e, fs) => Some (Err e, fs)
          | (Panic e, fs) => Some (Panic e, fs)
          end
      | Err e => Some (Err e, fs)
      | Panic e => Some (Panic e, fs)
      end
  end.
End Download.

(** ** Sample values for the worked examples *)

Module Samples.
(** Stand-ins for the libraries: every URL parses, a reference is resolved
    by appending it to the base, the playlist decoder sees a master
    playlist, and the cipher is the identity on its input. *)
Definition lib : externals :=
  {| url_valid := λ _, true;
     url_resolve := λ base ref, Ok (base +:+ ref);
     m3u8_DecodeFrom := λ _, Ok MasterPlaylist;
     cbc_decrypt := λ _ _ d, d |}.

Definition key16 : list byte := replicate 16 "k"%byte.

(** A server that answers every request with 200 and the 16-byte key. *)
Definition net_key : transport :=
  λ _ _, Response 200 "200 OK" key16 None.

(** A server that answers every request with the given status line. *)
Definition net_status (code : Z) (status : string) : transport :=
  λ _ _, Response code status [] None.

(** A server that answers every request with 200 and the given body. *)
Definition net_body (body : list byte) : transport :=
  λ _ _, Response 200 "200 OK" body None.

Definition clear_seg (n : N) : segment :=
  {| SeqId := n; URI := "http://host/s" +:+ pretty n +:+ ".ts"; Key := None;
     path := "/tmp/1-segments/seg" +:+ pretty n +:+ ".ts" |}.

Definition keyed_seg (n : N) (iv : string) : segment :=
  {| SeqId := n; URI := "http://host/s" +:+ pretty n +:+ ".ts";
     Key := Some {| Key_URI := "http://host/key"; IV := iv |};
     path := "/tmp/1-segments/seg" +:+ pretty n +:+ ".ts" |}.

Definition staged (l : list (string * list byte)) : filesystem :=
  {| dirs := {["/tmp/1-segments"; "/out"]}; files := list_to_map l |}.

Definition dl : hlsDownloader :=
  {| url := "http://host/index.m3u8"; output := "/out/video.ts";
     h_path := "/out"; filename := "video.ts"; extension := ".ts";
     tmpDir := "/tmp/1-segments"; client := Client 1; header := ∅;
     workers := 1; bar := None |}.
End Samples.

(** ** Staging paths *)

(** The path [prepareSegments] gives to the segment with sequence number [n]:
    [filepath.Join(h.tmpDir, fmt.Sprintf("seg%d.ts", n))]. *)
Definition staging_path (h : hlsDownloader) (n : N) : string :=
  filepath_Join (tmpDir h) ("seg" +:+ pretty n +:+ ".ts").

Module JoinSample.
Import Samples.

(** Three clear segments, staged out of order; each starts with stray
    bytes before its first sync byte. *)
Definition raw0 : list byte := [x00; "G"; "a"]%byte.
Definition raw1 : list byte := ["G"; "b"; "G"]%byte.
Definition raw2 : list byte := [xff; xfe; "G"; "c"]%byte.

Definition downloads : list (segment * list byte) :=
  [(clear_seg 2, raw2); (clear_seg 0, raw0); (clear_seg 1, raw1)].

Definition fs : filesystem :=
  staged [(path (clear_seg 2), raw2); (path (clear_seg 0), raw0);
          (path (clear_seg 1), raw1)].
End JoinSample.

Module RetrySample.
Import Samples.

(** A connection that is reset on every attempt. *)
Definition reset_msg : string :=
  "read tcp 10.0.0.2:51234->10.0.0.1:443: read: connection reset by peer".
Definition net_reset : transport := λ _ _, RoundTripError reset_msg.

(** A server whose status line carries the phrase the worker looks for. *)
Definition odd_status : string := "500 connection reset by peer".
Definition net_odd : transport := net_status 500 odd_status.

Definition fs0 : filesystem := staged [].
Definition seg0 : segment := clear_seg 0.

(** One worker, one segment, four resets in a row. *)
Definition four_resets : list label :=
  [Feed; Dispatch 0;
   Poll 0; Fetch 0 net_reset; Sleep 0 time_Second;
   Poll 0; Fetch 0 net_reset; Sleep 0 time_Second;
   Poll 0; Fetch 0 net_reset; Sleep 0 time_Second;
   Poll 0; Fetch 0 net_reset;
   Report 0].
End RetrySample.

(** ** Coherence of the pipeline state *)

(** What holds of every state the pipeline reaches: while [wc.abort] is open
    nobody has closed [wc.downloadResult], nothing has panicked and no worker
    is about to close the result channel; and the coordinator is in its loop
    only while [wc.abort] is open. *)
Definition coherent (s : pipeline) : Prop :=
  (abort s = false →
     results_closed s = false ∧ crashed s = None ∧
     Forall (λ pc, pc ≠ WClose) (pool s)) ∧
  (coordinator s = CSelect → abort s = false).

Module AbortSample.
Import Samples.

Definition net_500 : transport := net_status 500 "500 Internal Server Error".

Definition segs : list segment := [clear_seg 0; clear_seg 1].
Definition fs0 : filesystem := staged [].

(** One worker, two segments.  The feeder has passed its abort check for
    the second segment and waits to hand it over; the first download
    fails and the coordinator returns. *)
Definition before_report : list label :=
  [Feed; Dispatch 0; Feed; Poll 0; Fetch 0 net_500].
Definition until_abort : list label := before_report ++ [Report 0].

(** The worker comes back to the queue and is handed the second segment. *)
Definition late_dispatch : list label := until_abort ++ [Dispatch 0].

Definition to_the_end : list label :=
  late_dispatch ++ [Poll 0; CloseResults 0; Feed].

(** Two workers that both get to see the abort signal: one out of its retry
    sleep, one with the segment handed over late. *)
Definition dl2 : hlsDownloader :=
  {| url := "http://host/index.m3u8"; output := "/out/video.ts";
     h_path := "/out"; filename := "video.ts"; extension := ".ts";
     tmpDir := "/tmp/1-segments"; client := Client 1; header := ∅;
     workers := 2; bar := None |}.

Definition segs3 : list segment := [clear_seg 0; clear_seg 1; clear_seg 2].

Definition net_reset : transport :=
  λ _ _, RoundTripError "read: connection reset by peer".

Definition both_close : list label :=
  [Feed; Dispatch 0; Feed; Dispatch 1; Feed; Poll 0; Poll 1;
   Fetch 1 net_reset; Fetch 0 net_500; Report 0; Dispatch 0;
   Sleep 1 time_Second; Poll 1; CloseResults 1; Poll 0; CloseResults 0].
End AbortSample.

Module AuthSample.
Import Samples.

(** A downloader configured with a client and a header set of its own. *)
Definition hdr : http_Header := {[ "Authorization" := ["Bearer t"] ]}.
Definition h : hlsDownloader :=
  {| url := "http://host/index.m3u8"; output := "/out/video.ts";
     h_path := "/out"; filename := "video.ts"; extension := ".ts";
     tmpDir := "/tmp/1-segments"; client := Client 7; header := hdr;
     workers := 1; bar := None |}.

(** A server that answers only that client presenting that header set. *)
Definition net_auth : transport :=
  λ c req,
    if bool_decide (c = Client 7 ∧ req_header req = hdr)
    then Response 200 "200 OK" key16 None
    else Response 403 "403 Forbidden" [] None.
End AuthSample.

Module DownloadSample.
Import Samples.

Definition body (n : N) : list byte := [x00; "G"; uint8 n]%byte.

(** The playlist of the end-to-end scenarios: three clear segments, with
    the empty slots the decoder leaves in its table. *)
Definition playlist : m3u8_Playlist :=
  MediaPlaylist
    [Some {| SeqId := 0; URI := "http://host/s0.ts"; Key := None; path := "" |};
     Some {| SeqId := 1; URI := "http://host/s1.ts"; Key := None; path := "" |};
     Some {| SeqId := 2; URI := "http://host/s2.ts"; Key := None; path := "" |};
     None]
    None.

(** The same playlist with a key on every segment. *)
Definition keyed_playlist : m3u8_Playlist :=
  MediaPlaylist
    [Some {| SeqId := 0; URI := "http://host/s0.ts"; Key := None; path := "" |}]
    (Some {| Key_URI := "http://host/key"; IV := "" |}).

Definition lib_of (p : m3u8_Playlist) : externals :=
  {| url_valid := λ _, true;
     url_resolve := λ base ref, Ok (base +:+ ref);
     m3u8_DecodeFrom := λ _, Ok p;
     cbc_decrypt := λ _ _ d, d |}.

(** The origin: the playlist under its URL, segment [n] under [s<n>.ts]. *)
Definition origin : transport :=
  λ _ req,
    if bool_decide (req_url req = "http://host/s0.ts")
    then Response 200 "200 OK" (body 0) None
    else if bool_decide (req_url req = "http://host/s1.ts")
    then Response 200 "200 OK" (body 1) None
    else if bool_decide (req_url req = "http://host/s2.ts")
    then Response 200 "200 OK" (body 2) None
    else Response 200 "200 OK" [] None.

(** The origin with segment 1 failing. *)
Definition origin_s1_down : transport :=
  λ c req,
    if bool_decide (req_url req = "http://host/s1.ts")
    then Response 500 "500 Internal Server Error" [] None
    else origin c req.

(** The origin refusing the key. *)
Definition origin_key_refused : transport :=
  λ c req,
    if bool_decide (req_url req = "http://host/key")
    then Response 403 "403 Forbidden" [] None
    else origin c req.

Definition one_item (net : transport) : list label :=
  [Feed; Dispatch 0; Poll 0; Fetch 0 net; Report 0].

Definition wind_up : list label := [Feed; Drained 0; AllDone; Success].

Definition env_ok : environment :=
  {| manifest_net := origin; tmp_choice := Ok "/tmp/1-segments";
     schedule := one_item origin ++ one_item origin ++ one_item origin
                 ++ wind_up;
     join_net := origin |}.

Definition env_s1_down : environment :=
  {| manifest_net := origin; tmp_choice := Ok "/tmp/1-segments";
     schedule := one_item origin_s1_down ++ one_item origin_s1_down
                 ++ one_item origin_s1_down ++ wind_up;
     join_net := origin |}.

Definition env_key_refused : environment :=
  {| manifest_net := origin; tmp_choice := Ok "/tmp/1-segments";
     schedule := one_item origin ++ wind_up;
     join_net := origin_key_refused |}.

Definition disk0 : filesystem := {| dirs := {["/tmp"]}; files := ∅ |}.

(** Two workers: the staging files of segments 0 and 1 are created in
    either order. *)
Definition dl2 : hlsDownloader :=
  {| url := "http://host/index.m3u8"; output := "/out/video.ts";
     h_path := "/out"; filename := "video.ts"; extension := ".ts";
     tmpDir := "/tmp/1-segments"; client := Client 1; header := ∅;
     workers := 2; bar := Some 0%nat |}.

Definition last_item_and_wind_up : list label :=
  [Feed; Dispatch 0; Poll 0; Fetch 0 origin; Report 0;
   Feed; Drained 0; Drained 1; AllDone; Success].

Definition env_0_then_1 : environment :=
  {| manifest_net := origin; tmp_choice := Ok "/tmp/1-segments";
     schedule := [Feed; Dispatch 0; Feed; Dispatch 1; Poll 0; Poll 1;
                  Fetch 0 origin; Fetch 1 origin; Report 0; Report 1]
                 ++ last_item_and_wind_up;
     join_net := origin |}.

Definition env_1_then_0 : environment :=
  {| manifest_net := origin; tmp_choice := Ok "/tmp/1-segments";
     schedule := [Feed; Dispatch 0; Feed; Dispatch 1; Poll 1; Poll 0;
                  Fetch 1 origin; Fetch 0 origin; Report 1; Report 0]
                 ++ last_item_and_wind_up;
     join_net := origin |}.
End DownloadSample.

(** ** Staging paths along a run *)

(** How far the feeder has got: the segments below this index have been
    given their staging path. *)
Definition fed (s : pipeline) : nat :=
  match feeder s with
  | FLoop k => k
  | FSend k => S k
  | FDone => if abort s then 0%nat else length (segments s)
  end.

(** The segment objects keep their sequence numbers, the ones the feeder
    has passed carry their staging path, and the pool winds down in order:
    a worker returns only after the feeder, the observer moves only after
    the pool, success is reported only after the observer. *)
Definition staged_so_far (h : hlsDownloader) (segs : list segment)
    (s : pipeline) : Prop :=
  SeqId <$> segments s = SeqId <$> segs ∧
  (∀ i seg, (i < fed s)%nat → segments s !! i = Some seg →
            path seg = staging_path h (SeqId seg)) ∧
  (abort s = false → WDone ∈ pool s → feeder s = FDone) ∧
  (observer s ≠ OWait → Forall (λ pc, pc = WDone) (pool s)) ∧
  (coordinator s = CReturned None → observer s = ODone ∧ abort s = false).

Module PlaylistSample.
Import Samples.

(** A playlist with relative references: two segments under the key of
    the playlist, one with a key of its own, and an empty slot. *)
Definition own_key : m3u8_Key := {| Key_URI := "https://keys/k2"; IV := "0x02" |}.

Definition playlist : m3u8_Playlist :=
  MediaPlaylist
    [Some {| SeqId := 7; URI := "s7.ts"; Key := None; path := "" |};
     None;
     Some {| SeqId := 8; URI := "http://cdn/s8.ts"; Key := Some own_key; path := "" |};
     Some {| SeqId := 9; URI := "s9.ts"; Key := None; path := "" |}]
    (Some {| Key_URI := "key.bin"; IV := "" |}).

Definition lib : externals :=
  {| url_valid := λ _, true;
     url_resolve := λ _ ref, Ok ("http://host/" +:+ ref);
     m3u8_DecodeFrom := λ _, Ok playlist;
     cbc_decrypt := λ _ _ d, d |}.

Definition resolved_key : m3u8_Key := {| Key_URI := "http://host/key.bin"; IV := "" |}.

Definition resolved : list segment :=
  [{| SeqId := 7; URI := "http://host/s7.ts"; Key := Some resolved_key; path := "" |};
   {| SeqId := 8; URI := "http://cdn/s8.ts"; Key := Some own_key; path := "" |};
   {| SeqId := 9; URI := "http://host/s9.ts"; Key := Some resolved_key; path := "" |}].
End PlaylistSample.

(** ** What the fetch phase has staged *)

(** The segment a worker is busy with. *)
Definition carries (pc : worker_pc) : option segment :=
  match pc with
  | WCheck seg _ | WDownload seg _ | WSleep seg _ => Some seg
  | _ => None
  end.

(** The worker is about to report an error. *)
Definition failing (pc : worker_pc) : bool :=
  match pc with
  | WSend r => bool_decide (is_Some (err r))
  | _ => false
  end.

(** How many segments the feeder has handed over. *)
Definition dispatched (s : pipeline) : nat :=
  match feeder s with
  | FLoop k | FSend k => k
  | FDone => length (segments s)
  end.

(** The staging file of [seg] holds the complete body of a 200 response
    to the request [downloadSegment] makes for it, on one of the networks
    [nets]. *)
Definition fetched (h : hlsDownloader) (nets : transport → Prop)
    (fs : filesystem) (seg : segment) : Prop :=
  ∃ net status body,
    nets net ∧
    net (client h) {| req_url := URI seg; req_header := header h |}
      = Response 200 status body None ∧
    files fs !! path seg = Some body.

(** While [wc.abort] is open: a worker is busy only with a segment that was
    handed over, no two workers with the same one, and every segment handed
    over is with a worker, or is covered by a worker about to report an
    error, or is staged and with no worker any more. *)
Definition downloads_so_far (h : hlsDownloader) (nets : transport → Prop)
    (s : pipeline) : Prop :=
  abort s = false →
  (∀ w pc seg, pool s !! w = Some pc → carries pc = Some seg →
               ∃ j, (j < dispatched s)%nat ∧ segments s !! j = Some seg) ∧
  (∀ w1 w2 pc1 pc2 seg,
     pool s !! w1 = Some pc1 → pool s !! w2 = Some pc2 →
     carries pc1 = Some seg → carries pc2 = Some seg → w1 = w2) ∧
  (∀ i seg, (i < dispatched s)%nat → segments s !! i = Some seg →
     (∃ w pc, pool s !! w = Some pc ∧
              (carries pc = Some seg ∨ failing pc = true)) ∨
     (fetched h nets (disk s) seg ∧
      ∀ w pc, pool s !! w = Some pc → carries pc ≠ Some seg)).

(** The segment objects are those of the playlist; the feeder has given
    some of them their staging path. *)
Definition segments_of (h : hlsDownloader) (segs : list segment)
    (s : pipeline) : Prop :=
  Forall2 (λ a b, a = b ∨ a = set_path b (staging_path h (SeqId b)))
          (segments s) segs.

(** ** Counting progress *)

(** The worker holds a segment whose result has not been received yet. *)
Definition busy (pc : worker_pc) : bool :=
  match pc with
  | WCheck _ _ | WDownload _ _ | WSleep _ _ | WSend _ => true
  | _ => false
  end.

Definition busy_workers (s : pipeline) : nat :=
  length (filter (λ pc, busy pc = true) (pool s)).

(** While [wc.abort] is open, the progress sink has been stepped once for
    every segment that was handed over and is with no worker any more. *)
Definition progress_so_far (h : hlsDownloader) (s : pipeline) : Prop :=
  abort s = false →
  (dispatched s ≤ length (segments s))%nat ∧
  (∀ k, feeder s = FSend k → (k < length (segments s))%nat) ∧
  ∃ c, progress s = (λ n, (n + c)%nat) <$> bar h ∧
       (c + busy_workers s = dispatched s)%nat.

(** ** Where a reported error comes from *)

(** The segments of the playlist with the staging paths the feeder gives
    them. *)
Definition staged_segments (h : hlsDownloader) (segs : list segment)
  : list segment :=
  (λ seg, set_path seg (staging_path h (SeqId seg))) <$> segs.

(** A worker is busy with a staged segment of the playlist only, and an
    error it is about to report is one of the download errors [errs]. *)
Definition explained (h : hlsDownloader) (segs : list segment)
    (errs : segment → string → Prop) (pc : worker_pc) : Prop :=
  match pc with
  | WCheck seg _ | WDownload seg _ | WSleep seg _ =>
      seg ∈ staged_segments h segs
  | WSend r =>
      ∀ e, err r = Some e → ∃ seg, seg ∈ staged_segments h segs ∧ errs seg e
  | _ => True
  end.

Definition failures_so_far (h : hlsDownloader) (segs : list segment)
    (errs : segment → string → Prop) (s : pipeline) : Prop :=
  Forall (explained h segs errs) (pool s) ∧
  ∀ e, coordinator s = CReturned (Some e) →
       abort s = true ∧ ∃ seg, seg ∈ staged_segments h segs ∧ errs seg e.

Module PendingSample.
Import Samples.

(** Two workers, two segments: the first download is refused while the
    second succeeds; the coordinator receives the error first. *)
Definition segs : list segment := [clear_seg 0; clear_seg 1].

Definition until_return : list label :=
  [Feed; Dispatch 0; Feed; Dispatch 1; Poll 0; Poll 1;
   Fetch 0 AbortSample.net_500; Fetch 1 DownloadSample.origin; Report 0].

Definition pending : downloadResult :=
  {| err := None; seqId := 1; totalSegments := 0 |}.
End PendingSample.

(** ** Validation of the parameters *)

(** [filepath.Split]: the path up to and with its last separator, and the
    rest. *)
Fixpoint filepath_Split (p : string) : string * string :=
  match p with
  | EmptyString => ("", "")
  | String c p' =>
      let '(dir, file) := filepath_Split p' in
      if bool_decide (dir = "") && negb (bool_decide (c = "/"%char))
      then ("", String c file)
      else (String c dir, file)
  end.

(** The suffix of [p] that starts at its last dot or separator. *)
Fixpoint ext_scan (p : string) : option string :=
  match p with
  | EmptyString => None
  | String c p' =>
      match ext_scan p' with
      | Some r => Some r
      | None =>
          if bool_decide (c = "."%char ∨ c = "/"%char) then Some p else None
      end
  end.

(** [filepath.Ext]: the suffix from the last dot of the last element of the
    path on; empty when that element has no dot. *)
Definition filepath_Ext (p : string) : string :=
  match ext_scan p with
  | Some (String c r) => if bool_decide (c = "."%char) then String c r else ""
  | _ => ""
  end.

(** [os.Remove]: removes a file, or a directory that is empty; the package
    ignores its error. *)
Definition os_Remove (p : string) (fs : filesystem) : filesystem :=
  if bool_decide (is_Some (files fs !! p))
  then {| dirs := dirs fs; files := delete p (files fs) |}
  else if bool_decide (filter (λ q, within p q = true ∧ q ≠ p) (dirs fs) = ∅ ∧
                       filter (λ kv, within p kv.1 = true) (files fs) = ∅)
  then {| dirs := dirs fs ∖ {[p]}; files := files fs |}
  else fs.

(** What [os.Stat] hands back: an error, for which [os.IsNotExist] holds
    or not, or the kind of the file and its permission bits. *)
Inductive stat_result : Type :=
  | StatError (notExist : bool) (msg : string)
  | StatInfo (IsDir IsRegular : bool) (Perm : Z).

(** The surroundings of a call of [New]. *)
Record host : Type := {
  time_Unix : nat → Z;               (* the n-th reading of [time.Now().Unix()] *)
  os_Getwd : result string;
  os_Stat : filesystem → string → stat_result;
  create_denied : string → bool;     (* [os.Create] is refused for lack of permission *)
  filepath_Join2 : string → string → string;   (* [filepath.Join(dir, name)] *)
  http_Head : string → roundtrip;    (* [http.Head(URL)] *)
  new_client : nat;                  (* the client value that [New] makes *)
}.

Record outParams : Type := {
  out_output : string;
  out_path : string;
  out_filename : string;
  out_extension : string;
}.

(** [os.ErrPermission] and [os.ErrNotExist], by their messages. *)
Definition os_ErrPermission : string := "permission denied".
Definition os_ErrNotExist : string := "file does not exist".

Section Validation.
Context (sys : host).

(** [testFileWrite]: [file.Close()] on a nil file returns an error, which
    is dropped; [os.Remove] runs whether the file was created or not. *)
Definition testFileWrite (out : outParams) (fs : filesystem)
  : option string * filesystem :=
  if create_denied sys (out_output out) then (Some os_ErrPermission, fs)
  else
    let '(_, fs) := os_Create (out_output out) fs in
    (None, os_Remove (out_output out) fs).

Definition validateOutputPermission (out : outParams) (fs : filesystem)
  : option string * filesystem :=
  match os_Stat sys fs (out_output out) with
  | StatError true _ => testFileWrite out fs
  | StatError false _ => (Some "output path is not valid", fs)
  | StatInfo isDir isRegular perm =>
      if isDir then
        if Z.land perm (Z.shiftl 1 7) =? 0 then (Some os_ErrPermission, fs)
        else (None, fs)
      else if negb isRegular then (Some os_ErrNotExist, fs)
      else if Z.land perm 128 =? 0 then (Some os_ErrPermission, fs)
      else testFileWrite out fs
  end.

(** [validateOutput].  [tick] counts the readings of the clock so far; the
    recursion of the source is bounded by [fuel], and [None] says that the
    bound was too small. *)
Fixpoint validateOutput (fuel tick : nat) (output : string) (fs : filesystem)
  : option (result outParams) :=
  match fuel with
  | O => None
  | S fuel =>
      let now := time_Unix sys tick in
      let nowFilename := pretty now +:+ ".ts" in
      match (if bool_decide (output = "") then os_Getwd sys else Ok output) with
      | Ok output =>
          let '(path, filename) := filepath_Split output in
          match (if bool_decide (path = "") then os_Getwd sys else Ok path) with
          | Ok path =>
              let filename :=
                if bool_decide (filename = "") then nowFilename else filename in
              let extension := filepath_Ext filename in
              let '(filename, extension) :=
                if bool_decide (extension = "")
                then (filename +:+ ".ts", ".ts") else (filename, extension) in
              let output := filepath_Join2 sys path filename in
              match os_Stat sys fs output with
              | StatError _ _ =>
                  Some (Ok {| out_output := output; out_path := path;
                              out_filename := filename;
                              out_extension := extension |})
              | StatInfo _ _ _ =>
                  let filename :=
                    pretty (time_Unix sys (S tick)) +:+ extension in
                  let output := filepath_Join2 sys path filename in
                  validateOutput fuel (S (S tick)) output fs
              end
          | Err e => Some (Err e)
          | Panic e => Some (Panic e)
          end
      | Err e => Some (Err e)
      | Panic e => Some (Panic e)
      end
  end.

Definition validateURL (URL : string) : option string :=
  match http_Head sys URL with
  | RoundTripError e => Some e
  | Response code status _ _ =>
      if negb (code =? 200) then Some ("url is not valid. " +:+ status)
      else None
  end.

Definition validateParameters (fuel : nat) (URL output : string)
    (fs : filesystem) : option (result outParams * filesystem) :=
  match validateURL URL with
  | Some e => Some (Err e, fs)
  | None =>
      r ← validateOutput fuel 0 output fs;
      match r with
      | Ok out =>
          match validateOutputPermission out fs with
          | (Some e, fs) => Some (Err e, fs)
          | (None, fs) => Some (Ok out, fs)
          end
      | Err e => Some (Err e, fs)
      | Panic e => Some (Panic e, fs)
      end
  end.

(** [const defaultWorkers = 5] *)
Definition defaultWorkers : Z := 5.

Definition New (fuel : nat) (URL output : string) (fs : filesystem)
  : option (result hlsDownloader * filesystem) :=
  '(r, fs) ← validateParameters fuel URL output fs;
  match r with
  | Ok out =>
      Some (Ok {| url := URL; output := out_output out; h_path := out_path out;
                  filename := out_filename out;
                  extension := out_extension out; tmpDir := "";
                  client := Client (new_client sys); header := ∅;
                  workers := defaultWorkers; bar := None |}, fs)
  | Err e => Some (Err e, fs)
  | Panic e => Some (Panic e, fs)
  end.
End Validation.

(** [SetBar]: the argument is a pointer to an interface value. *)
Definition SetBar (h : option hlsDownloader) (b : option (option nat))
  : result hlsDownloader :=
  match h with
  | None => Err "attempt to set bar on nil instance"
  | Some h =>
      match b with
      | None => Panic "invalid memory address or nil pointer dereference"
      | Some b =>
          Ok {| url := url h; output := output h; h_path := h_path h;
                filename := filename h; extension := extension h;
                tmpDir := tmpDir h; client := client h; header := header h;
                workers := workers h; bar := b |}
      end
  end.

Module ValidationSample.
(** A host in which nothing is denied, the clock stands at 1700000000, the
    working directory is /home/u/proj, and [os.Stat] sees the files and
    directories of the file system. *)
Definition sys : host :=
  {| time_Unix := λ _, 1700000000;
     os_Getwd := Ok "/home/u/proj";
     os_Stat := λ fs p,
       if bool_decide (p ∈ dirs fs) then StatInfo true false 493
       else if bool_decide (is_Some (files fs !! p)) then StatInfo false true 420
       else StatError true ("stat " +:+ p +:+ ": no such file or directory");
     create_denied := λ _, false;
     filepath_Join2 := λ d n,
       if bool_decide (filepath_Split d = (d, "")) then d +:+ n
       else d +:+ "/" +:+ n;
     http_Head := λ _, Response 200 "200 OK" [] None;
     new_client := 1 |}.

Definition fs : filesystem :=
  {| dirs := {["/home"; "/home/u"; "/home/u/proj"]};
     files := {["/home/u/movie.ts" := ["m"]%byte]} |}.
End ValidationSample.

(** One successful call of a setter. *)
Inductive configure (h : hlsDownloader) : hlsDownloader → Prop :=
  | by_SetClient c h' : SetClient (Some h) c = Ok h' → configure h h'
  | by_SetHeader hd h' : SetHeader (Some h) hd = Ok h' → configure h h'
  | by_SetWorkers n h' : SetWorkers (Some h) n = Ok h' → configure h h'
  | by_SetBar b h' : SetBar (Some h) b = Ok h' → configure h h'.

(** ** The command *)

(** The variables that [handleArgs] binds to the command line, as
    [flag.Parse] leaves them; [flag_help] is [*helpCmd || *hCmd]. *)
Record flags : Type := {
  flag_URL : string;
  flag_output : string;
  flag_workers : Z;
  flag_help : bool;
}.

(** [handleArgs] from [flag.Parse()] on; [None]: the process has left by
    [os.Exit(0)]. *)
Definition handleArgs (f : flags) : option (result (string * string * Z)) :=
  if flag_help f then None
  else if bool_decide (flag_URL f = "") then Some (Err "No url specified")
  else Some (Ok (flag_URL f, flag_output f, flag_workers f)).

(** [main]: the line it logs itself, if any, and the file system it leaves;
    a panic of the package ends the process. *)
Definition main (f : flags) (sys : host) (fuel : nat) (lib : externals)
    (env : environment) (fs : filesystem)
  : option (result (option string) * filesystem) :=
  match handleArgs f with
  | None => Some (Ok None, fs)
  | Some (Ok (URL, output, workers)) =>
      '(r, fs) ← New sys fuel URL output fs;
      match r with
      | Ok hls =>
          match (if 0 <? workers then SetWorkers (Some hls) workers
                 else Ok hls) with
          | Ok hls =>
              '(r, fs) ← Download lib (Some hls) env fs;
              match r with
              | Ok _ => Some (Ok None, fs)
              | Err e => Some (Ok (Some ("Error downloading file: " +:+ e)), fs)
              | Panic e => Some (Panic e, fs)
              end
          | Err e => Some (Ok (Some ("Error setting workers: " +:+ e)), fs)
          | Panic e => Some (Panic e, fs)
          end
      | Err e => Some (Ok (Some ("Error creating hlsDownloader: " +:+ e)), fs)
      | Panic e => Some (Panic e, fs)
      end
  | Some (Err e) => Some (Ok (Some ("Invalid arguments: " +:+ e)), fs)
  | Some (Panic e) => Some (Panic e, fs)
  end.

(** * Properties *)

(** ** Bytes and big-endian numbers *)

Lemma uint8_to_N (n : N) : Byte.to_N (uint8 n) = (n mod 256)%N.
Proof.
  unfold uint8. destruct (Byte.of_N (n mod 256)%N) as [b|] eqn:E; simpl.
  - by apply Byte.to_of_N.
  - apply Byte.of_N_None_iff in E.
    pose proof (N.mod_upper_bound n 256). lia.
Qed.

Lemma int_of_byte_range (b : byte) : 0 ≤ int_of_byte b ≤ 255.
Proof. unfold int_of_byte. pose proof (Byte.to_N_bounded b). lia. Qed.

Example syncByte_value : syncByte = "G"%byte ∧ int_of_byte syncByte = 0x47.
Proof. by vm_compute. Qed.

Lemma mod_split_byte (a m : N) :
  (a mod (256 * m) = (a / 256) mod m * 256 + a mod 256)%N.
Proof. rewrite N.Div0.mod_mul_r. lia. Qed.

Lemma shiftr_byte (v k : N) :
  (N.shiftr v (k + 8) = N.shiftr v k / 256)%N.
Proof.
  rewrite !N.shiftr_div_pow2, N.pow_add_r, <- N.Div0.div_div. reflexivity.
Qed.

Lemma bigEndian_roundtrip (v : N) :
  bigEndian_Uint64 (bigEndian_bytes v) = (v mod 2 ^ 64)%N.
Proof.
  unfold bigEndian_Uint64, bigEndian_bytes.
  cbn [foldl]. rewrite !uint8_to_N.
  change 56%N with (48 + 8)%N. rewrite (shiftr_byte v 48).
  change 48%N with (40 + 8)%N at 1 2. rewrite (shiftr_byte v 40).
  change 40%N with (32 + 8)%N at 1 2 3. rewrite (shiftr_byte v 32).
  change 32%N with (24 + 8)%N at 1 2 3 4. rewrite (shiftr_byte v 24).
  change 24%N with (16 + 8)%N at 1 2 3 4 5. rewrite (shiftr_byte v 16).
  change 16%N with (8 + 8)%N at 1 2 3 4 5 6. rewrite (shiftr_byte v 8).
  change 8%N with (0 + 8)%N at 1 2 3 4 5 6 7. rewrite (shiftr_byte v 0).
  rewrite N.shiftr_0_r.
  change (2 ^ 64)%N with (256 * (256 * (256 * (256 * (256 * (256 * (256 * 256)))))))%N.
  rewrite !mod_split_byte. rewrite !N.mul_0_l, !N.add_0_l. reflexivity.
Qed.

(** ** Padding removal *)

Lemma last_is_Some {A} (l : list A) : l ≠ [] → is_Some (last l).
Proof.
  destruct l as [|x l] using rev_ind; [done|].
  intros _. rewrite last_snoc. by eexists.
Qed.

(** C5. For a non-empty buffer whose last byte has the integer value [n],
    with [n] at most the length of the buffer, [pkcs5UnPadding] returns the
    buffer without its last [n] bytes: the buffer is the result followed by
    exactly [n] removed bytes. *)
Theorem pkcs5UnPadding_removes_last_n (origData : list byte) (b : byte) (n : Z) :
  last origData = Some b →
  n = int_of_byte b →
  n ≤ Z.of_nat (length origData) →
  ∃ kept removed : list byte,
    pkcs5UnPadding origData = Ok kept ∧
    origData = kept ++ removed ∧
    Z.of_nat (length removed) = n.
Proof.
  intros Hlast -> Hn.
  pose proof (int_of_byte_range b) as Hb.
  set (k := Z.to_nat (Z.of_nat (length origData) - int_of_byte b)).
  exists (take k origData), (drop k origData).
  split; [|split].
  - unfold pkcs5UnPadding. rewrite Hlast.
    destruct (Z.ltb_spec (Z.of_nat (length origData) - int_of_byte b) 0); [lia|done].
  - by rewrite take_drop.
  - rewrite length_drop. unfold k. lia.
Qed.

Lemma pkcs5UnPadding_witness :
  ∃ kept removed : list byte,
    pkcs5UnPadding ["a"; "b"; "c"; x02; x02]%byte = Ok kept ∧
    ["a"; "b"; "c"; x02; x02]%byte = kept ++ removed ∧
    Z.of_nat (length removed) = 2.
Proof.
  apply (pkcs5UnPadding_removes_last_n ["a"; "b"; "c"; x02; x02]%byte x02 2).
  - reflexivity.
  - reflexivity.
  - simpl. lia.
Defined.

Example pkcs5UnPadding_run :
  pkcs5UnPadding ["a"; "b"; "c"; x02; x02]%byte = Ok ["a"; "b"; "c"]%byte.
Proof. reflexivity. Qed.

(** C9. [pkcs5UnPadding] is partial.  It panics exactly on the empty buffer
    and on a buffer whose last byte has a value above the length of the
    buffer; on every other buffer it returns, and it never reports an
    error.  The caller has to rule the two cases out. *)
Theorem pkcs5UnPadding_partial (origData : list byte) :
  ((∃ msg, pkcs5UnPadding origData = Panic msg) ↔
     origData = [] ∨
     ∃ b, last origData = Some b ∧ Z.of_nat (length origData) < int_of_byte b) ∧
  ((∃ d, pkcs5UnPadding origData = Ok d) ↔
     ∃ b, last origData = Some b ∧ int_of_byte b ≤ Z.of_nat (length origData)) ∧
  (∀ msg, pkcs5UnPadding origData ≠ Err msg).
Proof.
  unfold pkcs5UnPadding.
  destruct (last origData) as [b|] eqn:Hlast.
  - assert (origData ≠ []) as Hne by (intros ->; done).
    destruct (Z.ltb_spec (Z.of_nat (length origData) - int_of_byte b) 0) as [Hlt|Hge].
    + split; [|split].
      * split; [|by eauto]. intros _. right. exists b. split; [done|lia].
      * split; [intros [d Hd]; done|]. intros (b' & [= <-] & Hle). lia.
      * done.
    + split; [|split].
      * split; [intros [msg Hm]; done|].
        intros [->|(b' & [= <-] & Hlt)]; [done|lia].
      * split; [|by eauto]. intros _. exists b. split; [done|lia].
      * done.
  - assert (origData = []) as ->.
    { destruct origData as [|x l]; [done|].
      destruct (last_is_Some (x :: l)) as [y Hy]; [done|]. congruence. }
    split; [|split].
    + split; [by left|by eauto].
    + split; [intros [d Hd]; done|]. intros (b & Hb & _). done.
    + done.
Qed.

Example pkcs5UnPadding_empty :
  pkcs5UnPadding [] = Panic "index out of range [-1]".
Proof. reflexivity. Qed.

Example pkcs5UnPadding_overlong :
  pkcs5UnPadding ["a"; x03]%byte = Panic "slice bounds out of range".
Proof. reflexivity. Qed.

Lemma decryptAES128_empty_panics lib (key iv : list byte) :
  (∀ k v d, length (cbc_decrypt lib k v d) = length d) →
  (length key = 16)%nat → (16 ≤ length iv)%nat →
  ∃ msg, decryptAES128 lib [] key iv = Panic msg.
Proof.
  intros Hlen Hkey Hiv. unfold decryptAES128.
  rewrite bool_decide_true by auto. simpl.
  rewrite bool_decide_false by lia. simpl.
  specialize (Hlen key (take 16 iv) []).
  destruct (cbc_decrypt lib key (take 16 iv) []); [|done].
  by eexists.
Qed.

(** ** The scan for the sync byte *)

Lemma sync_scan_None (data : list byte) :
  sync_scan data = None ↔ syncByte ∉ data.
Proof.
  induction data as [|b data IH]; simpl.
  - split; [intros _; apply not_elem_of_nil|done].
  - case_decide as Hb.
    + split; [done|]. intros Hn. exfalso. apply Hn. subst. by left.
    + rewrite IH, not_elem_of_cons. split; [by intros ?; split|by intros [_ ?]].
Qed.

Lemma sync_scan_Some (data d : list byte) :
  sync_scan data = Some d →
  ∃ skipped, data = skipped ++ d ∧ (syncByte ∉ skipped) ∧ head d = Some syncByte.
Proof.
  revert d. induction data as [|b data IH]; intros d; simpl; [done|].
  case_decide as Hb.
  - intros [= <-]. exists []. subst. split; [done|]. split; [apply not_elem_of_nil|done].
  - intros Hd. destruct (IH d Hd) as (skipped & -> & Hs & Hh).
    exists (b :: skipped). split; [done|]. split; [|done].
    rewrite not_elem_of_cons. split; [congruence|done].
Qed.

Lemma trimSync_absent (data : list byte) : syncByte ∉ data → trimSync data = data.
Proof. intros H. unfold trimSync. by rewrite (proj2 (sync_scan_None data) H). Qed.

Lemma trimSync_changed (data : list byte) : trimSync data ≠ data → syncByte ∈ data.
Proof.
  intros H. destruct (decide (syncByte ∈ data)) as [|Hn]; [done|].
  by rewrite trimSync_absent in H.
Qed.

Lemma trimSync_spec (data : list byte) :
  ∃ skipped, data = skipped ++ trimSync data ∧ (syncByte ∉ skipped).
Proof.
  unfold trimSync. destruct (sync_scan data) as [d|] eqn:E; simpl.
  - destruct (sync_scan_Some _ _ E) as (sk & ? & ? & _). by exists sk.
  - exists []. split; [done|apply not_elem_of_nil].
Qed.

Lemma decrypt_unfold lib seg c net fs raw :
  os_ReadFile (path seg) fs = Ok raw →
  decrypt lib seg c net fs = payload lib seg c net raw.
Proof. intros H. unfold decrypt. by rewrite H. Qed.

(** C10. When the sync byte 0x47 does not occur in the payload (the staged
    bytes of a clear segment, the padding-free plaintext of an encrypted
    one), [decrypt] returns the payload as it is: not emptied, not an error.
    The result differs from the payload only when some byte of the payload
    is 0x47. *)
Theorem decrypt_keeps_payload_without_sync lib seg c net fs (raw data : list byte) :
  os_ReadFile (path seg) fs = Ok raw →
  cleartext lib seg c net raw = Ok data →
  (syncByte ∉ data → decrypt lib seg c net fs = Ok data) ∧
  (∀ out, decrypt lib seg c net fs = Ok out → out ≠ data → syncByte ∈ data).
Proof.
  intros Hread Hclear.
  rewrite (decrypt_unfold _ _ _ _ _ _ Hread).
  unfold payload. rewrite Hclear. simpl. split.
  - intros Hn. by rewrite trimSync_absent.
  - intros out [= <-]. apply trimSync_changed.
Qed.

Lemma decrypt_keeps_payload_without_sync_witness :
  let seg := Samples.clear_seg 0 in
  let fs := Samples.staged [(path seg, [x00; x01]%byte)] in
  (syncByte ∉ [x00; x01]%byte →
   decrypt Samples.lib seg (Client 1) Samples.net_key fs = Ok [x00; x01]%byte) ∧
  (∀ out, decrypt Samples.lib seg (Client 1) Samples.net_key fs = Ok out →
          out ≠ [x00; x01]%byte → syncByte ∈ [x00; x01]%byte).
Proof.
  apply (decrypt_keeps_payload_without_sync Samples.lib (Samples.clear_seg 0)
           (Client 1) Samples.net_key _ [x00; x01]%byte [x00; x01]%byte).
  - reflexivity.
  - reflexivity.
Defined.

Example decrypt_trims_leading_bytes :
  let seg := Samples.clear_seg 0 in
  let fs := Samples.staged [(path seg, [x00; "G"; x01; "G"]%byte)] in
  decrypt Samples.lib seg (Client 1) Samples.net_key fs = Ok ["G"; x01; "G"]%byte.
Proof. reflexivity. Qed.

(** ** Initialization vectors *)

Lemma defaultIV_layout (seqID : N) :
  defaultIV seqID = replicate 8 x00 ++ bigEndian_bytes seqID.
Proof. reflexivity. Qed.

Lemma defaultIV_length (seqID : N) : length (defaultIV seqID) = 16%nat.
Proof. reflexivity. Qed.



(** With a 16-byte IV, a key of a valid size and whole blocks, the cipher is
    run with the IV as it is. *)
Lemma decryptAES128_uses_iv lib (crypted key iv : list byte) :
  length iv = 16%nat →
  (length key = 16 ∨ length key = 24 ∨ length key = 32)%nat →
  (length crypted `mod` 16 = 0)%nat →
  decryptAES128 lib crypted key iv
  = pkcs5UnPadding (cbc_decrypt lib key iv crypted).
Proof.
  intros Hiv Hkey Hblocks. unfold decryptAES128.
  rewrite bool_decide_true by done. simpl.
  rewrite bool_decide_false by lia.
  rewrite bool_decide_true by done. simpl.
  by rewrite take_ge by lia.
Qed.



Example defaultIV_258 :
  defaultIV 258 =
    [x00; x00; x00; x00; x00; x00; x00; x00;
     x00; x00; x00; x00; x00; x00; x01; x02]%byte.
Proof. reflexivity. Qed.

Example getKey_explicit_iv :
  getKey Samples.lib (Samples.keyed_seg 7 "0123456789abcdef") (Client 1)
    Samples.net_key
  = Ok (Samples.key16, String.list_byte_of_string "0123456789abcdef").
Proof. reflexivity. Qed.

(** ** Strings and paths *)

#[local] Arguments String.append !s1 s2 : simpl nomatch.

Lemma append_assoc (a b c : string) : (a +:+ b) +:+ c = a +:+ (b +:+ c).
Proof. induction a as [|x a IH]; [done|]. simpl. by f_equal. Qed.

Lemma prefix_spec (a s : string) :
  String.prefix a s = true ↔ ∃ r, s = a +:+ r.
Proof.
  revert s. induction a as [|x a IH]; intros s.
  - split; [intros _; by exists s|by destruct s].
  - destruct s as [|y s]; simpl.
    + split; [done|]. intros [r Hr]. done.
    + destruct (Ascii.ascii_dec x y) as [->|Hne].
      * rewrite IH. split; intros [r Hr]; exists r; [by rewrite Hr|by injection Hr].
      * split; [done|]. intros [r [= ? _]]. done.
Qed.

(** A string without a dot: no way to split it around one. *)
Lemma dotless_cons (c : Ascii.ascii) (s : string) :
  c ≠ "."%char →
  (∀ a b, s ≠ a +:+ String "." b) →
  ∀ a b, String c s ≠ a +:+ String "." b.
Proof.
  intros Hc Hs [|x a] b; simpl; intros [= ? ?]; [done|]. by eapply Hs.
Qed.

Lemma pretty_N_go_dotless (x : N) (s : string) :
  (∀ a b, s ≠ a +:+ String "." b) →
  ∀ a b, pretty_N_go x s ≠ a +:+ String "." b.
Proof.
  revert s. induction (N.lt_wf_0 x) as [x _ IH]; intros s Hs.
  assert (x = 0 ∨ 0 < x)%N as [->|Hpos] by lia.
  - by rewrite pretty_N_go_0.
  - rewrite pretty_N_go_step by done. apply IH.
    + by apply N.div_lt.
    + apply dotless_cons; [|done].
      unfold pretty_N_char. by repeat case_match.
Qed.

Lemma pretty_N_dotless (n : N) (a b : string) : pretty n ≠ a +:+ String "." b.
Proof.
  unfold pretty, pretty_N. case_decide.
  - destruct a as [|x [|y a]]; simpl; done.
  - apply pretty_N_go_dotless. intros [|x a'] b'; done.
Qed.

Lemma dotless_split (A B x y : string) :
  (∀ a b, A ≠ a +:+ String "." b) →
  (∀ a b, B ≠ a +:+ String "." b) →
  A +:+ String "." x = B +:+ String "." y → A = B ∧ x = y.
Proof.
  revert B. induction A as [|c A IH]; intros [|c' B] HA HB; simpl.
  - by intros [= ->].
  - intros [= <- _]. by destruct (HB "" B).
  - intros [= -> _]. by destruct (HA "" A).
  - intros [= <- Heq]. destruct (IH B) as [-> ->]; [| |done|done].
    + intros a b ->. by apply (HA (String c a) b).
    + intros a b ->. by apply (HB (String c a) b).
Qed.

Section StagingPaths.
Context (h : hlsDownloader) (Htmp : tmpDir h ≠ "").

Lemma staging_path_unfold (n : N) :
  staging_path h n = tmpDir h +:+ "/seg" +:+ pretty n +:+ ".ts".
Proof.
  unfold staging_path, filepath_Join. by rewrite bool_decide_false.
Qed.

Lemma staging_path_inj (n m : N) : staging_path h n = staging_path h m → n = m.
Proof.
  rewrite !staging_path_unfold. intros Heq.
  apply (inj (String.append (tmpDir h))) in Heq.
  apply (inj (String.append "/seg")) in Heq.
  apply dotless_split in Heq as [Heq _]; [|apply pretty_N_dotless..].
  by apply (inj pretty).
Qed.

(** Staging files do not lie within one another. *)
Lemma staging_path_within (n m : N) :
  within (staging_path h n) (staging_path h m) = true → n = m.
Proof.
  unfold within. intros [Heq|Hpre]%orb_true_iff.
  - apply bool_decide_eq_true in Heq. by apply staging_path_inj.
  - apply prefix_spec in Hpre as [r Hr]. exfalso.
    rewrite !staging_path_unfold in Hr.
    rewrite !append_assoc in Hr.
    apply (inj (String.append (tmpDir h))) in Hr.
    apply (inj (String.append "/seg")) in Hr.
    apply dotless_split in Hr as [_ Hr]; [|apply pretty_N_dotless..].
    done.
Qed.

(** A path outside the staging directory is outside every staging file. *)
Lemma staging_path_outside (n : N) (p : string) :
  within (tmpDir h) p = false → within (staging_path h n) p = false.
Proof.
  intros Hout. apply not_true_is_false. intros Hin. 
  apply not_true_iff_false in Hout. apply Hout.
  unfold within in *. apply orb_true_iff. right.
  apply prefix_spec.
  apply orb_true_iff in Hin as [Heq|Hpre].
  - apply bool_decide_eq_true in Heq. subst p.
    rewrite staging_path_unfold.
    exists ("seg" +:+ pretty n +:+ ".ts"). by rewrite !append_assoc.
  - apply prefix_spec in Hpre as [r ->].
    rewrite staging_path_unfold.
    exists ("seg" +:+ pretty n +:+ ".ts" +:+ "/" +:+ r). by rewrite !append_assoc.
Qed.
End StagingPaths.

(** ** The file system *)

Lemma within_refl (p : string) : within p p = true.
Proof. unfold within. by rewrite bool_decide_true. Qed.

Lemma file_Write_lookup (p : string) (d : list byte) (fs : filesystem) :
  files (file_Write p d fs) !! p = (λ old, old ++ d) <$> files fs !! p.
Proof. simpl. apply lookup_alter_eq. Qed.

Lemma file_Write_lookup_ne (p q : string) (d : list byte) (fs : filesystem) :
  p ≠ q → files (file_Write p d fs) !! q = files fs !! q.
Proof. intros. simpl. by apply lookup_alter_ne. Qed.

Lemma os_RemoveAll_lookup_outside (p q : string) (fs : filesystem) :
  within p q = false → files (os_RemoveAll p fs) !! q = files fs !! q.
Proof.
  intros Hout. unfold os_RemoveAll. case_bool_decide; [done|]. simpl.
  destruct (files fs !! q) as [x|] eqn:Hq.
  - by apply map_lookup_filter_Some.
  - apply map_lookup_filter_None. by left.
Qed.

Lemma os_RemoveAll_lookup_within (p q : string) (fs : filesystem) :
  p ≠ "" → within p q = true → files (os_RemoveAll p fs) !! q = None.
Proof.
  intros Hp Hin. unfold os_RemoveAll. rewrite bool_decide_false by done. simpl.
  apply map_lookup_filter_None. right. intros x _. simpl. by rewrite Hin.
Qed.

Lemma os_RemoveAll_dirs_within (p q : string) (fs : filesystem) :
  p ≠ "" → within p q = true → q ∉ dirs (os_RemoveAll p fs).
Proof.
  intros Hp Hin. unfold os_RemoveAll. rewrite bool_decide_false by done. simpl.
  rewrite elem_of_filter. intros [Hq _]. by rewrite Hin in Hq.
Qed.

Lemma os_Create_Ok (p : string) (fs fs' : filesystem) :
  os_Create p fs = (Ok (), fs') →
  fs' = {| dirs := dirs fs; files := <[p := []]> (files fs) |}.
Proof.
  unfold os_Create. repeat case_bool_decide; intros [= <-]; done.
Qed.

(** ** Sorting by sequence number *)

#[global] Instance seq_le_total : Total seq_le.
Proof. intros a b. unfold seq_le. lia. Qed.

#[global] Instance seq_le_trans : Transitive seq_le.
Proof. intros a b c. unfold seq_le. lia. Qed.

Lemma SeqId_inj_on (l : list segment) (a b : segment) :
  NoDup (SeqId <$> l) → a ∈ l → b ∈ l → SeqId a = SeqId b → a = b.
Proof.
  induction l as [|x l IH]; simpl; [by intros _ ?%elem_of_nil|].
  intros [Hx Hl]%NoDup_cons [->|Ha]%elem_of_cons [->|Hb]%elem_of_cons Heq.
  - done.
  - exfalso. apply Hx. rewrite Heq. by apply list_elem_of_fmap_2.
  - exfalso. apply Hx. rewrite <- Heq. by apply list_elem_of_fmap_2.
  - by apply IH.
Qed.

(** For distinct sequence numbers there is one ordering that [sort.Slice]
    can produce: every ordered arrangement of the slice is [sort_Slice]. *)
Lemma sort_Slice_unique (segs sorted : list segment) :
  NoDup (SeqId <$> segs) →
  sorted ≡ₚ segs → Sorted seq_le sorted → sorted = sort_Slice segs.
Proof.
  intros Hnd Hperm Hsorted.
  apply (Sorted_unique_strong seq_le); [|done|apply Sorted_merge_sort, _|].
  - intros a b Ha Hb Hab Hba. apply (SeqId_inj_on segs); [done|..].
    + by rewrite <- Hperm.
    + unfold sort_Slice in Hb. by rewrite merge_sort_Permutation in Hb.
    + unfold seq_le in *. lia.
  - unfold sort_Slice. by rewrite merge_sort_Permutation.
Qed.

Lemma sort_Slice_Permutation_eq (segs segs' : list segment) :
  NoDup (SeqId <$> segs) → segs' ≡ₚ segs → sort_Slice segs' = sort_Slice segs.
Proof.
  intros Hnd Hperm. apply sort_Slice_unique; [done| |apply Sorted_merge_sort, _].
  unfold sort_Slice. by rewrite merge_sort_Permutation.
Qed.

Lemma sort_Slice_strictly_ascending (segs : list segment) :
  NoDup (SeqId <$> segs) →
  StronglySorted (λ a b, SeqId a < SeqId b)%N (sort_Slice segs).
Proof.
  intros Hnd.
  assert (NoDup (SeqId <$> sort_Slice segs)) as Hnd'.
  { unfold sort_Slice. by rewrite merge_sort_Permutation. }
  assert (StronglySorted seq_le (sort_Slice segs)) as Hs.
  { apply StronglySorted_merge_sort; apply _. }
  induction Hs as [|x l Hs IH Hx]; [constructor|].
  simpl in Hnd'. apply NoDup_cons in Hnd' as [Hx' Hl].
  constructor; [by apply IH|].
  rewrite Forall_forall in Hx. apply Forall_forall. intros y Hy.
  specialize (Hx y Hy). unfold seq_le in Hx.
  assert (SeqId x ≠ SeqId y); [|lia].
  intros Heq. apply Hx'. rewrite Heq. by apply list_elem_of_fmap_2.
Qed.

(** ** The joiner *)

Lemma Forall2_impl_elem {A B} (P Q : A → B → Prop) (l : list A) (k : list B) :
  Forall2 P l k → (∀ a b, a ∈ l → P a b → Q a b) → Forall2 Q l k.
Proof.
  induction 1 as [|a b l k Hab _ IH]; intros Himp; constructor.
  - apply Himp; [by left|done].
  - apply IH. intros a' b' Ha'. apply Himp. by right.
Qed.

Section Join.
Context (lib : externals) (h : hlsDownloader) (net : transport).

(** The loop over segments whose staging files are in place and do not
    lie within one another: every payload is appended to the output. *)
Lemma join_loop_appends (l : list segment) (ps : list (list byte))
    (fs : filesystem) (acc : list byte) :
  StronglySorted (λ a b, within (path a) (path b) = false) l →
  Forall (λ a, within (path a) (output h) = false) l →
  Forall2 (λ a p, ∃ raw, files fs !! path a = Some raw ∧
                         payload lib a (client h) net raw = Ok p) l ps →
  files fs !! output h = Some acc →
  ∃ fs', join_loop lib h net l fs = (Ok (), fs') ∧
         files fs' !! output h = Some (acc ++ concat ps).
Proof.
  intros Hsep Hout Hpay. revert ps fs acc Hout Hpay.
  induction Hsep as [|a l Hsep IH Ha]; intros ps fs acc Hout Hpay Hacc.
  - apply Forall2_nil_inv_l in Hpay as ->. exists fs. simpl.
    by rewrite app_nil_r.
  - apply Forall2_cons_inv_l in Hpay as (p & ps' & (raw & Hraw & Hp) & Hpay & ->).
    apply Forall_cons in Hout as [Hout_a Hout].
    assert (path a ≠ output h) as Hne.
    { intros Heq. rewrite Heq, within_refl in Hout_a. done. }
    simpl. unfold decrypt, os_ReadFile. rewrite Hraw. simpl. rewrite Hp.
    set (fs1 := os_RemoveAll (path a) (file_Write (output h) p fs)).
    destruct (IH ps' fs1 (acc ++ p) Hout) as (fs' & Hrun & Hfs').
    + rewrite Forall_forall in Ha.
      eapply Forall2_impl_elem; [exact Hpay|].
      intros b q Hb (raw' & Hraw' & Hq). exists raw'. split; [|done].
      unfold fs1. rewrite os_RemoveAll_lookup_outside by (by apply Ha).
      rewrite file_Write_lookup_ne; [done|].
      rewrite Forall_forall in Hout. specialize (Hout b Hb).
      intros Heq. rewrite <- Heq, within_refl in Hout. done.
    + unfold fs1. rewrite os_RemoveAll_lookup_outside by done.
      by rewrite file_Write_lookup, Hacc.
    + exists fs'. split; [done|]. by rewrite Hfs', <- app_assoc.
Qed.
End Join.


Lemma StronglySorted_impl_elem {A} (R R' : relation A) (l : list A) :
  StronglySorted R l →
  (∀ a b, a ∈ l → b ∈ l → R a b → R' a b) →
  StronglySorted R' l.
Proof.
  induction 1 as [|a l Hl IH Ha]; intros Himp; constructor.
  - apply IH. intros x y Hx Hy. apply Himp; by right.
  - rewrite Forall_forall in Ha. apply Forall_forall. intros b Hb.
    apply Himp; [by left|by right|by apply Ha].
Qed.



Example join_sample_output :
  let '(r, fs') :=
    join Samples.lib Samples.dl Samples.net_key JoinSample.downloads.*1
         JoinSample.fs in
  r = Ok "/out/video.ts" ∧
  files fs' !! "/out/video.ts" = Some ["G"; "a"; "G"; "b"; "G"; "G"; "c"]%byte.
Proof. vm_compute. split; reflexivity. Qed.

Example join_sample_reordered :
  join Samples.lib Samples.dl Samples.net_key
       (reverse JoinSample.downloads.*1) JoinSample.fs
  = join Samples.lib Samples.dl Samples.net_key JoinSample.downloads.*1
         JoinSample.fs.
Proof. vm_compute. reflexivity. Qed.

(** ** One worker *)

Lemma worker_run_app (pc : worker_pc) (os1 os2 : list worker_obs) :
  worker_run pc (os1 ++ os2) = worker_run pc os1 ≫= λ pc', worker_run pc' os2.
Proof.
  revert pc. induction os1 as [|o os1 IH]; intros pc; simpl; [done|].
  destruct (worker_step pc o) as [pc'|]; simpl; [apply IH|done].
Qed.

Lemma worker_run_snoc (pc pc' : worker_pc) (os : list worker_obs) (o : worker_obs) :
  worker_run pc (os ++ [o]) = Some pc' →
  ∃ pc1, worker_run pc os = Some pc1 ∧ worker_step pc1 o = Some pc'.
Proof.
  rewrite worker_run_app. destruct (worker_run pc os) as [pc1|]; [|done].
  simpl. destruct (worker_step pc1 o) as [pc2|] eqn:E; [|done].
  intros [= <-]. by exists pc1.
Qed.

Lemma worker_run_Some_prefix (pc pc' : worker_pc) (os1 os2 : list worker_obs) :
  worker_run pc (os1 ++ os2) = Some pc' →
  ∃ pc1, worker_run pc os1 = Some pc1 ∧ worker_run pc1 os2 = Some pc'.
Proof.
  rewrite worker_run_app. destruct (worker_run pc os1) as [pc1|]; [|done].
  simpl. intros. by exists pc1.
Qed.

Lemma worker_run_WDone (os : list worker_obs) (pc' : worker_pc) :
  worker_run WDone os = Some pc' → os = [].
Proof. destruct os as [|o os]; [done|]. by destruct o. Qed.

Lemma worker_run_WClose_no_report (os : list worker_obs) (r : downloadResult) :
  worker_run WClose (os ++ [Reported r]) = None.
Proof.
  destruct os as [|o os]; [done|].
  destruct o; try done. simpl.
  destruct (worker_run WDone (os ++ [Reported r])) as [pc'|] eqn:E; [|done].
  apply worker_run_WDone in E. by destruct os.
Qed.

Lemma worker_run_WSend (r0 r : downloadResult) (os : list worker_obs)
    (pc' : worker_pc) :
  Forall (λ o, is_Reported o = false) os →
  worker_run (WSend r0) (os ++ [Reported r]) = Some pc' →
  os = [] ∧ err r = err r0 ∧ seqId r = seqId r0 ∧ pc' = WRecv.
Proof.
  intros Hnr Hrun. destruct os as [|o os].
  - simpl in Hrun. case_bool_decide as Hr; [|done].
    destruct Hr as [Hr1 Hr2]. by simplify_eq/=.
  - apply Forall_cons in Hnr as [Ho _]. by destruct o.
Qed.

(** An item in progress, with [n] retries left in the budget. *)
Lemma retry_shape (seg : segment) (n : nat) (attempts : Z)
    (os : list worker_obs) (r : downloadResult) (pc' : worker_pc) :
  (attempts = maxAttempts - Z.of_nat n) → (n ≤ 3)%nat →
  Forall (λ o, is_Reported o = false) os →
  worker_run (WCheck seg attempts) (os ++ [Reported r]) = Some pc' →
  ∃ (es : list string) (final : option string),
    os = concat (retry_round <$> es) ++ [Polled false; Attempted final] ∧
    (length es ≤ n)%nat ∧
    Forall (λ e, connection_reset e = true) es ∧
    seqId r = SeqId seg ∧ err r = final ∧ pc' = WRecv ∧
    (∀ e, final = Some e → connection_reset e = false ∨ length es = n).
Proof.
  revert attempts os.
  induction n as [|n IH]; intros attempts os Hatt Hn Hnr Hrun.
  all: destruct os as [|o os]; [done|].
  all: destruct o as [| |b| | | |]; try done.
  all: destruct b; simpl in Hrun;
    [by rewrite (worker_run_WClose_no_report os r) in Hrun|].
  all: apply Forall_cons in Hnr as [_ Hnr].
  all: destruct os as [|o os]; [done|].
  all: destruct o as [| | |o| | |]; try done.
  all: apply Forall_cons in Hnr as [_ Hnr].
  all: destruct o as [e|]; simpl in Hrun.
  - (* the budget is spent: this failure is final *)
    assert ((attempts <? maxAttempts) = false) as Hlt by (apply Z.ltb_ge; lia).
    rewrite Hlt, andb_false_r in Hrun.
    apply worker_run_WSend in Hrun; [|done].
    destruct Hrun as (-> & Hr1 & Hr2 & ->).
    exists [], (Some e). simpl in *. repeat split; auto.
  - apply worker_run_WSend in Hrun; [|done].
    destruct Hrun as (-> & Hr1 & Hr2 & ->).
    exists [], None. simpl in *. repeat split; auto; try lia; by intros e [=].
  - destruct (strings_Contains e "connection reset by peer" && (attempts <? maxAttempts))
      eqn:Hretry.
    + (* retried: sleep, then the same item with one attempt more *)
      apply andb_true_iff in Hretry as [Hreset _].
      destruct os as [|o os]; [done|].
      destruct o as [| | | |d| |]; try done. simpl in Hrun.
      destruct (Z.eqb_spec d time_Second) as [->|]; [|done].
      apply Forall_cons in Hnr as [_ Hnr].
      destruct (IH (attempts + 1) os)
        as (es & final & -> & Hlen & Hes & ? & ? & ? & Hfin); [lia|lia|done|done|].
      exists (e :: es), final. simpl. repeat split; auto; [lia|].
      intros e' He'. destruct (Hfin e' He') as [?|?]; [by left|right; lia].
    + apply worker_run_WSend in Hrun; [|done].
    destruct Hrun as (-> & Hr1 & Hr2 & ->).
      exists [], (Some e). simpl in *. repeat split; auto; [lia|].
      intros e' [= <-]. left.
      apply andb_false_iff in Hretry as [?|Hlt]; [done|].
      apply Z.ltb_ge in Hlt. unfold maxAttempts in *. lia.
  - apply worker_run_WSend in Hrun; [|done].
    destruct Hrun as (-> & Hr1 & Hr2 & ->).
    exists [], None. simpl in *. repeat split; auto; try lia; by intros e [=].
Qed.

(** What is left of the retry budget at each point of [downloadSegments]. *)
Lemma sleeps_within_budget (pc pc' : worker_pc) (os : list worker_obs) :
  worker_run pc os = Some pc' →
  Forall (λ o, is_Took o = false) os →
  match pc with
  | WCheck _ a | WDownload _ a => 0 ≤ a ≤ maxAttempts → Z.of_nat (sleeps os) ≤ maxAttempts - a
  | WSleep _ a => 1 ≤ a ≤ maxAttempts → Z.of_nat (sleeps os) ≤ maxAttempts - a + 1
  | _ => sleeps os = 0%nat
  end.
Proof.
  revert pc. induction os as [|o os IH]; intros pc Hrun Hnt.
  - unfold sleeps. simpl. destruct pc; unfold maxAttempts; lia.
  - apply Forall_cons in Hnt as [Ho Hnt]. simpl in Hrun.
    destruct (worker_step pc o) as [pc1|] eqn:Hstep; [|done]. simpl in Hrun.
    specialize (IH pc1 Hrun Hnt).
    assert (sleeps (o :: os) = ((if is_Slept o then 1 else 0) + sleeps os)%nat)
      as ->.
    { unfold sleeps. rewrite filter_cons. by destruct o. }
    destruct pc, o; simpl in Hstep; try done;
      repeat case_match; simplify_eq; simpl in *;
      unfold maxAttempts in *; try lia.
Qed.

(** A failure that is not a connection reset goes straight to the report. *)
Lemma failure_reported_at_once (pc pc' : worker_pc)
    (pre post : list worker_obs) (e : string) :
  worker_run pc (pre ++ Attempted (Some e) :: post) = Some pc' →
  connection_reset e = false →
  post = [] ∨
  ∃ r post', post = Reported r :: post' ∧ err r = Some e.
Proof.
  intros Hrun He. apply worker_run_Some_prefix in Hrun as (pc1 & _ & Hpost).
  simpl in Hpost. destruct pc1 as [| |seg a| | | |]; try done. simpl in Hpost.
  unfold connection_reset in He. rewrite He in Hpost. simpl in Hpost.
  destruct post as [|o post]; [by left|]. right.
  destruct o as [| | | | |r|]; try done. simpl in Hpost.
  case_bool_decide as Hr; [|done]. destruct Hr as [Hr _]. simpl in Hr.
  by exists r, post.
Qed.

(** Conversely, every sequence of that shape is a run of the worker. *)
Lemma retry_shape_complete (seg : segment) (es : list string)
    (final : option string) (attempts : Z) :
  Forall (λ e, connection_reset e = true) es →
  0 ≤ attempts → attempts + Z.of_nat (length es) ≤ maxAttempts →
  (∀ e, final = Some e →
        connection_reset e = false ∨ attempts + Z.of_nat (length es) = maxAttempts) →
  worker_run (WCheck seg attempts)
    (concat (retry_round <$> es)
     ++ [Polled false; Attempted final;
         Reported {| err := final; seqId := SeqId seg; totalSegments := 0 |}])
  = Some WRecv.
Proof.
  revert attempts. induction es as [|e es IH]; intros attempts Hes Ha Hlen Hfin.
  - simpl in *. destruct final as [e|]; simpl.
    + destruct (Hfin e eq_refl) as [He|Hmax].
      * unfold connection_reset in He. rewrite He. simpl.
        by rewrite bool_decide_true.
      * assert ((attempts <? maxAttempts) = false) as -> by (apply Z.ltb_ge; lia).
        rewrite andb_false_r. simpl. by rewrite bool_decide_true.
    + by rewrite bool_decide_true.
  - apply Forall_cons in Hes as [He Hes]. simpl in Hlen.
    unfold connection_reset in He.
    assert ((attempts <? maxAttempts) = true) as Hlt by (apply Z.ltb_lt; lia).
    simpl. rewrite He, Hlt. simpl.
    apply IH; [done|lia|lia|].
    intros e' He'. destruct (Hfin e' He') as [?|?]; [by left|right; simpl in *; lia].
Qed.

(** ** Workers inside the pipeline *)

Section PipelineFacts.
Context (lib : externals) (h : hlsDownloader).

Lemma pool_set_worker_eq (w : nat) (pc pc0 : worker_pc) (s : pipeline) :
  pool s !! w = Some pc0 → pool (set_worker w pc s) !! w = Some pc.
Proof.
  intros Hw. simpl. apply list_lookup_insert_eq. by eapply lookup_lt_Some.
Qed.

Lemma pool_set_worker_ne (w w' : nat) (pc : worker_pc) (s : pipeline) :
  w ≠ w' → pool (set_worker w pc s) !! w' = pool s !! w'.
Proof. intros. simpl. by apply list_lookup_insert_ne. Qed.

Lemma pool_feed (k : nat) (s : pipeline) : pool (feed h k s) = pool s.
Proof. unfold feed. by repeat case_match. Qed.

Lemma pool_receive (r : downloadResult) (s : pipeline) :
  pool (receive r s) = pool s.
Proof. unfold receive. by repeat case_match. Qed.

(** Every step moves a worker the way [downloadSegments] moves on what the
    worker meets in that step. *)
Lemma step_observed (l : label) (s s' : pipeline) (w : nat) (pc : worker_pc) :
  step lib h l s = Some s' →
  pool s !! w = Some pc →
  worker_run pc (observed lib h w l s) = pool s' !! w.
Proof.
  intros Hstep Hw. unfold step in Hstep. case_bool_decide; [|done].
  destruct l as [|w0|w0|w0|w0 net|w0 d|w0|w0| | |]; simpl in *.
  - destruct (feeder s); try done. injection Hstep as <-.
    by rewrite pool_feed.
  - destruct (feeder s) as [|k|]; try done.
    destruct (pool s !! w0) as [pc0|] eqn:Hw0; [|done]. simpl in Hstep.
    destruct (segments s !! k) as [seg|]; [|done]. simpl in Hstep.
    destruct (worker_step pc0 (Took seg)) as [pc'|] eqn:Hpc'; [|done].
    injection Hstep as <-.
    case_bool_decide as Heq.
    + subst w0. simplify_eq. simpl. rewrite Hpc'. simpl.
      symmetry. apply list_lookup_insert_eq. by eapply lookup_lt_Some.
    + simpl. by rewrite list_lookup_insert_ne.
  - destruct (feeder s); try done.
    destruct (pool s !! w0) as [pc0|] eqn:Hw0; [|done]. simpl in Hstep.
    destruct (worker_step pc0 QueueClosed) as [pc'|] eqn:Hpc'; [|done].
    injection Hstep as <-.
    case_bool_decide as Heq.
    + subst w0. simplify_eq. simpl. rewrite Hpc'. simpl.
      symmetry. apply list_lookup_insert_eq. by eapply lookup_lt_Some.
    + simpl. by rewrite list_lookup_insert_ne.
  - destruct (pool s !! w0) as [pc0|] eqn:Hw0; [|done]. simpl in Hstep.
    destruct (worker_step pc0 (Polled (abort s))) as [pc'|] eqn:Hpc'; [|done].
    injection Hstep as <-.
    case_bool_decide as Heq.
    + subst w0. simplify_eq. simpl. rewrite Hpc'. simpl.
      symmetry. apply list_lookup_insert_eq. by eapply lookup_lt_Some.
    + simpl. by rewrite list_lookup_insert_ne.
  - destruct (pool s !! w0) as [pc0|] eqn:Hw0; [|done]. simpl in Hstep.
    destruct pc0 as [| |seg att| | | |]; try done.
    destruct (downloadSegment lib h seg net (disk s)) as [e fs] eqn:Hdl.
    destruct (worker_step (WDownload seg att) (Attempted e)) as [pc'|] eqn:Hpc';
      [|done].
    injection Hstep as <-. rewrite Hw.
    destruct (decide (w0 = w)) as [->|Hne].
    + simplify_eq. rewrite bool_decide_true by done. rewrite Hdl.
      cbn [worker_run fst]. rewrite Hpc'. simpl.
      symmetry. apply list_lookup_insert_eq. by eapply lookup_lt_Some.
    + assert (worker_run pc
                match pc with
                | WDownload seg0 _ =>
                    if bool_decide (w0 = w)
                    then [Attempted (downloadSegment lib h seg0 net (disk s)).1]
                    else []
                | _ => []
                end = Some pc) as ->.
      { destruct pc; try done. by rewrite bool_decide_false. }
      simpl. by rewrite list_lookup_insert_ne.
  - destruct (pool s !! w0) as [pc0|] eqn:Hw0; [|done]. simpl in Hstep.
    destruct (worker_step pc0 (Slept d)) as [pc'|] eqn:Hpc'; [|done].
    injection Hstep as <-.
    case_bool_decide as Heq.
    + subst w0. simplify_eq. simpl. rewrite Hpc'. simpl.
      symmetry. apply list_lookup_insert_eq. by eapply lookup_lt_Some.
    + simpl. by rewrite list_lookup_insert_ne.
  - destruct (pool s !! w0) as [pc0|] eqn:Hw0; [|done]. simpl in Hstep.
    destruct pc0 as [| | | |r| |]; try done. rewrite Hw.
    destruct (results_closed s) eqn:Hrc.
    + injection Hstep as <-. simpl. rewrite andb_false_r.
      rewrite Hw. by destruct pc.
    + destruct (coordinator s); [|done].
      destruct (worker_step (WSend r) (Reported r)) as [pc'|] eqn:Hpc'; [|done].
      injection Hstep as <-.
      destruct (decide (w0 = w)) as [->|Hne].
      * simplify_eq. rewrite bool_decide_true by done. simpl.
        simpl in Hpc'. rewrite Hpc'.
        symmetry. apply list_lookup_insert_eq.
        rewrite pool_receive. by eapply lookup_lt_Some.
      * rewrite bool_decide_false by done. simpl.
        rewrite list_lookup_insert_ne by done. rewrite pool_receive.
        rewrite Hw. by destruct pc.
  - destruct (pool s !! w0) as [pc0|] eqn:Hw0; [|done]. simpl in Hstep.
    destruct (worker_step pc0 ClosedResults) as [pc'|] eqn:Hpc'; [|done].
    destruct (results_closed s) eqn:Hrc.
    + injection Hstep as <-. simpl. rewrite andb_false_r. simpl. done.
    + injection Hstep as <-.
      case_bool_decide as Heq.
      * subst w0. simplify_eq. simpl. rewrite Hpc'. simpl.
        symmetry. apply list_lookup_insert_eq. by eapply lookup_lt_Some.
      * simpl. by rewrite list_lookup_insert_ne.
  - destruct (coordinator s); [|done]. destruct (results_closed s); [|done].
    by injection Hstep as <-.
  - destruct (observer s); try done. case_bool_decide; [|done].
    by injection Hstep as <-.
  - destruct (observer s); try done. destruct (coordinator s); [|done].
    by injection Hstep as <-.
Qed.

Lemma step_pool_length (l : label) (s s' : pipeline) :
  step lib h l s = Some s' → length (pool s') = length (pool s).
Proof.
  unfold step. case_bool_decide; [|done].
  destruct l; simpl; intros Hs;
    repeat (first [progress simplify_option_eq | case_match]);
    simpl; rewrite ?pool_feed, ?pool_receive, ?length_insert; done.
Qed.

Lemma run_pool_length (sched : list label) (s s' : pipeline) :
  run lib h sched s = Some s' → length (pool s') = length (pool s).
Proof.
  revert s. induction sched as [|l sched IH]; intros s; simpl.
  - by intros [= <-].
  - destruct (step lib h l s) as [s1|] eqn:Hstep; [|done]. simpl.
    intros Hrun. rewrite (IH _ Hrun). by eapply step_pool_length.
Qed.

Lemma run_observations (sched : list label) (s s' : pipeline) (w : nat)
    (pc : worker_pc) :
  run lib h sched s = Some s' →
  pool s !! w = Some pc →
  worker_run pc (observations lib h w sched s) = pool s' !! w.
Proof.
  revert s pc. induction sched as [|l sched IH]; intros s pc Hrun Hw.
  - injection Hrun as <-. done.
  - simpl in *. destruct (step lib h l s) as [s1|] eqn:Hstep; [|done].
    simpl in Hrun. rewrite worker_run_app.
    rewrite (step_observed _ _ _ _ _ Hstep Hw).
    destruct (pool s1 !! w) as [pc1|] eqn:Hw1.
    + simpl. by apply IH.
    + exfalso. apply step_pool_length in Hstep.
      apply lookup_lt_Some in Hw. apply lookup_ge_None in Hw1. lia.
Qed.

Lemma run_app (sched1 sched2 : list label) (s : pipeline) :
  run lib h (sched1 ++ sched2) s = run lib h sched1 s ≫= run lib h sched2.
Proof.
  revert s. induction sched1 as [|l sched1 IH]; intros s; simpl; [done|].
  destruct (step lib h l s); simpl; [apply IH|done].
Qed.
End PipelineFacts.

(** ** The abort signal *)

(** Where a worker polls the signal: right before every download attempt,
    right after taking an item, right after every sleep. *)
Lemma worker_step_to_WDownload (pc : worker_pc) (o : worker_obs)
    (seg : segment) (n : Z) :
  worker_step pc o = Some (WDownload seg n) → o = Polled false.
Proof.
  destruct pc, o; simpl; try done; repeat case_match; try done.
Qed.

Lemma poll_before_attempt (pc' : worker_pc) (pre post : list worker_obs)
    (e : option string) :
  worker_run WRecv (pre ++ Attempted e :: post) = Some pc' →
  ∃ pre', pre = pre' ++ [Polled false].
Proof.
  intros Hrun. apply worker_run_Some_prefix in Hrun as (pc1 & Hpre & Hpost).
  simpl in Hpost.
  destruct pc1 as [| |seg n| | | |]; try done.
  destruct pre as [|o pre] using rev_ind; [done|].
  apply worker_run_snoc in Hpre as (pc0 & _ & Hstep).
  apply worker_step_to_WDownload in Hstep as ->. by exists pre.
Qed.

Lemma poll_after_check_point (seg : segment) (n : Z) (pc' : worker_pc)
    (post : list worker_obs) :
  worker_run (WCheck seg n) post = Some pc' →
  post = [] ∨ ∃ b post', post = Polled b :: post'.
Proof.
  destruct post as [|o post]; [by left|]. intros Hrun. right.
  destruct o; try done. eauto.
Qed.

Lemma poll_after_take (pc' : worker_pc) (pre post : list worker_obs)
    (seg : segment) :
  worker_run WRecv (pre ++ Took seg :: post) = Some pc' →
  post = [] ∨ ∃ b post', post = Polled b :: post'.
Proof.
  intros Hrun. apply worker_run_Some_prefix in Hrun as (pc1 & _ & Hpost).
  simpl in Hpost. destruct pc1; try done. simpl in Hpost.
  by eapply poll_after_check_point.
Qed.

Lemma poll_around_sleep (pc' : worker_pc) (pre post : list worker_obs) (d : Z) :
  worker_run WRecv (pre ++ Slept d :: post) = Some pc' →
  d = time_Second ∧
  (∃ pre' e, pre = pre' ++ [Polled false; Attempted (Some e)]) ∧
  (post = [] ∨ ∃ b post', post = Polled b :: post').
Proof.
  intros Hrun. apply worker_run_Some_prefix in Hrun as (pc1 & Hpre & Hpost).
  simpl in Hpost. destruct pc1 as [| | |seg n| | |]; try done. simpl in Hpost.
  destruct (Z.eqb_spec d time_Second) as [->|]; [|done]. simpl in Hpost.
  split; [done|]. split; [|by eapply poll_after_check_point].
  destruct pre as [|o pre _] using rev_ind; [done|].
  pose proof Hpre as Hpre'.
  apply worker_run_snoc in Hpre as (pc0 & Hpre0 & Hstep).
  assert (∃ e, o = Attempted (Some e)) as [e ->].
  { destruct pc0, o; simpl in Hstep; try done; repeat case_match; try done; eauto. }
  replace ((pre ++ [Attempted (Some e)])) with (pre ++ Attempted (Some e) :: [])
    in Hpre' by done.
  apply poll_before_attempt in Hpre' as [pre' ->].
  exists pre', e. by rewrite <- app_assoc.
Qed.

Lemma stop_after_abort_seen (pc' : worker_pc) (pre post : list worker_obs) :
  worker_run WRecv (pre ++ Polled true :: post) = Some pc' →
  post = [] ∨ post = [ClosedResults].
Proof.
  intros Hrun. apply worker_run_Some_prefix in Hrun as (pc1 & _ & Hpost).
  simpl in Hpost. destruct pc1; try done. simpl in Hpost.
  destruct post as [|o post]; [by left|]. right.
  destruct o; try done. simpl in Hpost.
  apply worker_run_WDone in Hpost as ->. done.
Qed.

(** ** The retry policy *)

Lemma start_pool_lookup (h : hlsDownloader) (segs : list segment)
    (fs : filesystem) (w : nat) :
  (w < Z.to_nat (workers h))%nat → pool (start h segs fs) !! w = Some WRecv.
Proof. intros Hw. simpl. by apply lookup_replicate_2. Qed.

(** C3, amended.  For every worker of a run and every segment it takes:
    what happens between taking the segment and reporting its Download
    Result is at most 3 rounds, each an abort poll, a download attempt
    failing with an error whose message contains "connection reset by peer",
    and a sleep of exactly one second; then an abort poll and a last attempt,
    whose outcome is what is reported, a reported failure being either an
    error without that phrase or the fourth failure with it.  Reported or
    not, no item sees more than 3 retry sleeps, every sleep lasts one second,
    and an attempt failing with an error without the phrase is followed by
    nothing but the report of that error. *)
Theorem retry_policy lib h (segs : list segment) (fs : filesystem)
    (sched : list label) (s : pipeline) (w : nat) :
  (w < Z.to_nat (workers h))%nat →
  run lib h sched (start h segs fs) = Some s →
  (∀ pre seg os r post,
     observations lib h w sched (start h segs fs)
       = pre ++ Took seg :: os ++ Reported r :: post →
     Forall (λ o, is_Reported o = false) os →
     ∃ (es : list string) (final : option string),
       os = concat (retry_round <$> es) ++ [Polled false; Attempted final] ∧
       (length es ≤ 3)%nat ∧
       Forall (λ e, connection_reset e = true) es ∧
       seqId r = SeqId seg ∧ err r = final ∧
       (∀ e, final = Some e → connection_reset e = false ∨ length es = 3%nat)) ∧
  (∀ pre seg os,
     observations lib h w sched (start h segs fs) = pre ++ Took seg :: os →
     Forall (λ o, is_Took o = false) os →
     (sleeps os ≤ 3)%nat) ∧
  (∀ pre d post,
     observations lib h w sched (start h segs fs) = pre ++ Slept d :: post →
     d = time_Second) ∧
  (∀ pre e post,
     observations lib h w sched (start h segs fs)
       = pre ++ Attempted (Some e) :: post →
     connection_reset e = false →
     post = [] ∨ ∃ r post', post = Reported r :: post' ∧ err r = Some e).
Proof.
  intros Hw Hrun.
  pose proof (run_observations lib h sched _ _ w WRecv Hrun
                (start_pool_lookup h segs fs w Hw)) as Hloc.
  assert (is_Some (pool s !! w)) as [pc Hpc].
  { apply lookup_lt_is_Some. rewrite (run_pool_length lib h _ _ _ Hrun).
    simpl. by rewrite length_replicate. }
  rewrite Hpc in Hloc.
  split; [|split; [|split]].
  - intros pre seg os r post Hobs Hnr. rewrite Hobs in Hloc.
    apply worker_run_Some_prefix in Hloc as (pc1 & _ & Hloc).
    simpl in Hloc. destruct pc1; try done. simpl in Hloc.
    replace (os ++ Reported r :: post) with ((os ++ [Reported r]) ++ post) in Hloc
      by by rewrite <- app_assoc.
    apply worker_run_Some_prefix in Hloc as (pc2 & Hitem & _).
    destruct (retry_shape seg 3 0 os r pc2)
      as (es & final & ? & ? & ? & ? & ? & _ & ?); [done|lia|done|done|].
    by exists es, final.
  - intros pre seg os Hobs Hnt. rewrite Hobs in Hloc.
    apply worker_run_Some_prefix in Hloc as (pc1 & _ & Hloc).
    simpl in Hloc. destruct pc1; try done. simpl in Hloc.
    pose proof (sleeps_within_budget _ _ _ Hloc Hnt) as Hb. simpl in Hb.
    unfold maxAttempts in Hb. lia.
  - intros pre d post Hobs. rewrite Hobs in Hloc.
    by destruct (poll_around_sleep _ _ _ _ Hloc) as [-> _].
  - intros pre e post Hobs He. rewrite Hobs in Hloc.
    by eapply failure_reported_at_once.
Qed.

Lemma retry_policy_witness :
  let s0 := start Samples.dl [RetrySample.seg0] RetrySample.fs0 in
  let obs := observations Samples.lib Samples.dl 0 RetrySample.four_resets s0 in
  (∀ pre seg os r post,
     obs = pre ++ Took seg :: os ++ Reported r :: post →
     Forall (λ o, is_Reported o = false) os →
     ∃ (es : list string) (final : option string),
       os = concat (retry_round <$> es) ++ [Polled false; Attempted final] ∧
       (length es ≤ 3)%nat ∧
       Forall (λ e, connection_reset e = true) es ∧
       seqId r = SeqId seg ∧ err r = final ∧
       (∀ e, final = Some e → connection_reset e = false ∨ length es = 3%nat)) ∧
  (∀ pre seg os,
     obs = pre ++ Took seg :: os →
     Forall (λ o, is_Took o = false) os →
     (sleeps os ≤ 3)%nat) ∧
  (∀ pre d post, obs = pre ++ Slept d :: post → d = time_Second) ∧
  (∀ pre e post,
     obs = pre ++ Attempted (Some e) :: post →
     connection_reset e = false →
     post = [] ∨ ∃ r post', post = Reported r :: post' ∧ err r = Some e).
Proof.
  eapply (retry_policy Samples.lib Samples.dl [RetrySample.seg0]
            RetrySample.fs0 RetrySample.four_resets _ 0).
  - vm_compute. reflexivity.
  - vm_compute. reflexivity.
Defined.

Example four_resets_observed :
  observations Samples.lib Samples.dl 0 RetrySample.four_resets
    (start Samples.dl [RetrySample.seg0] RetrySample.fs0)
  = Took (set_path RetrySample.seg0 (staging_path Samples.dl 0))
    :: concat (retry_round <$> replicate 3 RetrySample.reset_msg)
    ++ [Polled false; Attempted (Some RetrySample.reset_msg);
        Reported {| err := Some RetrySample.reset_msg; seqId := 0;
                    totalSegments := 0 |}].
Proof. vm_compute. reflexivity. Qed.

(** The original wording of C3 fails: an attempt that fails because of a
    non-200 status is retried when the status text of the response contains
    the phrase. *)
Lemma non_200_status_is_retried :
  (downloadSegment Samples.lib Samples.dl RetrySample.seg0 RetrySample.net_odd
     RetrySample.fs0).1 = Some "500 connection reset by peer" ∧
  worker_step (WDownload RetrySample.seg0 0)
    (Attempted (Some "500 connection reset by peer"))
  = Some (WSleep RetrySample.seg0 1) ∧
  ∃ s, run Samples.lib Samples.dl
         [Feed; Dispatch 0; Poll 0; Fetch 0 RetrySample.net_odd;
          Sleep 0 time_Second; Poll 0; Fetch 0 RetrySample.net_odd]
         (start Samples.dl [RetrySample.seg0] RetrySample.fs0) = Some s ∧
       coordinator s = CSelect.
Proof.
  split; [by vm_compute|]. split; [by vm_compute|].
  eexists. split; [vm_compute; reflexivity|]. reflexivity.
Qed.

Section AbortSignal.
Context (lib : externals) (h : hlsDownloader).

Ltac step_cases Hs :=
  unfold step in Hs; case_bool_decide; [|done];
  match type of Hs with context [match ?l with Feed => _ | _ => _ end] =>
    destruct l end;
  simpl in Hs;
  repeat (first [progress simplify_option_eq | case_match]);
  unfold feed, receive in *;
  repeat (first [progress simplify_option_eq | case_match]);
  simpl in *.

(** [wc.abort] is closed once and for all. *)
Lemma step_abort_mono (l : label) (s s' : pipeline) :
  step lib h l s = Some s' → abort s = true → abort s' = true.
Proof. intros Hs Ha. step_cases Hs; congruence. Qed.

Lemma run_abort_mono (sched : list label) (s s' : pipeline) :
  run lib h sched s = Some s' → abort s = true → abort s' = true.
Proof.
  revert s. induction sched as [|l sched IH]; intros s; simpl.
  - by intros [= <-].
  - destruct (step lib h l s) as [s1|] eqn:Hstep; [|done]. simpl.
    intros Hrun Ha. apply (IH s1 Hrun). by eapply step_abort_mono.
Qed.

(** Once [processSegments] has returned, it has returned. *)
Lemma step_coordinator_stable (l : label) (s s' : pipeline) (e : option string) :
  step lib h l s = Some s' →
  coordinator s = CReturned e → coordinator s' = CReturned e.
Proof. intros Hs Hc. step_cases Hs; congruence. Qed.

Lemma run_coordinator_stable (sched : list label) (s s' : pipeline)
    (e : option string) :
  run lib h sched s = Some s' →
  coordinator s = CReturned e → coordinator s' = CReturned e.
Proof.
  revert s. induction sched as [|l sched IH]; intros s; simpl.
  - by intros [= <-].
  - destruct (step lib h l s) as [s1|] eqn:Hstep; [|done]. simpl.
    intros Hrun Hc. apply (IH s1 Hrun). by eapply step_coordinator_stable.
Qed.

Lemma step_crashed (l : label) (s : pipeline) :
  crashed s ≠ None → step lib h l s = None.
Proof. intros Hc. unfold step. by rewrite bool_decide_false. Qed.

(** The step that closes [wc.abort] ends the coordinator's loop. *)
Lemma closes_abort_ends_loop (l : label) (s s' : pipeline) :
  step lib h l s = Some s' → closes_abort l s = true →
  (∃ e, coordinator s' = CReturned e) ∨ crashed s' ≠ None.
Proof.
  intros Hs Hc. unfold closes_abort in Hc.
  destruct l as [| | | | | |w| | | |]; try done.
  destruct (pool s !! w) as [[| | | |r| |]|] eqn:Hw; try done.
  destruct (coordinator s) eqn:Hco; [|done].
  apply andb_true_iff in Hc as [Hrc He].
  apply negb_true_iff in Hrc. apply bool_decide_eq_true in He as [e He].
  unfold step in Hs. case_bool_decide; [|done]. simpl in Hs.
  rewrite Hw in Hs. simpl in Hs. rewrite Hrc, Hco in Hs.
  rewrite bool_decide_true in Hs by done. simpl in Hs.
  injection Hs as <-. unfold receive. rewrite He.
  destruct (abort s); simpl; [by right|left; eauto].
Qed.

Lemma abort_closings_returned (sched : list label) (s : pipeline)
    (e : option string) :
  coordinator s = CReturned e → abort_closings lib h sched s = 0%nat.
Proof.
  revert s. induction sched as [|l sched IH]; intros s Hc; simpl; [done|].
  destruct (step lib h l s) as [s1|] eqn:Hstep; [|done].
  rewrite (IH s1) by by eapply step_coordinator_stable.
  assert (closes_abort l s = false) as ->; [|done].
  unfold closes_abort. destruct l; try done. rewrite Hc. by repeat case_match.
Qed.

Lemma abort_closings_crashed (sched : list label) (s : pipeline) :
  crashed s ≠ None → abort_closings lib h sched s = 0%nat.
Proof.
  intros Hc. destruct sched as [|l sched]; simpl; [done|].
  by rewrite step_crashed.
Qed.

(** [close(wc.abort)] runs at most once. *)
Lemma abort_closings_le_1 (sched : list label) (s : pipeline) :
  (abort_closings lib h sched s ≤ 1)%nat.
Proof.
  revert s. induction sched as [|l sched IH]; intros s; simpl; [lia|].
  destruct (step lib h l s) as [s1|] eqn:Hstep; [|lia].
  destruct (closes_abort l s) eqn:Hc.
  - destruct (closes_abort_ends_loop _ _ _ Hstep Hc) as [[e He]|Hcr].
    + rewrite (abort_closings_returned _ _ e He). lia.
    + rewrite (abort_closings_crashed _ _ Hcr). lia.
  - specialize (IH s1). lia.
Qed.
End AbortSignal.

(** C6, amended.  Along every run of the pipeline the abort signal, once
    set, stays set, and [close(wc.abort)] is executed at most once.  Every
    worker polls the signal (without blocking) immediately before each
    download attempt; hence immediately after taking an item from the queue
    and immediately after each retry sleep, each retry sleep (of one second)
    coming after a poll and the failed attempt that follows it.  A worker
    that polls the signal when it is set makes no further attempt: it closes
    the result channel and returns. *)
Theorem abort_signal_discipline lib h (segs : list segment) (fs : filesystem)
    (sched : list label) (s : pipeline) :
  run lib h sched (start h segs fs) = Some s →
  (∀ sched1 sched2 s1,
     sched = sched1 ++ sched2 →
     run lib h sched1 (start h segs fs) = Some s1 →
     abort s1 = true → abort s = true) ∧
  (abort_closings lib h sched (start h segs fs) ≤ 1)%nat ∧
  (∀ w pre o post,
     (w < Z.to_nat (workers h))%nat →
     observations lib h w sched (start h segs fs) = pre ++ o :: post →
     (∀ e, o = Attempted e → ∃ pre', pre = pre' ++ [Polled false]) ∧
     (∀ seg, o = Took seg → post = [] ∨ ∃ b post', post = Polled b :: post') ∧
     (∀ d, o = Slept d →
        d = time_Second ∧
        (∃ pre' e, pre = pre' ++ [Polled false; Attempted (Some e)]) ∧
        (post = [] ∨ ∃ b post', post = Polled b :: post')) ∧
     (o = Polled true → post = [] ∨ post = [ClosedResults])).
Proof.
  intros Hrun. split; [|split].
  - intros sched1 sched2 s1 -> Hrun1 Ha.
    rewrite run_app, Hrun1 in Hrun. simpl in Hrun.
    by eapply run_abort_mono.
  - apply abort_closings_le_1.
  - intros w pre o post Hw Hobs.
    pose proof (run_observations lib h sched _ _ w WRecv Hrun
                  (start_pool_lookup h segs fs w Hw)) as Hloc.
    assert (is_Some (pool s !! w)) as [pc Hpc].
    { apply lookup_lt_is_Some. rewrite (run_pool_length lib h _ _ _ Hrun).
      simpl. by rewrite length_replicate. }
    rewrite Hpc, Hobs in Hloc.
    split; [|split; [|split]].
    + intros e ->. by eapply poll_before_attempt.
    + intros seg ->. by eapply poll_after_take.
    + intros d ->. by eapply poll_around_sleep.
    + intros ->. by eapply stop_after_abort_seen.
Qed.

Lemma abort_signal_discipline_witness :
  let s0 := start Samples.dl AbortSample.segs AbortSample.fs0 in
  (∀ sched1 sched2 s1,
     AbortSample.to_the_end = sched1 ++ sched2 →
     run Samples.lib Samples.dl sched1 s0 = Some s1 →
     abort s1 = true →
     abort (default s0 (run Samples.lib Samples.dl AbortSample.to_the_end s0))
       = true) ∧
  (abort_closings Samples.lib Samples.dl AbortSample.to_the_end s0 ≤ 1)%nat ∧
  (∀ w pre o post,
     (w < Z.to_nat (workers Samples.dl))%nat →
     observations Samples.lib Samples.dl w AbortSample.to_the_end s0
       = pre ++ o :: post →
     (∀ e, o = Attempted e → ∃ pre', pre = pre' ++ [Polled false]) ∧
     (∀ seg, o = Took seg → post = [] ∨ ∃ b post', post = Polled b :: post') ∧
     (∀ d, o = Slept d →
        d = time_Second ∧
        (∃ pre' e, pre = pre' ++ [Polled false; Attempted (Some e)]) ∧
        (post = [] ∨ ∃ b post', post = Polled b :: post')) ∧
     (o = Polled true → post = [] ∨ post = [ClosedResults])).
Proof.
  apply (abort_signal_discipline Samples.lib Samples.dl AbortSample.segs
           AbortSample.fs0 AbortSample.to_the_end).
  vm_compute. reflexivity.
Defined.

(** The original wording of C6 fails: a worker takes its next queue item
    while the signal is set, and its last poll, made before the download it
    has just reported, returned false. *)
Lemma item_taken_before_abort_is_seen :
  let s0 := start Samples.dl AbortSample.segs AbortSample.fs0 in
  ∃ s1 s2 r seg,
    run Samples.lib Samples.dl AbortSample.until_abort s0 = Some s1 ∧
    abort s1 = true ∧
    observations Samples.lib Samples.dl 0 AbortSample.until_abort s0
      = [Took (set_path (Samples.clear_seg 0) (staging_path Samples.dl 0));
         Polled false; Attempted (Some "500 Internal Server Error");
         Reported r] ∧
    step Samples.lib Samples.dl (Dispatch 0) s1 = Some s2 ∧
    observed Samples.lib Samples.dl 0 (Dispatch 0) s1 = [Took seg] ∧
    SeqId seg = 1%N.
Proof.
  do 4 eexists. split; [vm_compute; reflexivity|].
  split; [reflexivity|]. split; [vm_compute; reflexivity|].
  split; [vm_compute; reflexivity|]. split; [vm_compute; reflexivity|].
  reflexivity.
Qed.

(** ** The coordinator and the feeder *)

Section Coordinator.
Context (lib : externals) (h : hlsDownloader).

Lemma worker_step_to_WClose (pc : worker_pc) (o : worker_obs) :
  worker_step pc o = Some WClose → o = Polled true.
Proof. destruct pc, o; simpl; try done; repeat case_match; done. Qed.

Lemma start_coherent (segs : list segment) (fs : filesystem) :
  coherent (start h segs fs).
Proof.
  split; [|done]. intros _. simpl. repeat split.
  apply Forall_forall. intros pc Hpc%elem_of_replicate. by destruct Hpc as [-> _].
Qed.

Lemma step_coherent (l : label) (s s' : pipeline) :
  step lib h l s = Some s' → coherent s → coherent s'.
Proof.
  intros Hs [H1 H2]. split.
  - intros Ha'.
    assert (abort s = false) as Ha.
    { destruct (abort s) eqn:E; [|done].
      by rewrite (step_abort_mono lib h _ _ _ Hs E) in Ha'. }
    destruct (H1 Ha) as (Hrc & Hcr & Hpool).
    unfold step in Hs. rewrite bool_decide_true in Hs by done.
    destruct l as [|w|w|w|w net|w d|w|w| | |]; simpl in Hs.
    + destruct (feeder s); try done. injection Hs as <-.
      unfold feed. repeat case_match; simpl; done.
    + destruct (feeder s); try done.
      destruct (pool s !! w) as [pc|] eqn:Hw; [|done]. simpl in Hs.
      destruct (segments s !! k) as [seg|]; [|done]. simpl in Hs.
      destruct (worker_step pc (Took seg)) as [pc'|] eqn:Hpc; [|done].
      injection Hs as <-. simpl. repeat split; try done.
      apply Forall_insert; [done|]. intros ->.
      by apply worker_step_to_WClose in Hpc.
    + destruct (feeder s); try done.
      destruct (pool s !! w) as [pc|] eqn:Hw; [|done]. simpl in Hs.
      destruct (worker_step pc QueueClosed) as [pc'|] eqn:Hpc; [|done].
      injection Hs as <-. simpl. repeat split; try done.
      apply Forall_insert; [done|]. intros ->.
      by apply worker_step_to_WClose in Hpc.
    + destruct (pool s !! w) as [pc|] eqn:Hw; [|done]. simpl in Hs.
      destruct (worker_step pc (Polled (abort s))) as [pc'|] eqn:Hpc; [|done].
      injection Hs as <-. simpl. repeat split; try done.
      apply Forall_insert; [done|]. intros ->.
      apply worker_step_to_WClose in Hpc. congruence.
    + destruct (pool s !! w) as [pc|] eqn:Hw; [|done]. simpl in Hs.
      destruct pc as [| |seg att| | | |]; try done.
      destruct (downloadSegment lib h seg net (disk s)) as [e fs].
      destruct (worker_step (WDownload seg att) (Attempted e)) as [pc'|] eqn:Hpc;
        [|done].
      injection Hs as <-. simpl. repeat split; try done.
      apply Forall_insert; [done|]. intros ->.
      by apply worker_step_to_WClose in Hpc.
    + destruct (pool s !! w) as [pc|] eqn:Hw; [|done]. simpl in Hs.
      destruct (worker_step pc (Slept d)) as [pc'|] eqn:Hpc; [|done].
      injection Hs as <-. simpl. repeat split; try done.
      apply Forall_insert; [done|]. intros ->.
      by apply worker_step_to_WClose in Hpc.
    + destruct (pool s !! w) as [pc|] eqn:Hw; [|done]. simpl in Hs.
      destruct pc as [| | | |r| |]; try done. rewrite Hrc in Hs.
      destruct (coordinator s); [|done].
      destruct (worker_step (WSend r) (Reported r)) as [pc'|] eqn:Hpc; [|done].
      injection Hs as <-. simpl in Ha'. unfold receive in *.
      destruct (err r); [by rewrite Ha in Ha'|].
      simpl. repeat split; try done.
      apply Forall_insert; [done|]. intros ->.
      by apply worker_step_to_WClose in Hpc.
    + destruct (pool s !! w) as [pc|] eqn:Hw; [|done]. simpl in Hs.
      destruct (worker_step pc ClosedResults) as [pc'|] eqn:Hpc; [|done].
      exfalso. destruct pc; try done.
      rewrite Forall_forall in Hpool. apply (Hpool WClose); [|done].
      by eapply list_elem_of_lookup_2.
    + destruct (coordinator s); [|done]. by rewrite Hrc in Hs.
    + destruct (observer s); try done. case_bool_decide; [|done].
      by injection Hs as <-.
    + destruct (observer s); try done. destruct (coordinator s); [|done].
      by injection Hs as <-.
  - intros Hc'.
    assert (coordinator s = CSelect) as Hc.
    { destruct (coordinator s) as [|e] eqn:E; [done|].
      by rewrite (step_coordinator_stable lib h _ _ _ e Hs E) in Hc'. }
    pose proof (H2 Hc) as Ha.
    unfold step in Hs. case_bool_decide; [|done].
    destruct l; simpl in Hs;
      repeat (first [progress simplify_option_eq | case_match]);
      unfold feed, receive in *;
      repeat (first [progress simplify_option_eq | case_match]);
      simpl in *; congruence.
Qed.

Lemma run_coherent (sched : list label) (s s' : pipeline) :
  run lib h sched s = Some s' → coherent s → coherent s'.
Proof.
  revert s. induction sched as [|l sched IH]; intros s; simpl.
  - by intros [= <-].
  - destruct (step lib h l s) as [s1|] eqn:Hstep; [|done]. simpl.
    intros Hrun Hs. apply (IH s1 Hrun). by eapply step_coherent.
Qed.

Lemma await_cons (l : label) (rest : list label) (s : pipeline) :
  coordinator s = CSelect →
  await lib h (l :: rest) s = step lib h l s ≫= await lib h rest.
Proof. intros Hc. cbn [await]. by rewrite Hc. Qed.


Lemma await_returned (rest : list label) (s : pipeline) (e : option string) :
  coordinator s = CReturned e → await lib h rest s = Some (e, s).
Proof. intros Hc. destruct rest; simpl; by rewrite Hc. Qed.



End Coordinator.


Section LateDispatch.
Context (lib : externals) (h : hlsDownloader).


End LateDispatch.



Example fails_fast_sample :
  ∃ s', processSegments Samples.lib Samples.dl AbortSample.segs AbortSample.fs0
          AbortSample.until_abort
        = Some (Some "500 Internal Server Error", s') ∧
        abort s' = true ∧ feeder s' = FSend 1.
Proof. eexists. split; [vm_compute; reflexivity|]. split; reflexivity. Qed.


(** After an abort the result channel is closed by every worker that polls
    the signal; the second [close] is a run-time panic. *)
Example second_close_panics :
  ∃ s, run Samples.lib AbortSample.dl2 AbortSample.both_close
         (start AbortSample.dl2 AbortSample.segs3 AbortSample.fs0) = Some s ∧
       coordinator s = CReturned (Some "500 Internal Server Error") ∧
       crashed s = Some "close of closed channel".
Proof. eexists. split; [vm_compute; reflexivity|]. split; reflexivity. Qed.

(** ** Which client and which headers a fetch uses *)

Lemma manifest_fetch_is_by_DefaultClient lib (u : string) (hd : http_Header)
    (net net' : transport) :
  (∀ req, net DefaultClient req = net' DefaultClient req) →
  getM3u8ListType lib u hd net = getM3u8ListType lib u hd net'.
Proof.
  intros Hnet. unfold getM3u8ListType.
  destruct (newRequest lib u hd) as [req| |]; simpl; [|done..].
  by rewrite Hnet.
Qed.

Lemma key_fetch_is_without_headers lib (seg : segment) (c : http_client)
    (net net' : transport) :
  (∀ u, net c {| req_url := u; req_header := ∅ |}
        = net' c {| req_url := u; req_header := ∅ |}) →
  getKey lib seg c net = getKey lib seg c net'.
Proof.
  intros Hnet. unfold getKey, client_Get.
  destruct (Key seg) as [k|]; [|done].
  destruct (url_valid lib (Key_URI k)); [|done]. by rewrite Hnet.
Qed.

Lemma segment_fetch_is_by_client_with_headers lib (h : hlsDownloader)
    (seg : segment) (net net' : transport) (fs : filesystem) :
  net (client h) {| req_url := URI seg; req_header := header h |}
    = net' (client h) {| req_url := URI seg; req_header := header h |} →
  downloadSegment lib h seg net fs = downloadSegment lib h seg net' fs.
Proof.
  intros Hnet. unfold downloadSegment, newRequest.
  destruct (url_valid lib (URI seg)); [|done]. by rewrite Hnet.
Qed.

(** C7 at a downloader with its own client and header set, against a server
    that answers only that client presenting those headers: the segment
    fetch gets through, the playlist fetch (made by [http.DefaultClient]) and
    the key fetch (made without the headers) are refused. *)
Theorem transport_is_not_shared :
  (downloadSegment Samples.lib AuthSample.h (Samples.clear_seg 0)
     AuthSample.net_auth (Samples.staged [])).1 = None ∧
  parseHLSSegments Samples.lib (url AuthSample.h) (header AuthSample.h)
    AuthSample.net_auth = Err "403 Forbidden" ∧
  getKey Samples.lib (Samples.keyed_seg 0 "") (client AuthSample.h)
    AuthSample.net_auth = Err "Failed to get descryption key".
Proof. split; [|split]; vm_compute; reflexivity. Qed.

(** ** Cleaning up the staging directory *)

(** C8. On every return of [Download] that comes after the staging directory
    has been created (the playlist was read, the output directory made,
    [os.MkdirTemp] gave the directory [tmp]), whatever the result (a path, an
    error of the fetch phase, an error or a panic of the join), the file
    system that [Download] leaves has neither [tmp] nor any file or directory
    below it. *)
Theorem Download_removes_staging_directory lib (h : hlsDownloader)
    (env : environment) (fs fs1 fs' : filesystem) (segs : list segment)
    (tmp : string) (r : result string) :
  parseHLSSegments lib (url h) (header h) (manifest_net env) = Ok segs →
  os_MkdirAll (h_path h) fs = (Ok (), fs1) →
  tmp_choice env = Ok tmp →
  tmp ≠ "" →
  Download lib (Some h) env fs = Some (r, fs') →
  (tmp ∉ dirs fs') ∧
  ∀ p, within tmp p = true → (p ∉ dirs fs') ∧ files fs' !! p = None.
Proof.
  intros Hparse Hmk Htmp Hne Hdl.
  unfold Download in Hdl. rewrite Hparse, Hmk in Hdl.
  unfold os_MkdirTemp in Hdl. rewrite Htmp in Hdl.
  destruct (fetch_and_join lib (set_tmpDir h tmp) segs env _) as [[r0 fs0]|];
    [|done].
  simpl in Hdl. injection Hdl as <- <-.
  assert (∀ p, within tmp p = true →
               (p ∉ dirs (os_RemoveAll tmp fs0)) ∧
               files (os_RemoveAll tmp fs0) !! p = None) as Hall.
  { intros p Hp. split.
    - by apply os_RemoveAll_dirs_within.
    - by apply os_RemoveAll_lookup_within. }
  split; [|done]. apply Hall, within_refl.
Qed.

Lemma Download_removes_staging_directory_witness :
  let fs' := default DownloadSample.disk0
               (snd <$> Download (DownloadSample.lib_of DownloadSample.playlist)
                          (Some Samples.dl) DownloadSample.env_s1_down
                          DownloadSample.disk0) in
  ("/tmp/1-segments" ∉ dirs fs') ∧
  ∀ p, within "/tmp/1-segments" p = true →
       (p ∉ dirs fs') ∧ files fs' !! p = None.
Proof.
  eapply (Download_removes_staging_directory
            (DownloadSample.lib_of DownloadSample.playlist) Samples.dl
            DownloadSample.env_s1_down DownloadSample.disk0 _ _ _
            "/tmp/1-segments" (Err "500 Internal Server Error")).
  - vm_compute. reflexivity.
  - vm_compute. reflexivity.
  - reflexivity.
  - discriminate.
  - vm_compute. reflexivity.
Defined.

(** The end-to-end scenarios. *)

Example Download_three_segments :
  ∃ fs', Download (DownloadSample.lib_of DownloadSample.playlist)
           (Some Samples.dl) DownloadSample.env_ok DownloadSample.disk0
         = Some (Ok "/out/video.ts", fs') ∧
         files fs' !! "/out/video.ts"
           = Some ["G"; x00; "G"; x01; "G"; x02]%byte ∧
         dirs fs' = {["/out"; "/tmp"]} ∧
         dom (files fs') = {["/out/video.ts"]}.
Proof.
  eexists. split; [vm_compute; reflexivity|].
  split; [vm_compute; reflexivity|]. split; by vm_compute.
Qed.

Example Download_segment_down :
  ∃ fs', Download (DownloadSample.lib_of DownloadSample.playlist)
           (Some Samples.dl) DownloadSample.env_s1_down DownloadSample.disk0
         = Some (Err "500 Internal Server Error", fs') ∧
         files fs' = ∅ ∧ dirs fs' = {["/out"; "/tmp"]}.
Proof.
  eexists. split; [vm_compute; reflexivity|]. split; by vm_compute.
Qed.

Example Download_key_refused :
  ∃ fs', Download (DownloadSample.lib_of DownloadSample.keyed_playlist)
           (Some Samples.dl) DownloadSample.env_key_refused DownloadSample.disk0
         = Some (Err "Failed to get descryption key", fs') ∧
         files fs' !! "/out/video.ts" = Some [] ∧
         dirs fs' = {["/out"; "/tmp"]}.
Proof.
  eexists. split; [vm_compute; reflexivity|].
  split; [vm_compute; reflexivity|]. by vm_compute.
Qed.

Example Download_either_staging_order :
  Download (DownloadSample.lib_of DownloadSample.playlist)
    (Some DownloadSample.dl2) DownloadSample.env_0_then_1 DownloadSample.disk0
  = Download (DownloadSample.lib_of DownloadSample.playlist)
      (Some DownloadSample.dl2) DownloadSample.env_1_then_0 DownloadSample.disk0
  ∧ ∃ fs', Download (DownloadSample.lib_of DownloadSample.playlist)
             (Some DownloadSample.dl2) DownloadSample.env_1_then_0
             DownloadSample.disk0 = Some (Ok "/out/video.ts", fs') ∧
           files fs' !! "/out/video.ts"
             = Some ["G"; x00; "G"; x01; "G"; x02]%byte.
Proof.
  split; [vm_compute; reflexivity|].
  eexists. split; vm_compute; reflexivity.
Qed.

(** ** From the fetch phase to the join *)

Section Staging.
Context (lib : externals) (h : hlsDownloader).

Lemma start_staged_so_far (segs : list segment) (fs : filesystem) :
  staged_so_far h segs (start h segs fs).
Proof.
  repeat split; try done.
  - intros i seg Hi. unfold fed in Hi. simpl in Hi. lia.
  - simpl. intros _ Hin%elem_of_replicate. by destruct Hin.
Qed.

Lemma worker_step_WDone_inv (pc : worker_pc) (o : worker_obs) :
  worker_step pc o = Some WDone →
  (pc = WRecv ∧ o = QueueClosed) ∨ (pc = WClose ∧ o = ClosedResults).
Proof. destruct pc, o; simpl; try done; repeat case_match; try done; auto. Qed.

Lemma worker_step_from_WDone (o : worker_obs) : worker_step WDone o = None.
Proof. by destruct o. Qed.

Lemma Forall_WDone_insert (pool : list worker_pc) (w : nat) (pc pc' : worker_pc)
    (o : worker_obs) :
  Forall (λ pc, pc = WDone) pool → pool !! w = Some pc →
  worker_step pc o = Some pc' → False.
Proof.
  intros Hall Hw Hstep. rewrite Forall_forall in Hall.
  rewrite (Hall pc) in Hstep by by eapply list_elem_of_lookup_2.
  by rewrite worker_step_from_WDone in Hstep.
Qed.

Lemma elem_of_insert_WDone (pool : list worker_pc) (w : nat) (pc' : worker_pc) :
  WDone ∈ <[w := pc']> pool → pc' = WDone ∨ WDone ∈ pool.
Proof.
  intros (i & Hi)%list_elem_of_lookup.
  destruct (decide (i = w)) as [->|Hne].
  - destruct (decide (w < length pool)%nat).
    + rewrite list_lookup_insert_eq in Hi by done. left. congruence.
    + rewrite list_insert_ge in Hi by lia. right. by eapply list_elem_of_lookup_2.
  - rewrite list_lookup_insert_ne in Hi by done. right.
    by eapply list_elem_of_lookup_2.
Qed.

Lemma feed_SeqIds (k : nat) (s : pipeline) :
  length (segments (feed h k s)) = length (segments s) ∧
  SeqId <$> segments (feed h k s) = SeqId <$> segments s.
Proof.
  unfold feed. destruct (segments s !! k) as [seg|] eqn:Hk; [|done].
  destruct (abort s); [done|]. simpl.
  split; [by rewrite length_insert|].
  rewrite list_fmap_insert. simpl. apply list_insert_id.
  by rewrite list_lookup_fmap, Hk.
Qed.

Lemma step_SeqIds (l : label) (s s' : pipeline) :
  step lib h l s = Some s' →
  length (segments s') = length (segments s) ∧
  SeqId <$> segments s' = SeqId <$> segments s.
Proof.
  intros Hs. unfold step in Hs. case_bool_decide; [|done].
  destruct l; simpl in Hs.
  { destruct (feeder s); try done. injection Hs as <-. apply feed_SeqIds. }
  all: repeat (first [progress simplify_option_eq | case_match]);
    unfold receive in *;
    repeat (first [progress simplify_option_eq | case_match]);
    simpl; done.
Qed.

(** The steps of the pipeline, read backwards. *)
Lemma step_inv (l : label) (s s' : pipeline) :
  step lib h l s = Some s' →
  crashed s = None ∧
  match l with
  | Feed => ∃ k, feeder s = FLoop k ∧ s' = feed h k s
  | Dispatch w =>
      ∃ k pc seg pc',
        feeder s = FSend k ∧ pool s !! w = Some pc ∧
        segments s !! k = Some seg ∧ worker_step pc (Took seg) = Some pc' ∧
        s' = set_worker w pc' (set_feeder (FLoop (S k)) s)
  | Drained w =>
      ∃ pc pc',
        feeder s = FDone ∧ pool s !! w = Some pc ∧
        worker_step pc QueueClosed = Some pc' ∧ s' = set_worker w pc' s
  | Poll w =>
      ∃ pc pc',
        pool s !! w = Some pc ∧
        worker_step pc (Polled (abort s)) = Some pc' ∧ s' = set_worker w pc' s
  | Fetch w net =>
      ∃ seg a pc',
        pool s !! w = Some (WDownload seg a) ∧
        worker_step (WDownload seg a)
          (Attempted (downloadSegment lib h seg net (disk s)).1) = Some pc' ∧
        s' = set_worker w pc'
               (set_disk (downloadSegment lib h seg net (disk s)).2 s)
  | Sleep w d =>
      ∃ pc pc',
        pool s !! w = Some pc ∧
        worker_step pc (Slept d) = Some pc' ∧ s' = set_worker w pc' s
  | Report w =>
      ∃ r, pool s !! w = Some (WSend r) ∧
           ((results_closed s = true ∧ s' = crash "send on closed channel" s) ∨
            (results_closed s = false ∧ coordinator s = CSelect ∧
             s' = set_worker w WRecv (receive r s)))
  | CloseResults w =>
      pool s !! w = Some WClose ∧
      ((results_closed s = true ∧ s' = crash "close of closed channel" s) ∨
       (results_closed s = false ∧
        s' = set_worker w WDone (set_results_closed true s)))
  | NilResult =>
      coordinator s = CSelect ∧ results_closed s = true ∧
      s' = crash "invalid memory address or nil pointer dereference" s
  | AllDone =>
      observer s = OWait ∧ Forall (λ pc, pc = WDone) (pool s) ∧
      s' = set_observer OSignal s
  | Success =>
      observer s = OSignal ∧ coordinator s = CSelect ∧
      s' = set_coordinator (CReturned None) (set_observer ODone s)
  end.
Proof.
  intros Hs. unfold step in Hs. case_bool_decide as Hcr; [|done].
  split; [done|].
  destruct l as [|w|w|w|w net|w d|w|w| | |]; simpl in Hs.
  - destruct (feeder s) as [k| |] eqn:Hf; try done. injection Hs as <-.
    by exists k.
  - destruct (feeder s) as [|k|] eqn:Hf; try done.
    destruct (pool s !! w) as [pc|] eqn:Hw; [|done]. simpl in Hs.
    destruct (segments s !! k) as [seg|] eqn:Hk; [|done]. simpl in Hs.
    destruct (worker_step pc (Took seg)) as [pc'|] eqn:Hpc; [|done].
    injection Hs as <-. by exists k, pc, seg, pc'.
  - destruct (feeder s) eqn:Hf; try done.
    destruct (pool s !! w) as [pc|] eqn:Hw; [|done]. simpl in Hs.
    destruct (worker_step pc QueueClosed) as [pc'|] eqn:Hpc; [|done].
    injection Hs as <-. by exists pc, pc'.
  - destruct (pool s !! w) as [pc|] eqn:Hw; [|done]. simpl in Hs.
    destruct (worker_step pc (Polled (abort s))) as [pc'|] eqn:Hpc; [|done].
    injection Hs as <-. by exists pc, pc'.
  - destruct (pool s !! w) as [pc|] eqn:Hw; [|done]. simpl in Hs.
    destruct pc as [| |seg a| | | |]; try done.
    destruct (downloadSegment lib h seg net (disk s)) as [e fs] eqn:Hdl.
    destruct (worker_step (WDownload seg a) (Attempted e)) as [pc'|] eqn:Hpc;
      [|done].
    injection Hs as <-. exists seg, a, pc'. by rewrite Hdl.
  - destruct (pool s !! w) as [pc|] eqn:Hw; [|done]. simpl in Hs.
    destruct (worker_step pc (Slept d)) as [pc'|] eqn:Hpc; [|done].
    injection Hs as <-. by exists pc, pc'.
  - destruct (pool s !! w) as [pc|] eqn:Hw; [|done]. simpl in Hs.
    destruct pc as [| | | |r| |]; try done. exists r. split; [done|].
    destruct (results_closed s) eqn:Hrc.
    + injection Hs as <-. by left.
    + destruct (coordinator s) eqn:Hco; [|done]. simpl in Hs.
      rewrite bool_decide_true in Hs by done. injection Hs as <-. by right.
  - destruct (pool s !! w) as [pc|] eqn:Hw; [|done]. simpl in Hs.
    destruct pc; try done. simpl in Hs. split; [done|].
    destruct (results_closed s) eqn:Hrc; injection Hs as <-; [by left|by right].
  - destruct (coordinator s) eqn:Hco; [|done].
    destruct (results_closed s) eqn:Hrc; [|done].
    by injection Hs as <-.
  - destruct (observer s) eqn:Hob; try done. case_bool_decide; [|done].
    by injection Hs as <-.
  - destruct (observer s) eqn:Hob; try done.
    destruct (coordinator s) eqn:Hco; [|done].
    by injection Hs as <-.
Qed.

Lemma feed_paths (segs : list segment) (k : nat) (s : pipeline) :
  feeder s = FLoop k →
  (∀ i seg, (i < fed s)%nat → segments s !! i = Some seg →
            path seg = staging_path h (SeqId seg)) →
  ∀ i seg, (i < fed (feed h k s))%nat → segments (feed h k s) !! i = Some seg →
           path seg = staging_path h (SeqId seg).
Proof.
  intros Hf Hpaths i seg. unfold fed in Hpaths. rewrite Hf in Hpaths.
  unfold feed. destruct (segments s !! k) as [segk|] eqn:Hk.
  - destruct (abort s) eqn:Ha.
    + unfold fed. simpl. rewrite Ha. lia.
    + unfold fed. simpl. intros Hi Hseg.
      destruct (decide (i = k)) as [->|Hne].
      * rewrite list_lookup_insert_eq in Hseg by by eapply lookup_lt_Some.
        by injection Hseg as <-.
      * rewrite list_lookup_insert_ne in Hseg by done.
        apply (Hpaths i); [lia|done].
  - unfold fed. simpl. destruct (abort s); [lia|].
    intros Hi Hseg. apply (Hpaths i); [|done].
    apply lookup_ge_None in Hk. lia.
Qed.

Lemma step_staged_so_far (segs : list segment) (l : label) (s s' : pipeline) :
  step lib h l s = Some s' →
  coherent s → staged_so_far h segs s → staged_so_far h segs s'.
Proof.
  intros Hs [Hc1 Hc2] (Hids & Hpaths & Hwd & Hobs & Hret).
  destruct (step_SeqIds _ _ _ Hs) as [Hlen Hids'].
  destruct (step_inv _ _ _ Hs) as [Hcr Hl].
  split; [by rewrite Hids'|].
  destruct l as [|w|w|w|w net|w d|w|w| | |].
  - (* Feed *)
    destruct Hl as (k & Hf & ->).
    split; [by apply (feed_paths segs)|].
    assert (pool (feed h k s) = pool s) as Hp by apply pool_feed.
    assert (abort (feed h k s) = abort s ∧ observer (feed h k s) = observer s ∧
            coordinator (feed h k s) = coordinator s) as (Ha & Ho & Hco).
    { unfold feed. by repeat case_match. }
    rewrite Hp, Ha, Ho, Hco. repeat split; try done.
    + intros Hab Hin. specialize (Hwd Hab Hin). congruence.
    + by apply Hret.
    + by apply Hret.
  - (* Dispatch *)
    destruct Hl as (k & pc & seg & pc' & Hf & Hw & Hk & Hpc & ->).
    unfold fed in *. simpl. rewrite Hf in Hpaths.
    split; [done|]. split; [|split].
    + intros Hab [->|Hin]%elem_of_insert_WDone.
      * apply worker_step_WDone_inv in Hpc as [[_ [=]]|[_ [=]]].
      * specialize (Hwd Hab Hin). congruence.
    + intros Ho. exfalso. by eapply Forall_WDone_insert; [apply Hobs| |].
    + done.
  - (* Drained *)
    destruct Hl as (pc & pc' & Hf & Hw & Hpc & ->).
    unfold fed in *. simpl. split; [done|]. split; [done|]. split; [|done].
    intros Ho. exfalso. by eapply Forall_WDone_insert; [apply Hobs| |].
  - (* Poll *)
    destruct Hl as (pc & pc' & Hw & Hpc & ->).
    unfold fed in *. simpl. split; [done|]. split; [|split; [|done]].
    + intros Hab [->|Hin]%elem_of_insert_WDone; [|by apply Hwd].
      apply worker_step_WDone_inv in Hpc as [[_ [=]]|[_ [=]]].
    + intros Ho. exfalso. by eapply Forall_WDone_insert; [apply Hobs| |].
  - (* Fetch *)
    destruct Hl as (seg & a & pc' & Hw & Hpc & ->).
    unfold fed in *. simpl. split; [done|]. split; [|split; [|done]].
    + intros Hab [->|Hin]%elem_of_insert_WDone; [|by apply Hwd].
      apply worker_step_WDone_inv in Hpc as [[[=] _]|[[=] _]].
    + intros Ho. exfalso. by eapply Forall_WDone_insert; [apply Hobs| |].
  - (* Sleep *)
    destruct Hl as (pc & pc' & Hw & Hpc & ->).
    unfold fed in *. simpl. split; [done|]. split; [|split; [|done]].
    + intros Hab [->|Hin]%elem_of_insert_WDone; [|by apply Hwd].
      apply worker_step_WDone_inv in Hpc as [[_ [=]]|[_ [=]]].
    + intros Ho. exfalso. by eapply Forall_WDone_insert; [apply Hobs| |].
  - (* Report *)
    destruct Hl as (r & Hw & [[Hrc ->]|(Hrc & Hco & ->)]).
    + unfold fed in *. simpl. done.
    + assert (observer s = OWait) as How.
      { destruct (observer s) eqn:E; [done|..]; exfalso;
          (eapply (Forall_WDone_insert (pool s) w (WSend r) WRecv (Reported r));
           [apply Hobs; congruence|done|]); simpl; by rewrite bool_decide_true. }
      unfold receive. destruct (err r) as [e|] eqn:He.
      * rewrite (Hc2 Hco). unfold fed in *. simpl.
        split; [|done].
        intros i seg Hi. destruct (feeder s); [by apply Hpaths..|lia].
      * unfold fed in *. simpl. split; [done|]. split; [|split].
        -- intros Hab [[=]|Hin]%elem_of_insert_WDone. by apply Hwd.
        -- by rewrite How.
        -- rewrite Hco. done.
  - (* CloseResults *)
    destruct Hl as (Hw & [[Hrc ->]|(Hrc & ->)]).
    + unfold fed in *. simpl. done.
    + assert (abort s = true) as Hab.
      { destruct (abort s) eqn:E; [done|]. destruct (Hc1 eq_refl) as (_ & _ & Hnc).
        rewrite Forall_forall in Hnc. exfalso.
        apply (Hnc WClose); [by eapply list_elem_of_lookup_2|done]. }
      unfold fed in *. simpl. rewrite Hab in *.
      split; [done|]. split; [done|]. split.
      * intros Ho. exfalso.
        by eapply (Forall_WDone_insert (pool s) w WClose WDone ClosedResults);
          [apply Hobs| |].
      * intros Hco. by destruct (Hret Hco).
  - (* NilResult *)
    destruct Hl as (Hco & Hrc & ->). unfold fed in *. simpl. done.
  - (* AllDone *)
    destruct Hl as (Ho & Hall & ->). unfold fed in *. simpl.
    split; [done|]. split; [done|]. split; [done|].
    intros Hco. destruct (Hret Hco) as [? _]. congruence.
  - (* Success *)
    destruct Hl as (Ho & Hco & ->). unfold fed in *. simpl.
    split; [done|]. split; [done|]. split.
    + intros _. apply Hobs. congruence.
    + intros _. split; [done|]. by apply Hc2.
Qed.

Lemma run_staged_so_far (segs : list segment) (sched : list label)
    (s s' : pipeline) :
  run lib h sched s = Some s' →
  coherent s → staged_so_far h segs s → staged_so_far h segs s'.
Proof.
  revert s. induction sched as [|l sched IH]; intros s; simpl.
  - by intros [= <-].
  - destruct (step lib h l s) as [s1|] eqn:Hstep; [|done]. simpl.
    intros Hrun Hc Hs. apply (IH s1 Hrun).
    + by eapply step_coherent.
    + by eapply step_staged_so_far.
Qed.

Lemma await_Some_run (sched : list label) (s0 s : pipeline) (e : option string) :
  await lib h sched s0 = Some (e, s) →
  coordinator s = CReturned e ∧
  ∃ sched1 sched2, sched = sched1 ++ sched2 ∧ run lib h sched1 s0 = Some s.
Proof.
  revert s0. induction sched as [|l sched IH]; intros s0 Haw.
  - simpl in Haw. destruct (coordinator s0) eqn:Hco; [done|].
    injection Haw as <- <-. split; [done|]. by exists [], [].
  - destruct (coordinator s0) as [|e0] eqn:Hco.
    + rewrite await_cons in Haw by done.
      destruct (step lib h l s0) as [s1|] eqn:Hstep; [|done]. simpl in Haw.
      destruct (IH s1 Haw) as (Hc & sched1 & sched2 & -> & Hrun).
      split; [done|]. exists (l :: sched1), sched2. split; [done|].
      simpl. by rewrite Hstep.
    + rewrite (await_returned lib h _ _ e0 Hco) in Haw.
      injection Haw as <- <-. split; [done|]. by exists [], (l :: sched).
Qed.

(** When the fetch phase succeeds, the segment objects handed on to [join]
    are the segments of the playlist, each with the staging path of its
    sequence number. *)
Lemma processSegments_success (segs : list segment) (fs : filesystem)
    (sched : list label) (s : pipeline) :
  1 ≤ workers h →
  processSegments lib h segs fs sched = Some (None, s) →
  abort s = false ∧ feeder s = FDone ∧
  Forall (λ pc, pc = WDone) (pool s) ∧
  SeqId <$> segments s = SeqId <$> segs ∧
  Forall (λ seg, path seg = staging_path h (SeqId seg)) (segments s).
Proof.
  intros Hw Hps. unfold processSegments in Hps.
  apply await_Some_run in Hps as (Hco & sched1 & sched2 & -> & Hrun).
  pose proof (run_staged_so_far segs _ _ _ Hrun (start_coherent h segs fs)
                (start_staged_so_far segs fs))
    as (Hids & Hpaths & Hwd & Hobs & Hret).
  destruct (Hret Hco) as [Ho Hab].
  assert (Forall (λ pc, pc = WDone) (pool s)) as Hall
    by (apply Hobs; congruence).
  assert (WDone ∈ pool s) as Hin.
  { destruct (pool s) as [|pc pool'] eqn:Hp.
    - pose proof (run_pool_length lib h _ _ _ Hrun) as Hlen.
      rewrite Hp in Hlen. simpl in Hlen. rewrite length_replicate in Hlen. lia.
    - apply Forall_cons in Hall as [-> _]. by left. }
  pose proof (Hwd Hab Hin) as Hf.
  repeat split; try done.
  apply Forall_forall. intros seg (i & Hi)%list_elem_of_lookup.
  apply (Hpaths i); [|done]. unfold fed. rewrite Hf, Hab.
  by eapply lookup_lt_Some.
Qed.
End Staging.

(** * Further properties of the package *)

(** ** The decryption unit *)

(** X1. When the payload of a segment contains the sync byte, [decrypt]
    returns the payload from its first 0x47 on: what is cut off in front has
    no 0x47 in it, the result starts with 0x47, and nothing is cut at the
    end. *)
Theorem decrypt_starts_at_first_sync lib seg c net fs (raw data : list byte) :
  os_ReadFile (path seg) fs = Ok raw →
  cleartext lib seg c net raw = Ok data →
  syncByte ∈ data →
  ∃ skipped out,
    decrypt lib seg c net fs = Ok out ∧
    data = skipped ++ out ∧
    (syncByte ∉ skipped) ∧
    head out = Some syncByte.
Proof.
  intros Hread Hclear Hin.
  rewrite (decrypt_unfold _ _ _ _ _ _ Hread).
  unfold payload. rewrite Hclear. simpl.
  unfold trimSync. destruct (sync_scan data) as [d|] eqn:E; simpl.
  - destruct (sync_scan_Some _ _ E) as (sk & Hd & Hsk & Hh).
    by exists sk, d.
  - by apply sync_scan_None in E.
Qed.

Lemma decrypt_starts_at_first_sync_witness :
  let seg := Samples.clear_seg 0 in
  let fs := Samples.staged [(path seg, [x00; x01; "G"; x02; "G"]%byte)] in
  ∃ skipped out,
    decrypt Samples.lib seg (Client 1) Samples.net_key fs = Ok out ∧
    [x00; x01; "G"; x02; "G"]%byte = skipped ++ out ∧
    (syncByte ∉ skipped) ∧
    head out = Some syncByte.
Proof.
  apply (decrypt_starts_at_first_sync Samples.lib (Samples.clear_seg 0)
           (Client 1) Samples.net_key _ [x00; x01; "G"; x02; "G"]%byte).
  - reflexivity.
  - reflexivity.
  - apply (bool_decide_unpack _). vm_compute. exact I.
Defined.

Lemma trimSync_idempotent (data : list byte) :
  trimSync (trimSync data) = trimSync data.
Proof.
  unfold trimSync. destruct (sync_scan data) as [d|] eqn:E; simpl;
    [|by rewrite E].
  destruct (sync_scan_Some _ _ E) as (_ & _ & _ & Hh).
  destruct d as [|b d]; [done|]. injection Hh as ->. simpl.
  by destruct (decide (syncByte = syncByte)).
Qed.

(** X2. Distinct sequence numbers (as [uint64] values) have distinct default
    initialization vectors. *)
Theorem defaultIV_distinct (a b : N) :
  (a < 2 ^ 64)%N → (b < 2 ^ 64)%N → a ≠ b → defaultIV a ≠ defaultIV b.
Proof.
  intros Ha Hb Hne Heq. apply Hne.
  rewrite !defaultIV_layout in Heq. apply app_inv_head in Heq.
  rewrite <- (N.mod_small a (2 ^ 64)), <- (N.mod_small b (2 ^ 64)) by done.
  rewrite <- !bigEndian_roundtrip. by rewrite Heq.
Qed.

Lemma defaultIV_distinct_witness : defaultIV 1 ≠ defaultIV 256.
Proof.
  apply (defaultIV_distinct 1 256).
  - vm_compute. reflexivity.
  - vm_compute. reflexivity.
  - discriminate.
Defined.


Lemma pkcs5UnPadding_never_errs (origData : list byte) (msg : string) :
  pkcs5UnPadding origData ≠ Err msg.
Proof.
  unfold pkcs5UnPadding. destruct (last origData); [|done]. by case_match.
Qed.

(** X3. [decryptAES128] returns an error exactly when the key is not 16, 24
    or 32 bytes long; every other failure is a run-time panic. *)
Theorem decryptAES128_error_iff lib (crypted key iv : list byte) :
  (∃ msg, decryptAES128 lib crypted key iv = Err msg) ↔
  ¬ (length key = 16 ∨ length key = 24 ∨ length key = 32)%nat.
Proof.
  unfold decryptAES128. case_bool_decide as Hk; simpl.
  - split; [|done]. intros [msg Hm].
    case_bool_decide; [done|]. case_bool_decide; simpl in Hm; [|done].
    by apply pkcs5UnPadding_never_errs in Hm.
  - split; [done|]. intros _. by eexists.
Qed.



(** ** The joiner *)

Section JoinFacts.
Context (lib : externals) (h : hlsDownloader) (net : transport).

Lemma file_Write_lookup_None (p q : string) (d : list byte) (fs : filesystem) :
  files fs !! q = None → files (file_Write p d fs) !! q = None.
Proof. intros Hq. simpl. by apply lookup_alter_None. Qed.

Lemma os_RemoveAll_lookup_None (p q : string) (fs : filesystem) :
  files fs !! q = None → files (os_RemoveAll p fs) !! q = None.
Proof.
  intros Hq. unfold os_RemoveAll. case_bool_decide; [done|]. simpl.
  apply map_lookup_filter_None. by left.
Qed.

(** The loop of [join] creates no file: what is missing stays missing. *)
Lemma join_loop_lookup_None (l : list segment) (fs fs' : filesystem)
    (r : result unit) (p : string) :
  join_loop lib h net l fs = (r, fs') →
  files fs !! p = None → files fs' !! p = None.
Proof.
  revert fs. induction l as [|a l IH]; intros fs; simpl.
  - by intros [= _ <-].
  - destruct (decrypt lib a (client h) net fs) as [d| |].
    + intros Hrun Hp. apply (IH _ Hrun).
      by apply os_RemoveAll_lookup_None, file_Write_lookup_None.
    + by intros [= _ <-].
    + by intros [= _ <-].
Qed.

(** A segment whose staging file is missing stops the loop. *)
Lemma join_loop_missing_file (l : list segment) (fs fs' : filesystem)
    (b : segment) :
  b ∈ l → files fs !! path b = None →
  join_loop lib h net l fs ≠ (Ok (), fs').
Proof.
  revert fs. induction l as [|a l IH]; intros fs Hb Hp; [by apply elem_of_nil in Hb|].
  simpl. destruct (decide (path a = path b)) as [Heq|Hne].
  - unfold decrypt, os_ReadFile. rewrite Heq, Hp. simpl. done.
  - apply elem_of_cons in Hb as [->|Hb]; [done|].
    destruct (decrypt lib a (client h) net fs) as [d| |]; [|done..].
    apply IH; [done|].
    by apply os_RemoveAll_lookup_None, file_Write_lookup_None.
Qed.

Lemma join_loop_Ok_NoDup (l : list segment) (fs fs' : filesystem) :
  join_loop lib h net l fs = (Ok (), fs') →
  Forall (λ a, path a ≠ "") l →
  NoDup (path <$> l) ∧ Forall (λ a, files fs' !! path a = None) l.
Proof.
  revert fs. induction l as [|a l IH]; intros fs Hrun Hne.
  - split; [constructor|constructor].
  - apply Forall_cons in Hne as [Ha Hne]. simpl in Hrun.
    destruct (decrypt lib a (client h) net fs) as [d| |] eqn:Hd; [|done..].
    set (fs1 := os_RemoveAll (path a) (file_Write (output h) d fs)) in *.
    assert (files fs1 !! path a = None) as Hgone.
    { unfold fs1. apply os_RemoveAll_lookup_within; [done|apply within_refl]. }
    destruct (IH fs1 Hrun Hne) as [Hnd Hall]. split.
    + simpl. apply NoDup_cons. split; [|done].
      intros (b & Hpb & Hb)%list_elem_of_fmap.
      apply (join_loop_missing_file l fs1 fs' b Hb); [|done]. by rewrite <- Hpb.
    + constructor; [|done]. by eapply join_loop_lookup_None.
Qed.

(** What the loop leaves alone: every path other than the output that is
    not within a staging path of the list. *)
Lemma join_loop_frame (l : list segment) (fs fs' : filesystem)
    (r : result unit) (p : string) :
  join_loop lib h net l fs = (r, fs') →
  p ≠ output h →
  Forall (λ a, within (path a) p = false) l →
  files fs' !! p = files fs !! p.
Proof.
  revert fs. induction l as [|a l IH]; intros fs; simpl.
  - by intros [= _ <-].
  - intros Hrun Hp Hout. apply Forall_cons in Hout as [Ha Hout].
    destruct (decrypt lib a (client h) net fs) as [d| |].
    + rewrite (IH _ Hrun Hp Hout).
      rewrite os_RemoveAll_lookup_outside by done.
      by apply file_Write_lookup_ne.
    + by injection Hrun as _ <-.
    + by injection Hrun as _ <-.
Qed.

Lemma join_loop_app (l1 l2 : list segment) (fs : filesystem) :
  join_loop lib h net (l1 ++ l2) fs =
  match join_loop lib h net l1 fs with
  | (Ok _, fs1) => join_loop lib h net l2 fs1
  | other => other
  end.
Proof.
  revert fs. induction l1 as [|a l1 IH]; intros fs; simpl; [done|].
  destruct (decrypt lib a (client h) net fs); [apply IH|done..].
Qed.
End JoinFacts.

(** X5. A successful [join] leaves none of the staging files behind, whatever
    the segments and the file system were; it succeeds only if the staging
    paths of the segments are pairwise distinct; and it changes no file
    other than the output and what lies within the staging paths. *)
Theorem join_consumes_staging_files lib h net (segs : list segment)
    (fs fs' : filesystem) (out : string) :
  join lib h net segs fs = (Ok out, fs') →
  Forall (λ a, path a ≠ "") segs →
  out = output h ∧
  Forall (λ a, files fs' !! path a = None) segs ∧
  NoDup (path <$> segs) ∧
  ∀ p, p ≠ output h → Forall (λ a, within (path a) p = false) segs →
       files fs' !! p = files fs !! p.
Proof.
  intros Hjoin Hne. unfold join in Hjoin.
  destruct (os_Create (output h) fs) as [[[]|e|e] fs1] eqn:Hc;
    [|discriminate Hjoin..].
  destruct (join_loop lib h net (sort_Slice segs) fs1) as [[[]|e|e] fs2] eqn:Hloop;
    [|discriminate Hjoin..].
  injection Hjoin as <- <-.
  assert (sort_Slice segs ≡ₚ segs) as Hperm by apply merge_sort_Permutation.
  destruct (join_loop_Ok_NoDup lib h net _ _ _ Hloop) as [Hnd Hall].
  { by rewrite Hperm. }
  split; [done|]. split; [by rewrite <- Hperm|]. split; [by rewrite <- Hperm|].
  intros p Hp Hout.
  rewrite (join_loop_frame lib h net _ _ _ _ p Hloop Hp) by by rewrite Hperm.
  apply os_Create_Ok in Hc. subst fs1. simpl. by rewrite lookup_insert_ne.
Qed.

Lemma join_consumes_staging_files_witness :
  let fs' := (join Samples.lib Samples.dl Samples.net_key
                JoinSample.downloads.*1 JoinSample.fs).2 in
  "/out/video.ts" = output Samples.dl ∧
  Forall (λ a, files fs' !! path a = None) JoinSample.downloads.*1 ∧
  NoDup (path <$> JoinSample.downloads.*1) ∧
  ∀ p, p ≠ output Samples.dl →
       Forall (λ a, within (path a) p = false) JoinSample.downloads.*1 →
       files fs' !! p = files JoinSample.fs !! p.
Proof.
  apply (join_consumes_staging_files Samples.lib Samples.dl Samples.net_key
           JoinSample.downloads.*1 JoinSample.fs).
  - vm_compute. reflexivity.
  - repeat constructor; discriminate.
Defined.

Lemma staging_path_nonempty (h : hlsDownloader) (n : N) :
  tmpDir h ≠ "" → staging_path h n ≠ "".
Proof.
  intros Htmp. rewrite staging_path_unfold by done.
  destruct (tmpDir h); [done|]. simpl. discriminate.
Qed.

Lemma decrypt_ext lib (seg : segment) (c : http_client) (net : transport)
    (fs fs' : filesystem) :
  files fs !! path seg = files fs' !! path seg →
  decrypt lib seg c net fs = decrypt lib seg c net fs'.
Proof. intros Heq. unfold decrypt, os_ReadFile. by rewrite Heq. Qed.

(** X6. [join] stops at the first segment, in sequence order, that it cannot
    decrypt, and returns that segment's error.  The output file is left in
    place, holding the payloads of the segments before it; their staging
    files are gone, those of the failed segment and of the later ones are
    as they were. *)
Theorem join_stops_at_first_failure lib h net
    (segs done rest : list segment) (bad : segment)
    (ps : list (list byte)) (fs : filesystem) (e : string) :
  tmpDir h ≠ "" →
  within (tmpDir h) (output h) = false →
  NoDup (SeqId <$> segs) →
  Forall (λ a, path a = staging_path h (SeqId a)) segs →
  sort_Slice segs = done ++ bad :: rest →
  (os_Create (output h) fs).1 = Ok () →
  Forall2 (λ a p, ∃ raw, files fs !! path a = Some raw ∧
                         payload lib a (client h) net raw = Ok p) done ps →
  decrypt lib bad (client h) net fs = Err e →
  ∃ fs', join lib h net segs fs = (Err e, fs') ∧
         files fs' !! output h = Some (concat ps) ∧
         Forall (λ a, files fs' !! path a = None) done ∧
         Forall (λ b, files fs' !! path b = files fs !! path b) (bad :: rest).
Proof.
  intros Htmp Hout Hnd Hpaths Hsort Hcreate Hps Hbad.
  assert (sort_Slice segs ≡ₚ segs) as Hperm by apply merge_sort_Permutation.
  pose proof (sort_Slice_strictly_ascending segs Hnd) as Hasc.
  rewrite <- Hperm, Hsort in Hpaths. rewrite Hsort in Hasc.
  apply Forall_app in Hpaths as [Hpd Hpr].
  assert (∀ a, a ∈ done → path a ≠ output h) as Hne_out.
  { intros a Ha Heq. rewrite Forall_forall in Hpd.
    pose proof (staging_path_outside h Htmp (SeqId a) _ Hout) as Hw.
    rewrite <- (Hpd a Ha), Heq, within_refl in Hw. done. }
  assert (∀ a b, a ∈ done → b ∈ bad :: rest → within (path a) (path b) = false)
    as Hsep.
  { intros a b Ha Hb. apply not_true_is_false. intros Hin.
    rewrite Forall_forall in Hpd, Hpr. rewrite (Hpd a Ha), (Hpr b Hb) in Hin.
    apply staging_path_within in Hin; [|done].
    pose proof (StronglySorted_app_1_elem_of _ _ _ a b Hasc Ha Hb) as Hlt.
    simpl in Hlt. lia. }
  unfold join.
  destruct (os_Create (output h) fs) as [[[]|e'|e'] fs1] eqn:Hc; try done.
  apply os_Create_Ok in Hc. rewrite Hsort, join_loop_app.
  destruct (join_loop_appends lib h net done ps fs1 []) as (fs2 & Hrun & Hfs2).
  - apply StronglySorted_app_1_l in Hasc as Hd.
    eapply StronglySorted_impl_elem; [exact Hd|].
    intros a b Ha Hb Hlt. apply not_true_is_false. intros Hin.
    rewrite Forall_forall in Hpd. rewrite (Hpd a Ha), (Hpd b Hb) in Hin.
    apply staging_path_within in Hin; [|done]. simpl in Hlt. lia.
  - apply Forall_forall. intros a Ha. rewrite Forall_forall in Hpd.
    rewrite (Hpd a Ha). by apply staging_path_outside.
  - eapply Forall2_impl_elem; [exact Hps|].
    intros a p Ha (raw & Hraw & Hp). exists raw. split; [|done].
    subst fs1. simpl. rewrite lookup_insert_ne; [done|].
    intros Heq. by apply (Hne_out a Ha).
  - subst fs1. simpl. apply lookup_insert_eq.
  - rewrite Hrun.
    assert (∀ b, b ∈ bad :: rest → files fs2 !! path b = files fs !! path b)
      as Hframe.
    { intros b Hb.
      assert (path b ≠ output h) as Hb_out.
      { intros Heq. rewrite Forall_forall in Hpr.
        pose proof (staging_path_outside h Htmp (SeqId b) _ Hout) as Hw.
        rewrite <- (Hpr b Hb), Heq, within_refl in Hw. done. }
      rewrite (join_loop_frame lib h net _ _ _ _ (path b) Hrun Hb_out).
      - subst fs1. simpl. by rewrite lookup_insert_ne.
      - apply Forall_forall. intros a Ha. by apply Hsep. }
    exists fs2. simpl.
    rewrite (decrypt_ext lib bad (client h) net fs2 fs), Hbad
      by (apply Hframe; by left).
    split; [done|]. split; [by rewrite Hfs2|]. split.
    + apply (join_loop_Ok_NoDup lib h net done fs1 fs2 Hrun).
      apply Forall_forall. intros a Ha. rewrite Forall_forall in Hpd.
      rewrite (Hpd a Ha). by apply staging_path_nonempty.
    + by apply Forall_forall.
Qed.

Lemma join_stops_at_first_failure_witness :
  let fs := Samples.staged [(path (Samples.clear_seg 2), JoinSample.raw2);
                            (path (Samples.clear_seg 0), JoinSample.raw0)] in
  ∃ fs', join Samples.lib Samples.dl Samples.net_key JoinSample.downloads.*1 fs
           = (Err "open /tmp/1-segments/seg1.ts: no such file or directory", fs') ∧
         files fs' !! output Samples.dl = Some (concat [["G"; "a"]%byte]) ∧
         Forall (λ a, files fs' !! path a = None) [Samples.clear_seg 0] ∧
         Forall (λ b, files fs' !! path b = files fs !! path b)
                [Samples.clear_seg 1; Samples.clear_seg 2].
Proof.
  intros fs.
  apply (join_stops_at_first_failure Samples.lib Samples.dl Samples.net_key
           JoinSample.downloads.*1 [Samples.clear_seg 0] [Samples.clear_seg 2]
           (Samples.clear_seg 1) [["G"; "a"]%byte] fs).
  - simpl. discriminate.
  - reflexivity.
  - apply (bool_decide_unpack _). vm_compute. exact I.
  - repeat constructor; vm_compute; reflexivity.
  - vm_compute. reflexivity.
  - vm_compute. reflexivity.
  - repeat constructor. exists JoinSample.raw0. split; vm_compute; reflexivity.
  - vm_compute. reflexivity.
Defined.

(** [sort.Slice] with the comparison of [join] returns the segments it
    was given, rearranged so that sequence numbers never decrease; when the
    sequence numbers are pairwise distinct they strictly increase, and the
    result is the same for every order in which the segments come in. *)
Lemma sort_Slice_by_sequence_number (segs : list segment) :
  sort_Slice segs ≡ₚ segs ∧
  StronglySorted (λ a b, SeqId a ≤ SeqId b)%N (sort_Slice segs) ∧
  (NoDup (SeqId <$> segs) →
   StronglySorted (λ a b, SeqId a < SeqId b)%N (sort_Slice segs) ∧
   ∀ segs', segs' ≡ₚ segs → sort_Slice segs' = sort_Slice segs).
Proof.
  split; [apply merge_sort_Permutation|]. split.
  - assert (StronglySorted seq_le (sort_Slice segs)) as Hs
      by (apply StronglySorted_merge_sort; apply _).
    eapply StronglySorted_impl_elem; [exact Hs|].
    intros a b _ _ Hab. unfold seq_le in Hab. simpl. lia.
  - intros Hnd. split; [by apply sort_Slice_strictly_ascending|].
    intros segs' Hperm. by apply sort_Slice_Permutation_eq.
Qed.

(** ** Playlist resolution *)

Section Playlist.
Context (lib : externals) (URL : string).

(** What [parseHLSSegments] makes of one entry [s] of the playlist, given
    the key [pkey] of the playlist. *)
Lemma parse_segments_entries (pkey : option m3u8_Key)
    (entries : list (option segment)) (out : list segment) :
  parse_segments lib URL pkey entries = Ok out →
  Forall2 (λ s r,
      SeqId r = SeqId s ∧ path r = path s ∧
      (if strings_Contains (URI s) "http" then URI r = URI s
       else url_resolve lib URL (URI s) = Ok (URI r)) ∧
      match Key s with
      | Some k =>
          if strings_Contains (Key_URI k) "http" then Key r = Some k
          else ∃ u, url_resolve lib URL (Key_URI k) = Ok u ∧
                    Key r = Some {| Key_URI := u; IV := IV k |}
      | None =>
          match pkey with
          | Some pk => ∃ k', Key r = Some k' ∧ IV k' = IV pk
          | None => Key r = None
          end
      end) (omap id entries) out.
Proof.
  revert pkey out. induction entries as [|[s|] entries IH]; intros pkey out.
  - intros [= <-]. constructor.
  - intros H. simpl in H.
    destruct (strings_Contains (URI s) "http") eqn:Hu; simpl in H;
      [|destruct (url_resolve lib URL (URI s)) as [u'| |] eqn:Hures;
        simpl in H; [|done..]];
      (destruct (Key s) as [k|] eqn:Hk; simpl in H; rewrite ?Hk in H; simpl in H;
       [destruct (strings_Contains (Key_URI k) "http") eqn:Hku; simpl in H;
        [|destruct (url_resolve lib URL (Key_URI k)) as [u| |] eqn:Hres;
          simpl in H; [|done..]]
       |destruct pkey as [pk|]; simpl in H;
        [destruct (strings_Contains (Key_URI pk) "http") eqn:Hku; simpl in H;
         [|destruct (url_resolve lib URL (Key_URI pk)) as [u| |] eqn:Hres;
           simpl in H; [|done..]]|]]);
      (match type of H with
       | context [parse_segments lib URL ?pk entries] =>
           destruct (parse_segments lib URL pk entries) as [rest| |] eqn:Hr;
           simpl in H; [|done..]
       end);
      injection H as <-;
      (constructor; [simpl; rewrite ?Hu, ?Hk, ?Hku; eauto 10|]);
      first [by apply IH
            |eapply Forall2_impl; [by apply IH|];
             intros s' r' (? & ? & ? & Hkey); repeat split; try done;
             by destruct (Key s')].
  - apply IH.
Qed.
End Playlist.

(** X7. When [parseHLSSegments] returns segments, the playlist URL was
    answered with status 200 to the default client, the body decoded to a
    media playlist, and the segments are the non-empty entries of that
    playlist, in the playlist's order and with their sequence numbers: a
    reference that does not contain "http" replaced by its resolution
    against the playlist URL, a key of the segment's own kept (its URI
    resolved likewise), and a segment without key given a key with the IV
    of the playlist's key, or none when the playlist has none. *)
Theorem parseHLSSegments_resolves lib (URL : string) (hd : http_Header)
    (net : transport) (out : list segment) :
  parseHLSSegments lib URL hd net = Ok out →
  ∃ status body entries pkey,
    net DefaultClient {| req_url := URL; req_header := hd |}
      = Response 200 status body None ∧
    m3u8_DecodeFrom lib body = Ok (MediaPlaylist entries pkey) ∧
    Forall2 (λ s r,
      SeqId r = SeqId s ∧ path r = path s ∧
      (if strings_Contains (URI s) "http" then URI r = URI s
       else url_resolve lib URL (URI s) = Ok (URI r)) ∧
      match Key s with
      | Some k =>
          if strings_Contains (Key_URI k) "http" then Key r = Some k
          else ∃ u, url_resolve lib URL (Key_URI k) = Ok u ∧
                    Key r = Some {| Key_URI := u; IV := IV k |}
      | None =>
          match pkey with
          | Some pk => ∃ k', Key r = Some k' ∧ IV k' = IV pk
          | None => Key r = None
          end
      end) (omap id entries) out.
Proof.
  unfold parseHLSSegments, getM3u8ListType, newRequest.
  destruct (url_valid lib URL); simpl; [|done].
  destruct (net DefaultClient _) as [e|code status body berr] eqn:Hnet; simpl; [done|].
  destruct (code =? 200) eqn:Hcode; simpl; [|done].
  apply Z.eqb_eq in Hcode as ->.
  destruct berr as [e|]; simpl; [done|].
  destruct (m3u8_DecodeFrom lib body) as [[|entries pkey]| |] eqn:Hdec; simpl;
    [done| |done..].
  intros Hparse. exists status, body, entries, pkey.
  split; [done|]. split; [done|]. by apply parse_segments_entries.
Qed.

Lemma parseHLSSegments_resolves_witness :
  parseHLSSegments PlaylistSample.lib "http://host/index.m3u8" ∅
                   DownloadSample.origin = Ok PlaylistSample.resolved ∧
  ∃ status body entries pkey,
    DownloadSample.origin DefaultClient
        {| req_url := "http://host/index.m3u8"; req_header := ∅ |}
      = Response 200 status body None ∧
    m3u8_DecodeFrom PlaylistSample.lib body = Ok (MediaPlaylist entries pkey) ∧
    Forall2 (λ s r,
      SeqId r = SeqId s ∧ path r = path s ∧
      (if strings_Contains (URI s) "http" then URI r = URI s
       else url_resolve PlaylistSample.lib "http://host/index.m3u8" (URI s)
            = Ok (URI r)) ∧
      match Key s with
      | Some k =>
          if strings_Contains (Key_URI k) "http" then Key r = Some k
          else ∃ u, url_resolve PlaylistSample.lib "http://host/index.m3u8"
                      (Key_URI k) = Ok u ∧
                    Key r = Some {| Key_URI := u; IV := IV k |}
      | None =>
          match pkey with
          | Some pk => ∃ k', Key r = Some k' ∧ IV k' = IV pk
          | None => Key r = None
          end
      end) (omap id entries) PlaylistSample.resolved.
Proof.
  split; [vm_compute; reflexivity|].
  apply (parseHLSSegments_resolves PlaylistSample.lib "http://host/index.m3u8" ∅
           DownloadSample.origin PlaylistSample.resolved).
  vm_compute. reflexivity.
Defined.

(** ** One download attempt *)

Section Attempt.
Context (lib : externals) (h : hlsDownloader).

Lemma downloadSegment_frame (seg : segment) (net : transport) (fs : filesystem)
    (p : string) :
  p ≠ path seg →
  files (downloadSegment lib h seg net fs).2 !! p = files fs !! p.
Proof.
  intros Hp. unfold downloadSegment.
  destruct (newRequest lib (URI seg) (header h)) as [req| |]; [|done..].
  destruct (net (client h) req) as [e|code status body berr]; [done|].
  destruct (negb (code =? 200)); [done|].
  destruct (os_Create (path seg) fs) as [[[]|e|e] fs1] eqn:Hc.
  - apply os_Create_Ok in Hc. subst fs1. simpl.
    rewrite lookup_alter_ne by done. by rewrite lookup_insert_ne.
  - unfold os_Create in Hc. by repeat case_bool_decide; simplify_eq.
  - unfold os_Create in Hc. by repeat case_bool_decide; simplify_eq.
Qed.

Lemma downloadSegment_dirs (seg : segment) (net : transport) (fs : filesystem) :
  dirs (downloadSegment lib h seg net fs).2 = dirs fs.
Proof.
  unfold downloadSegment.
  destruct (newRequest lib (URI seg) (header h)) as [req| |]; [|done..].
  destruct (net (client h) req) as [e|code status body berr]; [done|].
  destruct (negb (code =? 200)); [done|].
  unfold os_Create. by repeat case_bool_decide.
Qed.

Lemma downloadSegment_keeps (seg : segment) (net : transport) (fs : filesystem)
    (p : string) :
  is_Some (files fs !! p) →
  is_Some (files (downloadSegment lib h seg net fs).2 !! p).
Proof.
  intros Hp. destruct (decide (p = path seg)) as [->|Hne].
  - unfold downloadSegment.
    destruct (newRequest lib (URI seg) (header h)) as [req| |]; [|done..].
    destruct (net (client h) req) as [e|code status body berr]; [done|].
    destruct (negb (code =? 200)); [done|].
    unfold os_Create. repeat case_bool_decide; try done. simpl.
    rewrite lookup_alter_eq, lookup_insert_eq. by eexists.
  - by rewrite downloadSegment_frame.
Qed.

Lemma downloadSegment_nil (seg : segment) (net : transport) (fs : filesystem) :
  (downloadSegment lib h seg net fs).1 = None →
  ∃ status body,
    net (client h) {| req_url := URI seg; req_header := header h |}
      = Response 200 status body None ∧
    files (downloadSegment lib h seg net fs).2 !! path seg = Some body.
Proof.
  unfold downloadSegment, newRequest.
  destruct (url_valid lib (URI seg)); [|done].
  destruct (net (client h) _) as [e|code status body berr]; [done|].
  destruct (code =? 200) eqn:Hcode; simpl; [|done].
  apply Z.eqb_eq in Hcode as ->.
  destruct (os_Create (path seg) fs) as [[[]|e|e] fs1] eqn:Hc; [|done..].
  simpl. intros ->. exists status, body. split; [done|].
  apply os_Create_Ok in Hc. subst fs1. simpl.
  by rewrite lookup_alter_eq, lookup_insert_eq.
Qed.

Lemma downloadSegment_refused (seg : segment) (net : transport) (fs : filesystem) :
  (∀ status body berr,
     net (client h) {| req_url := URI seg; req_header := header h |}
       ≠ Response 200 status body berr) →
  ∃ e, downloadSegment lib h seg net fs = (Some e, fs).
Proof.
  unfold downloadSegment, newRequest. intros Hnet.
  destruct (url_valid lib (URI seg)); [|by eexists].
  destruct (net (client h) _) as [e|code status body berr]; [by eexists|].
  destruct (code =? 200) eqn:Hcode; simpl; [|by eexists].
  apply Z.eqb_eq in Hcode as ->. by destruct (Hnet status body berr).
Qed.
End Attempt.

(** X8. One call of [downloadSegment] touches no directory and no file
    other than the staging file of its segment, and removes no file.  When
    it returns nil, the request for the segment's URI, sent by the client of
    the downloader with its headers, was answered with status 200 and a body
    that was read to its end, and the staging file holds exactly that body,
    whatever it held before.  When the answer is not a 200 response, it
    returns an error and leaves the file system as it was. *)
Theorem downloadSegment_stages_response_body lib (h : hlsDownloader)
    (seg : segment) (net : transport) (fs : filesystem) :
  let req := {| req_url := URI seg; req_header := header h |} in
  let e := (downloadSegment lib h seg net fs).1 in
  let fs' := (downloadSegment lib h seg net fs).2 in
  dirs fs' = dirs fs ∧
  (∀ p, p ≠ path seg → files fs' !! p = files fs !! p) ∧
  (∀ p, is_Some (files fs !! p) → is_Some (files fs' !! p)) ∧
  (e = None →
   ∃ status body, net (client h) req = Response 200 status body None ∧
                  files fs' !! path seg = Some body) ∧
  ((∀ status body berr, net (client h) req ≠ Response 200 status body berr) →
   is_Some e ∧ fs' = fs).
Proof.
  simpl. split; [apply downloadSegment_dirs|].
  split; [intros p; apply downloadSegment_frame|].
  split; [intros p; apply downloadSegment_keeps|].
  split; [apply downloadSegment_nil|].
  intros Hnet.
  destruct (downloadSegment_refused lib h seg net fs Hnet) as [e ->]. by split.
Qed.

(** ** What the fetch phase has staged *)

Section Fetched.
Context (lib : externals) (h : hlsDownloader) (Htmp : tmpDir h ≠ "").
Context (nets : transport → Prop).

Lemma start_downloads_so_far (segs : list segment) (fs : filesystem) :
  downloads_so_far h nets (start h segs fs).
Proof.
  intros _. simpl. split; [|split].
  - intros w pc seg [-> _]%lookup_replicate. done.
  - intros w1 w2 pc1 pc2 seg [-> _]%lookup_replicate. done.
  - intros i seg Hi. unfold dispatched in Hi. simpl in Hi. lia.
Qed.

Lemma seg_index_inj (l : list segment) (i j : nat) (a : segment) :
  NoDup (SeqId <$> l) → l !! i = Some a → l !! j = Some a → i = j.
Proof.
  intros Hnd Hi Hj. apply (NoDup_lookup _ i j (SeqId a) Hnd);
    by rewrite list_lookup_fmap, ?Hi, ?Hj.
Qed.

Lemma seg_path_inj (l : list segment) (i j : nat) (a b : segment) :
  NoDup (SeqId <$> l) → l !! i = Some a → l !! j = Some b →
  path a = staging_path h (SeqId a) → path b = staging_path h (SeqId b) →
  path a = path b → a = b.
Proof.
  intros Hnd Hi Hj Ha Hb Heq. rewrite Ha, Hb in Heq.
  apply (staging_path_inj h Htmp) in Heq.
  assert (i = j) as ->; [|congruence].
  apply (NoDup_lookup _ i j (SeqId a) Hnd); rewrite list_lookup_fmap.
  - by rewrite Hi.
  - by rewrite Hj, Heq.
Qed.

(** A step that keeps the feeder, the segments and the disk, and moves
    workers without changing what they are busy with. *)
Lemma downloads_so_far_sim (s s' : pipeline) :
  abort s = false →
  segments s' = segments s → disk s' = disk s → dispatched s' = dispatched s →
  (∀ w pc', pool s' !! w = Some pc' →
     ∃ pc, pool s !! w = Some pc ∧ carries pc = carries pc') →
  (∀ w pc, pool s !! w = Some pc →
     ∃ pc', pool s' !! w = Some pc' ∧ carries pc' = carries pc ∧
            failing pc' = failing pc) →
  downloads_so_far h nets s → downloads_so_far h nets s'.
Proof.
  intros Hab Hsegs Hdisk Hdis Hback Hforth Hinv _.
  destruct (Hinv Hab) as (H1 & H4 & H2).
  rewrite Hsegs, Hdisk, Hdis. split; [|split].
  - intros w pc' seg Hw Hc. destruct (Hback w pc' Hw) as (pc & Hpc & Heq).
    apply (H1 w pc seg Hpc). congruence.
  - intros w1 w2 pc1 pc2 seg Hw1 Hw2 Hc1 Hc2.
    destruct (Hback w1 pc1 Hw1) as (pc1' & Hpc1 & Heq1).
    destruct (Hback w2 pc2 Hw2) as (pc2' & Hpc2 & Heq2).
    apply (H4 w1 w2 pc1' pc2' seg); congruence.
  - intros i seg Hi Hseg.
    destruct (H2 i seg Hi Hseg) as [(w & pc & Hw & Hor)|[Hf Hno]].
    + left. destruct (Hforth w pc Hw) as (pc' & Hpc' & Hc & Hfl).
      exists w, pc'. split; [done|]. by rewrite Hc, Hfl.
    + right. split; [done|]. intros w pc' Hw Hc.
      destruct (Hback w pc' Hw) as (pc & Hpc & Heq).
      apply (Hno w pc Hpc). congruence.
Qed.

(** One worker moves on, busy with what it was busy with. *)
Lemma downloads_so_far_move (s s' : pipeline) (w : nat) (pc pc' : worker_pc) :
  abort s = false →
  segments s' = segments s → disk s' = disk s → feeder s' = feeder s →
  pool s !! w = Some pc → pool s' = <[w := pc']> (pool s) →
  carries pc' = carries pc → failing pc' = failing pc →
  downloads_so_far h nets s → downloads_so_far h nets s'.
Proof.
  intros Hab Hsegs Hdisk Hfeed Hw Hpool Hc Hfl.
  apply downloads_so_far_sim; try done.
  - unfold dispatched. by rewrite Hfeed, Hsegs.
  - intros w0 pc0 Hw0. rewrite Hpool in Hw0.
    apply list_lookup_insert_Some in Hw0 as [(<- & <- & _)|[Hne Hw0]].
    + by exists pc.
    + by exists pc0.
  - intros w0 pc0 Hw0. rewrite Hpool. destruct (decide (w0 = w)) as [->|Hne].
    + exists pc'. rewrite list_lookup_insert_eq by by eapply lookup_lt_Some.
      by simplify_eq.
    + exists pc0. by rewrite list_lookup_insert_ne.
Qed.

Lemma downloads_so_far_same (s s' : pipeline) :
  abort s = false →
  segments s' = segments s → disk s' = disk s → feeder s' = feeder s →
  pool s' = pool s →
  downloads_so_far h nets s → downloads_so_far h nets s'.
Proof.
  intros Hab Hsegs Hdisk Hfeed Hpool.
  apply downloads_so_far_sim; try done.
  - unfold dispatched. by rewrite Hfeed, Hsegs.
  - intros w pc'. rewrite Hpool. by exists pc'.
  - intros w pc. rewrite Hpool. by exists pc.
Qed.
End Fetched.

Section FetchedStep.
Context (lib : externals) (h : hlsDownloader) (Htmp : tmpDir h ≠ "").
Context (nets : transport → Prop) (segs : list segment).
Context (Hnd : NoDup (SeqId <$> segs)).

Lemma dispatched_le_fed (s : pipeline) :
  abort s = false → (dispatched s ≤ fed s)%nat.
Proof.
  intros Hab. unfold dispatched, fed. destruct (feeder s); try lia.
  rewrite Hab. lia.
Qed.

Lemma step_downloads_so_far (l : label) (s s' : pipeline) :
  step lib h l s = Some s' →
  (∀ w net, l = Fetch w net → nets net) →
  staged_so_far h segs s →
  downloads_so_far h nets s → downloads_so_far h nets s'.
Proof.
  intros Hs Hnets (Hids & Hpaths & _) Hinv.
  destruct (abort s') eqn:Hab'; [intros Ha; congruence|].
  assert (abort s = false) as Hab.
  { destruct (abort s) eqn:E; [|done].
    by rewrite (step_abort_mono lib h _ _ _ Hs E) in Hab'. }
  assert (NoDup (SeqId <$> segments s)) as Hnd' by by rewrite Hids.
  destruct (step_inv lib h _ _ _ Hs) as [Hcr Hl].
  destruct l as [|w|w|w|w net|w d|w|w| | |].
  - (* Feed *)
    destruct Hl as (k & Hf & ->). intros _.
    destruct (Hinv Hab) as (H1 & H4 & H2).
    unfold feed. destruct (segments s !! k) as [segk|] eqn:Hk.
    + rewrite Hab. unfold dispatched in *. rewrite Hf in *. simpl.
      split; [|split; [done|]].
      * intros w pc seg Hw Hc. destruct (H1 w pc seg Hw Hc) as (j & Hj & Hseg).
        exists j. split; [done|]. rewrite list_lookup_insert_ne by lia. done.
      * intros i seg Hi Hseg. rewrite list_lookup_insert_ne in Hseg by lia.
        by apply (H2 i).
    + unfold dispatched in *. rewrite Hf in *. simpl.
      apply lookup_ge_None in Hk.
      split; [|split; [done|]].
      * intros w pc seg Hw Hc. destruct (H1 w pc seg Hw Hc) as (j & Hj & Hseg).
        exists j. split; [|done]. by eapply lookup_lt_Some.
      * intros i seg Hi Hseg. apply (H2 i); [|done].
        apply lookup_lt_Some in Hseg. lia.
  - (* Dispatch *)
    destruct Hl as (k & pc & seg & pc' & Hf & Hw & Hk & Hpc & ->). intros _.
    destruct (Hinv Hab) as (H1 & H4 & H2).
    assert (pc = WRecv ∧ pc' = WCheck seg 0) as [-> ->].
    { destruct pc; simpl in Hpc; try done. by injection Hpc as <-. }
    unfold dispatched in *. rewrite Hf in *. simpl.
    split; [|split].
    + intros w0 pc0 seg0 Hw0 Hc.
      apply list_lookup_insert_Some in Hw0 as [(<- & <- & _)|[Hne Hw0]].
      * simpl in Hc. injection Hc as <-. exists k. split; [lia|done].
      * destruct (H1 w0 pc0 seg0 Hw0 Hc) as (j & Hj & Hseg).
        exists j. split; [lia|done].
    + intros w1 w2 pc1 pc2 seg0 Hw1 Hw2 Hc1 Hc2.
      apply list_lookup_insert_Some in Hw1 as [(<- & <- & _)|[Hne1 Hw1]];
        apply list_lookup_insert_Some in Hw2 as [(<- & <- & _)|[Hne2 Hw2]].
      * done.
      * simpl in Hc1. injection Hc1 as <-.
        destruct (H1 w2 pc2 seg Hw2 Hc2) as (j & Hj & Hseg).
        pose proof (seg_index_inj _ _ _ _ Hnd' Hseg Hk). lia.
      * simpl in Hc2. injection Hc2 as <-.
        destruct (H1 w1 pc1 seg Hw1 Hc1) as (j & Hj & Hseg).
        pose proof (seg_index_inj _ _ _ _ Hnd' Hseg Hk). lia.
      * by apply (H4 w1 w2 pc1 pc2 seg0).
    + intros i segi Hi Hseg. destruct (decide (i = k)) as [->|Hne].
      * left. exists w, (WCheck seg 0).
        rewrite list_lookup_insert_eq by by eapply lookup_lt_Some.
        split; [done|]. left. simpl. congruence.
      * destruct (H2 i segi) as [(w0 & pc0 & Hw0 & Hor)|[Hfe Hno]]; [lia|done| |].
        -- left. exists w0, pc0. split; [|done].
           rewrite list_lookup_insert_ne; [done|].
           intros <-. rewrite Hw in Hw0. injection Hw0 as <-.
           by destruct Hor.
        -- right. split; [done|]. intros w0 pc0 Hw0.
           apply list_lookup_insert_Some in Hw0 as [(<- & <- & _)|[Hne0 Hw0]].
           ++ simpl. intros [= ->]. apply Hne.
              by apply (seg_index_inj _ _ _ _ Hnd' Hseg Hk).
           ++ by apply (Hno w0).
  - (* Drained *)
    destruct Hl as (pc & pc' & Hf & Hw & Hpc & ->).
    apply (downloads_so_far_move h nets s _ w pc pc'); try done;
      destruct pc; simpl in Hpc; try done; by injection Hpc as <-.
  - (* Poll *)
    destruct Hl as (pc & pc' & Hw & Hpc & ->). rewrite Hab in Hpc.
    apply (downloads_so_far_move h nets s _ w pc pc'); try done;
      destruct pc; simpl in Hpc; try done; by injection Hpc as <-.
  - (* Fetch *)
    destruct Hl as (seg & a & pc' & Hw & Hpc & ->). intros _.
    destruct (Hinv Hab) as (H1 & H4 & H2).
    pose proof (dispatched_le_fed s Hab) as Hle.
    destruct (H1 w _ seg Hw eq_refl) as (j & Hj & Hsegj).
    assert (carries pc' = Some seg ∨
            (carries pc' = None ∧
             (failing pc' = true ∨
              (downloadSegment lib h seg net (disk s)).1 = None))) as Hpc'.
    { simpl in Hpc.
      destruct (downloadSegment lib h seg net (disk s)).1 as [e|] eqn:He.
      - destruct (_ && _); injection Hpc as <-; [by left|].
        right. split; [done|]. by left.
      - injection Hpc as <-. right. split; [done|]. by right. }
    clear Hpc. unfold dispatched in *. simpl.
    split; [|split].
    + intros w0 pc0 seg0 Hw0 Hc.
      apply list_lookup_insert_Some in Hw0 as [(<- & <- & _)|[Hne Hw0]].
      * destruct Hpc' as [Hc'|[Hc' _]]; [|congruence].
        assert (seg0 = seg) as -> by congruence. by exists j.
      * by apply (H1 w0 pc0).
    + intros w1 w2 pc1 pc2 seg0 Hw1 Hw2 Hc1 Hc2.
      assert (∀ w0 pc0, <[w := pc']> (pool s) !! w0 = Some pc0 →
                carries pc0 = Some seg0 →
                ∃ pc, pool s !! w0 = Some pc ∧ carries pc = Some seg0) as Hback.
      { intros w0 pc0 Hw0 Hc.
        apply list_lookup_insert_Some in Hw0 as [(<- & <- & _)|[Hne Hw0]].
        - destruct Hpc' as [Hc'|[Hc' _]]; [|congruence].
          exists (WDownload seg a). split; [done|]. simpl. congruence.
        - by exists pc0. }
      destruct (Hback w1 pc1 Hw1 Hc1) as (pc1' & Hw1' & Hc1').
      destruct (Hback w2 pc2 Hw2 Hc2) as (pc2' & Hw2' & Hc2').
      by apply (H4 w1 w2 pc1' pc2' seg0).
    + intros i segi Hi Hsegi.
      destruct (H2 i segi Hi Hsegi) as [(w0 & pc0 & Hw0 & Hor)|[Hfe Hno]].
      * destruct (decide (w0 = w)) as [->|Hne].
        -- rewrite Hw in Hw0. injection Hw0 as <-.
           destruct Hor as [[= <-]|Hfl]; [|done].
           destruct Hpc' as [Hc'|[Hc' [Hfl|Hnil]]].
           ++ left. exists w, pc'.
              rewrite list_lookup_insert_eq by by eapply lookup_lt_Some. auto.
           ++ left. exists w, pc'.
              rewrite list_lookup_insert_eq by by eapply lookup_lt_Some. auto.
           ++ right. split.
              ** destruct (downloadSegment_nil lib h seg net (disk s) Hnil)
                   as (status & body & Hnet & Hfile).
                 exists net, status, body. split; [by eapply Hnets|]. done.
              ** intros w0 pc0 Hw0 Hc.
                 apply list_lookup_insert_Some in Hw0 as [(<- & <- & _)|[Hne Hw0]].
                 --- congruence.
                 --- apply Hne. by apply (H4 w w0 (WDownload seg a) pc0 seg).
        -- left. exists w0, pc0. by rewrite list_lookup_insert_ne.
      * right. assert (segi ≠ seg) as Hsne.
        { intros ->. by apply (Hno w (WDownload seg a)). }
        split.
        -- destruct Hfe as (net0 & status & body & Hn0 & Hnet0 & Hfile).
           exists net0, status, body. split; [done|]. split; [done|].
           rewrite downloadSegment_frame; [done|].
           intros Heq. apply Hsne.
           apply (seg_path_inj h Htmp (segments s) i j segi seg); try done.
           ++ apply (Hpaths i); [lia|done].
           ++ apply (Hpaths j); [lia|done].
        -- intros w0 pc0 Hw0 Hc.
           apply list_lookup_insert_Some in Hw0 as [(<- & <- & _)|[Hne Hw0]].
           ++ destruct Hpc' as [Hc'|[Hc' _]]; congruence.
           ++ by apply (Hno w0 pc0).
  - (* Sleep *)
    destruct Hl as (pc & pc' & Hw & Hpc & ->).
    apply (downloads_so_far_move h nets s _ w pc pc'); try done;
      destruct pc; simpl in Hpc; try done;
      destruct (d =? time_Second); try done; by injection Hpc as <-.
  - (* Report *)
    destruct Hl as (r & Hw & [[Hrc ->]|(Hrc & Hco & ->)]).
    + by apply (downloads_so_far_same h nets s).
    + destruct (err r) as [e|] eqn:Herr.
      { unfold receive in Hab'. rewrite Herr, Hab in Hab'. done. }
      apply (downloads_so_far_move h nets s _ w (WSend r) WRecv); try done;
        try (unfold receive; by rewrite Herr).
      simpl. symmetry. apply bool_decide_eq_false. rewrite Herr.
      by intros [? ?].
  - (* CloseResults *)
    destruct Hl as (Hw & [[Hrc ->]|[Hrc ->]]).
    + by apply (downloads_so_far_same h nets s).
    + by apply (downloads_so_far_move h nets s _ w WClose WDone).
  - destruct Hl as (_ & _ & ->). by apply (downloads_so_far_same h nets s).
  - destruct Hl as (_ & _ & ->). by apply (downloads_so_far_same h nets s).
  - destruct Hl as (_ & _ & ->). by apply (downloads_so_far_same h nets s).
Qed.
End FetchedStep.

Section FetchedRun.
Context (lib : externals) (h : hlsDownloader) (Htmp : tmpDir h ≠ "").

Lemma start_segments_of (segs : list segment) (fs : filesystem) :
  segments_of h segs (start h segs fs).
Proof. unfold segments_of. simpl. apply Forall2_same_length_lookup_2; [done|]. intros i a b Ha Hb. left. congruence. Qed.

Lemma step_segments_of (segs : list segment) (l : label) (s s' : pipeline) :
  step lib h l s = Some s' → segments_of h segs s → segments_of h segs s'.
Proof.
  intros Hs Hseg. destruct (step_inv lib h _ _ _ Hs) as [_ Hl].
  destruct l as [|w|w|w|w net|w d|w|w| | |].
  - destruct Hl as (k & Hf & ->). unfold segments_of, feed in *.
    destruct (segments s !! k) as [segk|] eqn:Hk; [|done].
    destruct (abort s); [done|]. simpl.
    destruct (Forall2_lookup_l _ _ _ _ _ Hseg Hk) as (b & Hb & Hor).
    rewrite <- (list_insert_id segs k b Hb).
    apply Forall2_insert; [done|]. right. unfold staging_path.
    by destruct Hor as [->| ->].
  - by destruct Hl as (k & pc & seg & pc' & _ & _ & _ & _ & ->).
  - by destruct Hl as (pc & pc' & _ & _ & _ & ->).
  - by destruct Hl as (pc & pc' & _ & _ & ->).
  - by destruct Hl as (seg & a & pc' & _ & _ & ->).
  - by destruct Hl as (pc & pc' & _ & _ & ->).
  - destruct Hl as (r & _ & [[_ ->]|(_ & _ & ->)]); [done|].
    unfold segments_of, receive in *. simpl. by repeat case_match.
  - by destruct Hl as (_ & [[_ ->]|[_ ->]]).
  - by destruct Hl as (_ & _ & ->).
  - by destruct Hl as (_ & _ & ->).
  - by destruct Hl as (_ & _ & ->).
Qed.

Lemma run_segments_of (segs : list segment) (sched : list label)
    (s s' : pipeline) :
  run lib h sched s = Some s' → segments_of h segs s → segments_of h segs s'.
Proof.
  revert s. induction sched as [|l sched IH]; intros s; simpl.
  - by intros [= <-].
  - destruct (step lib h l s) as [s1|] eqn:Hstep; [|done]. simpl.
    intros Hrun Hs. apply (IH s1 Hrun). by eapply step_segments_of.
Qed.

Lemma run_downloads_so_far (nets : transport → Prop) (segs : list segment)
    (sched : list label) (s s' : pipeline) :
  NoDup (SeqId <$> segs) →
  run lib h sched s = Some s' →
  (∀ w net, Fetch w net ∈ sched → nets net) →
  coherent s → staged_so_far h segs s →
  downloads_so_far h nets s → downloads_so_far h nets s'.
Proof.
  intros Hnd. revert s. induction sched as [|l sched IH]; intros s; simpl.
  - by intros [= <-].
  - destruct (step lib h l s) as [s1|] eqn:Hstep; [|done]. simpl.
    intros Hrun Hnets Hc Hst Hinv. apply (IH s1 Hrun).
    + intros w net Hin. apply (Hnets w). by right.
    + by eapply step_coherent.
    + by eapply step_staged_so_far.
    + eapply (step_downloads_so_far lib h Htmp nets segs Hnd); try done.
      intros w net ->. apply (Hnets w). by left.
Qed.
End FetchedRun.

(** What a successful fetch phase leaves on the disk. *)
Lemma processSegments_stages_all lib (h : hlsDownloader)
    (segs : list segment) (fs : filesystem) (sched : list label)
    (s : pipeline) :
  tmpDir h ≠ "" → 1 ≤ workers h → NoDup (SeqId <$> segs) →
  processSegments lib h segs fs sched = Some (None, s) →
  segments s = (λ seg, set_path seg (staging_path h (SeqId seg))) <$> segs ∧
  Forall (λ seg, ∃ w net status body,
            Fetch w net ∈ sched ∧
            net (client h) {| req_url := URI seg; req_header := header h |}
              = Response 200 status body None ∧
            files (disk s) !! staging_path h (SeqId seg) = Some body) segs.
Proof.
  intros Htmp Hw Hnd Hps.
  destruct (processSegments_success lib h segs fs sched s Hw Hps)
    as (Hab & Hfd & Hdone & Hids & Hpaths).
  unfold processSegments in Hps.
  apply await_Some_run in Hps as (Hco & sched1 & sched2 & -> & Hrun).
  pose proof (run_segments_of lib h segs _ _ _ Hrun (start_segments_of h segs fs))
    as Hof.
  assert (segments s = (λ seg, set_path seg (staging_path h (SeqId seg))) <$> segs)
    as Hsegs.
  { apply list_eq_same_length with (length segs).
    - by rewrite length_fmap.
    - by apply (Forall2_length _ _ _ Hof).
    - intros i a b Hi Ha Hb. rewrite list_lookup_fmap in Hb.
      destruct (Forall2_lookup_l _ _ _ _ _ Hof Ha) as (c & Hc & Hor).
      rewrite Hc in Hb. injection Hb as <-.
      rewrite Forall_forall in Hpaths.
      pose proof (Hpaths a (list_elem_of_lookup_2 _ _ _ Ha)) as Hp.
      destruct Hor as [->| ->]; [|done].
      destruct c as [n u k p]. simpl in *. unfold set_path. simpl. by rewrite Hp. }
  split; [done|].
  pose proof (run_downloads_so_far lib h Htmp (λ net, ∃ w, Fetch w net ∈ sched1)
                segs sched1 _ _ Hnd Hrun) as Hinv.
  destruct Hinv as (_ & _ & H2); try done.
  { intros w net Hin. by exists w. }
  { apply start_coherent. }
  { apply start_staged_so_far. }
  { apply start_downloads_so_far. }
  apply Forall_forall. intros seg Hseg.
  apply list_elem_of_lookup in Hseg as [i Hi].
  assert (segments s !! i = Some (set_path seg (staging_path h (SeqId seg))))
    as Hsi by by rewrite Hsegs, list_lookup_fmap, Hi.
  assert (i < dispatched s)%nat as Hlt.
  { unfold dispatched. rewrite Hfd. by eapply lookup_lt_Some. }
  destruct (H2 i _ Hlt Hsi) as [(w & pc & Hpc & Hor)|[Hfe _]].
  - rewrite Forall_forall in Hdone.
    rewrite (Hdone pc (list_elem_of_lookup_2 _ _ _ Hpc)) in Hor.
    by destruct Hor.
  - destruct Hfe as (net & status & body & [w Hin] & Hnet & Hfile).
    exists w, net, status, body. simpl in *.
    split; [|done]. apply elem_of_app. by left.
Qed.

(** X9. When [processSegments] returns nil (with at least one worker, a
    staging directory and pairwise distinct sequence numbers), the segment
    objects are those of the playlist, each with its staging path, and for
    every one of them the staging file holds the complete body of a 200
    response that a worker received, in one of the download attempts of the
    run, to the request for the segment's URI made by the client of the
    downloader with its headers. *)
Theorem processSegments_stages_every_segment lib (h : hlsDownloader)
    (segs : list segment) (fs : filesystem) (sched : list label)
    (s : pipeline) :
  tmpDir h ≠ "" → 1 ≤ workers h → NoDup (SeqId <$> segs) →
  processSegments lib h segs fs sched = Some (None, s) →
  segments s = (λ seg, set_path seg (staging_path h (SeqId seg))) <$> segs ∧
  Forall (λ seg, ∃ w net status body,
            Fetch w net ∈ sched ∧
            net (client h) {| req_url := URI seg; req_header := header h |}
              = Response 200 status body None ∧
            files (disk s) !! staging_path h (SeqId seg) = Some body) segs.
Proof. apply processSegments_stages_all. Qed.

Lemma processSegments_stages_every_segment_witness :
  let segs := [Samples.clear_seg 0; Samples.clear_seg 1; Samples.clear_seg 2] in
  let sched := schedule DownloadSample.env_ok in
  ∃ s, processSegments (DownloadSample.lib_of DownloadSample.playlist)
         Samples.dl segs (Samples.staged []) sched = Some (None, s) ∧
       segments s = (λ seg, set_path seg (staging_path Samples.dl (SeqId seg)))
                      <$> segs ∧
       Forall (λ seg, ∃ w net status body,
                 Fetch w net ∈ sched ∧
                 net (client Samples.dl)
                     {| req_url := URI seg; req_header := header Samples.dl |}
                   = Response 200 status body None ∧
                 files (disk s) !! staging_path Samples.dl (SeqId seg)
                   = Some body) segs.
Proof.
  intros segs sched. eexists. split; [vm_compute; reflexivity|].
  apply (processSegments_stages_every_segment
           (DownloadSample.lib_of DownloadSample.playlist) Samples.dl segs
           (Samples.staged []) sched).
  - simpl. discriminate.
  - simpl. lia.
  - apply (bool_decide_unpack _). vm_compute. exact I.
  - vm_compute. reflexivity.
Defined.

(** ** From the playlist to the output file *)

Section JoinBack.
Context (lib : externals) (h : hlsDownloader) (net : transport).


End JoinBack.

Lemma payload_set_path lib (seg : segment) (p : string) (c : http_client)
    (net : transport) (raw : list byte) :
  payload lib (set_path seg p) c net raw = payload lib seg c net raw.
Proof. reflexivity. Qed.





(** ** Counting progress *)

Section Progress.
Context (lib : externals) (h : hlsDownloader).

Lemma busy_insert (l : list worker_pc) (w : nat) (pc pc' : worker_pc) :
  l !! w = Some pc →
  (length (filter (λ pc, busy pc = true) (<[w := pc']> l))
   + (if busy pc then 1 else 0)
   = length (filter (λ pc, busy pc = true) l) + (if busy pc' then 1 else 0))%nat.
Proof.
  intros Hw. rewrite <- (take_drop_middle l w pc Hw) at 2.
  rewrite insert_take_drop by by eapply lookup_lt_Some.
  rewrite !filter_app, !length_app, !filter_cons.
  destruct (decide (busy pc = true)) as [->|Hn];
    destruct (decide (busy pc' = true)) as [->|Hn']; simpl; try lia.
  - apply not_true_is_false in Hn'. rewrite Hn'. lia.
  - apply not_true_is_false in Hn. rewrite Hn. lia.
  - apply not_true_is_false in Hn, Hn'. rewrite Hn, Hn'. lia.
Qed.

Lemma start_progress_so_far (segs : list segment) (fs : filesystem) :
  progress_so_far h (start h segs fs).
Proof.
  intros _. unfold dispatched, busy_workers. simpl.
  split; [lia|]. split; [done|]. exists 0%nat. split.
  - destruct (bar h) as [n|]; simpl; [|done]. f_equal. lia.
  - induction (Z.to_nat (workers h)) as [|n IH]; [done|]. simpl.
    rewrite filter_cons. by destruct (decide _).
Qed.

(** A step in which one worker moves and stays as busy as it was. *)
Lemma progress_so_far_move (s s' : pipeline) (w : nat) (pc pc' : worker_pc) :
  abort s = false →
  segments s' = segments s → feeder s' = feeder s → progress s' = progress s →
  pool s !! w = Some pc → pool s' = <[w := pc']> (pool s) →
  busy pc' = busy pc →
  progress_so_far h s → progress_so_far h s'.
Proof.
  intros Hab Hsegs Hfeed Hprog Hw Hpool Hb Hinv _.
  destruct (Hinv Hab) as (Hle & Hsend & c & Hc & Hsum).
  unfold dispatched, busy_workers in *. rewrite Hsegs, Hfeed, Hprog, Hpool.
  split; [done|]. split; [done|]. exists c. split; [done|].
  pose proof (busy_insert (pool s) w pc pc' Hw) as Hins. rewrite Hb in Hins. lia.
Qed.

Lemma progress_so_far_same (s s' : pipeline) :
  abort s = false →
  segments s' = segments s → feeder s' = feeder s → progress s' = progress s →
  pool s' = pool s →
  progress_so_far h s → progress_so_far h s'.
Proof.
  intros Hab Hsegs Hfeed Hprog Hpool Hinv _.
  destruct (Hinv Hab) as (Hle & Hsend & c & Hc & Hsum).
  unfold dispatched, busy_workers in *. rewrite Hsegs, Hfeed, Hprog, Hpool.
  split; [done|]. split; [done|]. by exists c.
Qed.

Lemma step_progress_so_far (l : label) (s s' : pipeline) :
  step lib h l s = Some s' → progress_so_far h s → progress_so_far h s'.
Proof.
  intros Hs Hinv.
  destruct (abort s') eqn:Hab'; [intros Ha; congruence|].
  assert (abort s = false) as Hab.
  { destruct (abort s) eqn:E; [|done].
    by rewrite (step_abort_mono lib h _ _ _ Hs E) in Hab'. }
  destruct (step_inv lib h _ _ _ Hs) as [Hcr Hl].
  destruct l as [|w|w|w|w net|w d|w|w| | |].
  - (* Feed *)
    destruct Hl as (k & Hf & ->). intros _.
    destruct (Hinv Hab) as (Hle & Hsend & c & Hc & Hsum).
    unfold feed, dispatched, busy_workers in *. rewrite Hf in *.
    destruct (segments s !! k) as [segk|] eqn:Hk.
    + rewrite Hab. simpl. rewrite length_insert.
      apply lookup_lt_Some in Hk.
      split; [lia|]. split; [by intros ? [= <-]|]. by exists c.
    + simpl. apply lookup_ge_None in Hk.
      split; [lia|]. split; [done|]. exists c. split; [done|]. lia.
  - (* Dispatch *)
    destruct Hl as (k & pc & seg & pc' & Hf & Hw & Hk & Hpc & ->). intros _.
    destruct (Hinv Hab) as (Hle & Hsend & c & Hc & Hsum).
    assert (pc = WRecv ∧ pc' = WCheck seg 0) as [-> ->].
    { destruct pc; simpl in Hpc; try done. by injection Hpc as <-. }
    unfold dispatched, busy_workers in *. rewrite Hf in *. simpl.
    apply lookup_lt_Some in Hk.
    split; [lia|]. split; [done|]. exists c. split; [done|].
    pose proof (busy_insert (pool s) w WRecv (WCheck seg 0) Hw) as Hins.
    simpl in Hins. lia.
  - (* Drained *)
    destruct Hl as (pc & pc' & Hf & Hw & Hpc & ->).
    apply (progress_so_far_move s _ w pc pc'); try done;
      destruct pc; simpl in Hpc; try done; by injection Hpc as <-.
  - (* Poll *)
    destruct Hl as (pc & pc' & Hw & Hpc & ->). rewrite Hab in Hpc.
    apply (progress_so_far_move s _ w pc pc'); try done;
      destruct pc; simpl in Hpc; try done; by injection Hpc as <-.
  - (* Fetch *)
    destruct Hl as (seg & a & pc' & Hw & Hpc & ->).
    apply (progress_so_far_move s _ w (WDownload seg a) pc'); try done.
    simpl in Hpc.
    destruct (downloadSegment lib h seg net (disk s)).1 as [e|];
      [destruct (_ && _)|]; by injection Hpc as <-.
  - (* Sleep *)
    destruct Hl as (pc & pc' & Hw & Hpc & ->).
    apply (progress_so_far_move s _ w pc pc'); try done;
      destruct pc; simpl in Hpc; try done;
      destruct (d =? time_Second); try done; by injection Hpc as <-.
  - (* Report *)
    destruct Hl as (r & Hw & [[Hrc ->]|(Hrc & Hco & ->)]).
    + by apply (progress_so_far_same s).
    + destruct (err r) as [e|] eqn:Herr.
      { unfold receive in Hab'. rewrite Herr, Hab in Hab'. done. }
      intros _. destruct (Hinv Hab) as (Hle & Hsend & c & Hc & Hsum).
      unfold dispatched, busy_workers, receive in *. rewrite Herr. simpl.
      split; [done|]. split; [done|]. exists (S c). split.
      * rewrite Hc. unfold Increment. destruct (bar h); simpl; [|done].
        f_equal. lia.
      * pose proof (busy_insert (pool s) w (WSend r) WRecv Hw) as Hins.
        simpl in Hins. lia.
  - (* CloseResults *)
    destruct Hl as (Hw & [[Hrc ->]|[Hrc ->]]).
    + by apply (progress_so_far_same s).
    + by apply (progress_so_far_move s _ w WClose WDone).
  - destruct Hl as (_ & _ & ->). by apply (progress_so_far_same s).
  - destruct Hl as (_ & _ & ->). by apply (progress_so_far_same s).
  - destruct Hl as (_ & _ & ->). by apply (progress_so_far_same s).
Qed.

Lemma run_progress_so_far (sched : list label) (s s' : pipeline) :
  run lib h sched s = Some s' → progress_so_far h s → progress_so_far h s'.
Proof.
  revert s. induction sched as [|l sched IH]; intros s; simpl.
  - by intros [= <-].
  - destruct (step lib h l s) as [s1|] eqn:Hstep; [|done]. simpl.
    intros Hrun Hs. apply (IH s1 Hrun). by eapply step_progress_so_far.
Qed.

Lemma busy_workers_all_done (s : pipeline) :
  Forall (λ pc, pc = WDone) (pool s) → busy_workers s = 0%nat.
Proof.
  unfold busy_workers. induction 1 as [|pc l -> _ IH]; [done|].
  rewrite filter_cons. by destruct (decide _).
Qed.
End Progress.

(** X11. When [processSegments] returns nil (with at least one worker), the
    progress sink, if there is one, has been stepped exactly once for every
    segment of the playlist; no goroutine has panicked, and neither the abort
    channel nor the result channel has been closed. *)
Theorem processSegments_counts_every_segment lib (h : hlsDownloader)
    (segs : list segment) (fs : filesystem) (sched : list label)
    (s : pipeline) :
  1 ≤ workers h →
  processSegments lib h segs fs sched = Some (None, s) →
  progress s = (λ n, (n + length segs)%nat) <$> bar h ∧
  crashed s = None ∧ abort s = false ∧ results_closed s = false.
Proof.
  intros Hw Hps.
  destruct (processSegments_success lib h segs fs sched s Hw Hps)
    as (Hab & Hfd & Hdone & Hids & _).
  unfold processSegments in Hps.
  apply await_Some_run in Hps as (Hco & sched1 & sched2 & -> & Hrun).
  destruct (run_coherent lib h _ _ _ Hrun (start_coherent h segs fs)) as [Hc1 _].
  destruct (Hc1 Hab) as (Hrc & Hcr & _).
  destruct (run_progress_so_far lib h _ _ _ Hrun (start_progress_so_far h segs fs)
              Hab) as (_ & _ & c & Hc & Hsum).
  rewrite (busy_workers_all_done s Hdone) in Hsum.
  unfold dispatched in Hsum. rewrite Hfd in Hsum.
  assert (length (segments s) = length segs) as Hlen.
  { by rewrite <- (length_fmap SeqId (segments s)), Hids, length_fmap. }
  split; [|done]. rewrite Hc. replace c with (length segs) by lia. done.
Qed.

Lemma processSegments_counts_every_segment_witness :
  let segs := [Samples.clear_seg 0; Samples.clear_seg 1; Samples.clear_seg 2] in
  ∃ s, processSegments (DownloadSample.lib_of DownloadSample.playlist)
         DownloadSample.dl2 segs (Samples.staged [])
         (schedule DownloadSample.env_0_then_1) = Some (None, s) ∧
       progress s = (λ n, (n + length segs)%nat) <$> bar DownloadSample.dl2 ∧
       crashed s = None ∧ abort s = false ∧ results_closed s = false.
Proof.
  intros segs. eexists. split; [vm_compute; reflexivity|].
  apply (processSegments_counts_every_segment
           (DownloadSample.lib_of DownloadSample.playlist) DownloadSample.dl2
           segs (Samples.staged []) (schedule DownloadSample.env_0_then_1)).
  - simpl. lia.
  - vm_compute. reflexivity.
Defined.

(** ** Where a reported error comes from *)

Section Failures.
Context (lib : externals) (h : hlsDownloader) (segs : list segment).
Context (errs : segment → string → Prop).

Lemma start_failures_so_far (fs : filesystem) :
  failures_so_far h segs errs (start h segs fs).
Proof.
  split; [|done]. simpl. apply Forall_forall.
  intros pc [-> _]%elem_of_replicate. done.
Qed.

Lemma failures_so_far_move (s s' : pipeline) (w : nat) (pc' : worker_pc) :
  pool s' = <[w := pc']> (pool s) → coordinator s' = coordinator s →
  abort s' = abort s →
  explained h segs errs pc' →
  failures_so_far h segs errs s → failures_so_far h segs errs s'.
Proof.
  intros Hpool Hco Hab Hpc' [Hall Hret]. split.
  - rewrite Hpool. by apply Forall_insert.
  - by rewrite Hco, Hab.
Qed.

Lemma failures_so_far_same (s s' : pipeline) :
  pool s' = pool s → coordinator s' = coordinator s → abort s' = abort s →
  failures_so_far h segs errs s → failures_so_far h segs errs s'.
Proof. intros Hpool Hco Hab [Hall Hret]. split; by rewrite ?Hpool, ?Hco, ?Hab. Qed.

Lemma step_failures_so_far (l : label) (s s' : pipeline) :
  step lib h l s = Some s' →
  (∀ w net seg e, l = Fetch w net →
     (downloadSegment lib h seg net (disk s)).1 = Some e → errs seg e) →
  staged_so_far h segs s → segments_of h segs s →
  failures_so_far h segs errs s → failures_so_far h segs errs s'.
Proof.
  intros Hs Herrs (Hids & Hpaths & _) Hof Hinv.
  destruct (step_inv lib h _ _ _ Hs) as [Hcr Hl].
  pose proof Hinv as [Hall Hret]. rewrite Forall_forall in Hall.
  assert (∀ w pc, pool s !! w = Some pc → explained h segs errs pc) as Hexp.
  { intros w pc Hw. apply Hall. by eapply list_elem_of_lookup_2. }
  destruct l as [|w|w|w|w net|w d|w|w| | |].
  - (* Feed *)
    destruct Hl as (k & Hf & ->).
    apply (failures_so_far_same s); [apply pool_feed| | |done];
      unfold feed; by repeat case_match.
  - (* Dispatch *)
    destruct Hl as (k & pc & seg & pc' & Hf & Hw & Hk & Hpc & ->).
    apply (failures_so_far_move s _ w pc'); try done.
    destruct pc; simpl in Hpc; try done. injection Hpc as <-. simpl.
    destruct (Forall2_lookup_l _ _ _ _ _ Hof Hk) as (b & Hb & Hor).
    apply list_elem_of_fmap. exists b. split; [|by eapply list_elem_of_lookup_2].
    destruct Hor as [->| ->]; [|done].
    assert (path b = staging_path h (SeqId b)) as Hp.
    { apply (Hpaths k); [|done]. unfold fed. rewrite Hf. lia. }
    destruct b as [n u key p]. simpl in *. unfold set_path. simpl. by rewrite Hp.
  - (* Drained *)
    destruct Hl as (pc & pc' & Hf & Hw & Hpc & ->).
    apply (failures_so_far_move s _ w pc'); try done.
    destruct pc; simpl in Hpc; try done. by injection Hpc as <-.
  - (* Poll *)
    destruct Hl as (pc & pc' & Hw & Hpc & ->).
    apply (failures_so_far_move s _ w pc'); try done.
    specialize (Hexp w pc Hw).
    destruct pc; simpl in Hpc; try done.
    destruct (abort s); by injection Hpc as <-.
  - (* Fetch *)
    destruct Hl as (seg & a & pc' & Hw & Hpc & ->).
    apply (failures_so_far_move s _ w pc'); try done.
    specialize (Hexp w _ Hw). simpl in Hexp, Hpc.
    destruct (downloadSegment lib h seg net (disk s)).1 as [e|] eqn:He.
    + destruct (_ && _); injection Hpc as <-; [done|].
      simpl. intros e' [= <-]. exists seg. split; [done|].
      by apply (Herrs w net).
    + injection Hpc as <-. simpl. done.
  - (* Sleep *)
    destruct Hl as (pc & pc' & Hw & Hpc & ->).
    apply (failures_so_far_move s _ w pc'); try done.
    specialize (Hexp w pc Hw).
    destruct pc; simpl in Hpc; try done.
    destruct (d =? time_Second); try done. by injection Hpc as <-.
  - (* Report *)
    destruct Hl as (r & Hw & [[Hrc ->]|(Hrc & Hco & ->)]).
    + by apply (failures_so_far_same s).
    + specialize (Hexp w _ Hw). simpl in Hexp.
      split.
      * simpl. rewrite pool_receive. by apply Forall_insert; [apply Forall_forall|].
      * simpl. unfold receive. destruct (err r) as [e|] eqn:Herr.
        -- destruct (abort s); simpl; [by rewrite Hco|].
           intros e' [= <-]. split; [done|]. by apply Hexp.
        -- simpl. by rewrite Hco.
  - (* CloseResults *)
    destruct Hl as (Hw & [[Hrc ->]|[Hrc ->]]).
    + by apply (failures_so_far_same s).
    + by apply (failures_so_far_move s _ w WDone).
  - destruct Hl as (_ & _ & ->). by apply (failures_so_far_same s).
  - destruct Hl as (_ & _ & ->). by apply (failures_so_far_same s).
  - destruct Hl as (_ & Hco & ->). destruct Hinv as [Hall' _].
    split; [done|]. simpl. done.
Qed.
End Failures.

Section FailuresRun.
Context (lib : externals) (h : hlsDownloader) (segs : list segment).

(** The download errors of a schedule: what [downloadSegment] returns for
    a segment on the network of one of the attempts. *)
Lemma run_failures_so_far (all : list label) (sched : list label)
    (s s' : pipeline) :
  let errs := λ seg e, ∃ w net fs0, Fetch w net ∈ all ∧
                (downloadSegment lib h seg net fs0).1 = Some e in
  run lib h sched s = Some s' → sched ⊆ all →
  coherent s → staged_so_far h segs s → segments_of h segs s →
  failures_so_far h segs errs s → failures_so_far h segs errs s'.
Proof.
  intros errs. revert s. induction sched as [|l sched IH]; intros s; simpl.
  - by intros [= <-].
  - destruct (step lib h l s) as [s1|] eqn:Hstep; [|done]. simpl.
    intros Hrun Hsub Hc Hst Hof Hinv. apply (IH s1 Hrun).
    + intros x Hx. apply Hsub. by right.
    + by eapply step_coherent.
    + by eapply step_staged_so_far.
    + by eapply step_segments_of.
    + eapply (step_failures_so_far lib h segs errs); try done.
      intros w net seg e -> He. exists w, net, (disk s). split; [|done].
      apply Hsub. by left.
Qed.
End FailuresRun.

(** X12. The error [processSegments] returns is the error that
    [downloadSegment] returned to a worker in one of the download attempts
    of the run, for a segment of the playlist under its staging path; the
    abort channel is closed by then. *)
Theorem processSegments_error_is_a_download_error lib (h : hlsDownloader)
    (segs : list segment) (fs : filesystem) (sched : list label)
    (s : pipeline) (e : string) :
  processSegments lib h segs fs sched = Some (Some e, s) →
  abort s = true ∧
  ∃ seg w net fs0,
    seg ∈ segs ∧ Fetch w net ∈ sched ∧
    (downloadSegment lib h (set_path seg (staging_path h (SeqId seg))) net fs0).1
      = Some e.
Proof.
  intros Hps. unfold processSegments in Hps.
  apply await_Some_run in Hps as (Hco & sched1 & sched2 & -> & Hrun).
  pose proof (run_failures_so_far lib h segs sched1 sched1 _ _ Hrun) as Hinv.
  simpl in Hinv. destruct Hinv as [_ Hret]; try done.
  { apply start_coherent. }
  { apply start_staged_so_far. }
  { apply start_segments_of. }
  { apply start_failures_so_far. }
  destruct (Hret e Hco) as (Hab & seg' & Hin & w & net & fs0 & Hfetch & He).
  split; [done|].
  apply list_elem_of_fmap in Hin as (seg & -> & Hin).
  exists seg, w, net, fs0. split; [done|]. split; [|done].
  apply elem_of_app. by left.
Qed.

Lemma processSegments_error_is_a_download_error_witness :
  let segs := [Samples.clear_seg 0; Samples.clear_seg 1; Samples.clear_seg 2] in
  let lib := DownloadSample.lib_of DownloadSample.playlist in
  let sched := schedule DownloadSample.env_s1_down in
  ∃ s, processSegments lib Samples.dl segs (Samples.staged []) sched
         = Some (Some "500 Internal Server Error", s) ∧
       abort s = true ∧
       ∃ seg w net fs0,
         seg ∈ segs ∧ Fetch w net ∈ sched ∧
         (downloadSegment lib Samples.dl
            (set_path seg (staging_path Samples.dl (SeqId seg))) net fs0).1
           = Some "500 Internal Server Error".
Proof.
  intros segs lib sched. eexists. split; [vm_compute; reflexivity|].
  apply (processSegments_error_is_a_download_error lib Samples.dl segs
           (Samples.staged []) sched).
  vm_compute. reflexivity.
Defined.

(** ** Results that come too late *)

Section Pending.
Context (lib : externals) (h : hlsDownloader).

Lemma worker_step_WSend_inv (r : downloadResult) (o : worker_obs)
    (pc' : worker_pc) :
  worker_step (WSend r) o = Some pc' → ∃ r', o = Reported r'.
Proof. destruct o; simpl; try done. eauto. Qed.

Lemma step_pending (l : label) (s s' : pipeline) (e : option string)
    (w : nat) (r : downloadResult) :
  coordinator s = CReturned e → pool s !! w = Some (WSend r) →
  step lib h l s = Some s' → pool s' !! w = Some (WSend r).
Proof.
  intros Hco Hw Hs. destruct (step_inv lib h _ _ _ Hs) as [_ Hl].
  assert (∀ w0 pc pc' o, pool s !! w0 = Some pc → worker_step pc o = Some pc' →
            (∀ r', o ≠ Reported r') →
            <[w0 := pc']> (pool s) !! w = Some (WSend r)) as Hmove.
  { intros w0 pc pc' o Hw0 Hpc Ho. destruct (decide (w0 = w)) as [->|Hne].
    - rewrite Hw in Hw0. injection Hw0 as <-.
      apply worker_step_WSend_inv in Hpc as [r' ->]. by destruct (Ho r').
    - by rewrite list_lookup_insert_ne. }
  destruct l as [|w0|w0|w0|w0 net|w0 d|w0|w0| | |].
  - destruct Hl as (k & _ & ->). by rewrite pool_feed.
  - destruct Hl as (k & pc & seg & pc' & _ & Hw0 & _ & Hpc & ->). simpl.
    by apply (Hmove w0 pc pc' (Took seg)).
  - destruct Hl as (pc & pc' & _ & Hw0 & Hpc & ->). simpl.
    by apply (Hmove w0 pc pc' QueueClosed).
  - destruct Hl as (pc & pc' & Hw0 & Hpc & ->). simpl.
    by apply (Hmove w0 pc pc' (Polled (abort s))).
  - destruct Hl as (seg & a & pc' & Hw0 & Hpc & ->). simpl.
    by apply (Hmove w0 _ pc' _ Hw0 Hpc).
  - destruct Hl as (pc & pc' & Hw0 & Hpc & ->). simpl.
    by apply (Hmove w0 pc pc' (Slept d)).
  - destruct Hl as (r0 & _ & [[_ ->]|(_ & Hsel & _)]); [done|congruence].
  - destruct Hl as (Hw0 & [[_ ->]|[_ ->]]); [done|]. simpl.
    by apply (Hmove w0 WClose WDone ClosedResults).
  - by destruct Hl as (_ & _ & ->).
  - by destruct Hl as (_ & _ & ->).
  - by destruct Hl as (_ & _ & ->).
Qed.

Lemma run_pending (sched : list label) (s s' : pipeline) (e : option string)
    (w : nat) (r : downloadResult) :
  coordinator s = CReturned e → pool s !! w = Some (WSend r) →
  run lib h sched s = Some s' → pool s' !! w = Some (WSend r).
Proof.
  revert s. induction sched as [|l sched IH]; intros s Hco Hw; simpl.
  - by intros [= <-].
  - destruct (step lib h l s) as [s1|] eqn:Hstep; [|done]. simpl.
    apply IH.
    + by eapply step_coordinator_stable.
    + by eapply step_pending.
Qed.
End Pending.

(** X13. A result that a worker still holds when [processSegments] returns
    is never received: however the goroutines go on, the worker stays at
    its send on the result channel, and that send can only block or, once
    another worker has closed the channel, panic. *)
Theorem result_after_return_is_never_received lib (h : hlsDownloader)
    (segs : list segment) (fs : filesystem) (sched more : list label)
    (e : option string) (s s' : pipeline) (w : nat) (r : downloadResult) :
  processSegments lib h segs fs sched = Some (e, s) →
  pool s !! w = Some (WSend r) →
  run lib h more s = Some s' →
  pool s' !! w = Some (WSend r) ∧
  (step lib h (Report w) s' = None ∨
   ∃ s'', step lib h (Report w) s' = Some s'' ∧
          crashed s'' = Some "send on closed channel").
Proof.
  intros Hps Hw Hrun. unfold processSegments in Hps.
  apply await_Some_run in Hps as (Hco & _).
  pose proof (run_pending lib h _ _ _ _ _ _ Hco Hw Hrun) as Hw'.
  pose proof (run_coordinator_stable lib h _ _ _ _ Hrun Hco) as Hco'.
  split; [done|]. unfold step. case_bool_decide; [|by left].
  rewrite Hw'. simpl. destruct (results_closed s').
  - right. by eexists.
  - left. by rewrite Hco'.
Qed.

Lemma result_after_return_is_never_received_witness :
  ∃ s s',
    processSegments Samples.lib DownloadSample.dl2 PendingSample.segs
      (Samples.staged []) PendingSample.until_return
      = Some (Some "500 Internal Server Error", s) ∧
    run Samples.lib DownloadSample.dl2 [Feed] s = Some s' ∧
    pool s' !! 1%nat = Some (WSend PendingSample.pending) ∧
    (step Samples.lib DownloadSample.dl2 (Report 1) s' = None ∨
     ∃ s'', step Samples.lib DownloadSample.dl2 (Report 1) s' = Some s'' ∧
            crashed s'' = Some "send on closed channel").
Proof.
  eexists. eexists. split; [vm_compute; reflexivity|].
  split; [vm_compute; reflexivity|].
  eapply (result_after_return_is_never_received Samples.lib DownloadSample.dl2
            PendingSample.segs (Samples.staged []) PendingSample.until_return
            [Feed] (Some "500 Internal Server Error")).
  - vm_compute. reflexivity.
  - vm_compute. reflexivity.
  - vm_compute. reflexivity.
Defined.

(** ** What [Download] leaves alone *)


Section DiskFrame.
Context (lib : externals) (h : hlsDownloader) (Htmp : tmpDir h ≠ "").
Context (segs : list segment) (errs : segment → string → Prop).

End DiskFrame.

Section DiskFrameRun.
Context (lib : externals) (h : hlsDownloader) (Htmp : tmpDir h ≠ "").
Context (segs : list segment).


End DiskFrameRun.






(** ** Validation of the parameters *)

Lemma ext_scan_ts (f : string) : ext_scan (f +:+ ".ts") = Some ".ts".
Proof. induction f as [|c f IH]; [done|]. simpl. by rewrite IH. Qed.

Lemma filepath_Ext_ts (f : string) : filepath_Ext (f +:+ ".ts") = ".ts".
Proof. unfold filepath_Ext. by rewrite ext_scan_ts. Qed.

Lemma append_nonempty_r (a b : string) : b ≠ "" → a +:+ b ≠ "".
Proof. intros Hb. destruct a; [done|]. simpl. discriminate. Qed.

(** What [validateOutput] returns, after however many rounds. *)
Lemma validateOutput_Ok_inv (sys : host) (fuel tick : nat) (output : string)
    (fs : filesystem) (out : outParams) :
  validateOutput sys fuel tick output fs = Some (Ok out) →
  out_filename out ≠ "" ∧
  out_extension out ≠ "" ∧
  filepath_Ext (out_filename out) = out_extension out ∧
  out_output out = filepath_Join2 sys (out_path out) (out_filename out) ∧
  ∃ notExist msg, os_Stat sys fs (out_output out) = StatError notExist msg.
Proof.
  revert tick output. induction fuel as [|fuel IH]; intros tick output; [done|].
  simpl.
  destruct (if bool_decide (output = "") then os_Getwd sys else Ok output)
    as [output'| |]; [|done..].
  destruct (filepath_Split output') as [dir name].
  destruct (if bool_decide (dir = "") then os_Getwd sys else Ok dir)
    as [dir'| |]; [|done..].
  set (name' := if bool_decide (name = "") then _ else name).
  assert (name' ≠ "") as Hname'.
  { unfold name'. case_bool_decide; [|done]. by apply append_nonempty_r. }
  destruct (bool_decide (filepath_Ext name' = "")) eqn:Hext.
  - destruct (os_Stat sys fs (filepath_Join2 sys dir' (name' +:+ ".ts")))
      as [nx msg|? ? ?] eqn:Hstat; [|apply IH].
    intros [= <-]. simpl. split; [by apply append_nonempty_r|].
    split; [done|]. split; [apply filepath_Ext_ts|]. split; [done|]. eauto.
  - apply bool_decide_eq_false in Hext.
    destruct (os_Stat sys fs (filepath_Join2 sys dir' name'))
      as [nx msg|? ? ?] eqn:Hstat; [|apply IH].
    intros [= <-]. simpl. repeat split; try done. eauto.
Qed.



(** X16. When no output is given, the output parameters are made from the
    working directory as if it had been given as the output: the file is
    named after the last element of the working directory (with ".ts"
    added when that has no extension) and lies in the directory above it;
    the time-stamped name is not used. *)
Theorem validateOutput_without_output (sys : host) (fuel tick : nat)
    (fs : filesystem) (cwd dir name : string) :
  os_Getwd sys = Ok cwd →
  filepath_Split cwd = (dir, name) → dir ≠ "" → name ≠ "" →
  let name' :=
    if bool_decide (filepath_Ext name = "") then name +:+ ".ts" else name in
  (∃ notExist msg,
     os_Stat sys fs (filepath_Join2 sys dir name') = StatError notExist msg) →
  validateOutput sys (S fuel) tick "" fs
    = validateOutput sys (S fuel) tick cwd fs ∧
  validateOutput sys (S fuel) tick "" fs
    = Some (Ok {| out_output := filepath_Join2 sys dir name'; out_path := dir;
                  out_filename := name'; out_extension := filepath_Ext name' |}).
Proof.
  intros Hwd Hsplit Hdir Hname name' (nx & msg & Hstat).
  assert (cwd ≠ "") as Hcwd by (intros ->; simpl in Hsplit; congruence).
  assert (∀ output0,
            (if bool_decide (output0 = "") then os_Getwd sys else Ok output0)
              = Ok cwd →
            validateOutput sys (S fuel) tick output0 fs
            = Some (Ok {| out_output := filepath_Join2 sys dir name';
                          out_path := dir; out_filename := name';
                          out_extension := filepath_Ext name' |})) as Hcall.
  { intros output0 H0. simpl. rewrite H0, Hsplit.
    rewrite (bool_decide_false (dir = "")), (bool_decide_false (name = "")) by done.
    unfold name' in *. destruct (bool_decide (filepath_Ext name = "")) eqn:Hext.
    - rewrite Hstat. by rewrite filepath_Ext_ts.
    - by rewrite Hstat. }
  rewrite (Hcall ""), (Hcall cwd); [done| |done].
  by rewrite bool_decide_false.
Qed.

Lemma validateOutput_without_output_witness :
  validateOutput ValidationSample.sys 1 0 "" ValidationSample.fs
    = validateOutput ValidationSample.sys 1 0 "/home/u/proj" ValidationSample.fs ∧
  validateOutput ValidationSample.sys 1 0 "" ValidationSample.fs
    = Some (Ok {| out_output := "/home/u/proj.ts"; out_path := "/home/u/";
                  out_filename := "proj.ts"; out_extension := ".ts" |}).
Proof.
  apply (validateOutput_without_output ValidationSample.sys 0 0
           ValidationSample.fs "/home/u/proj" "/home/u/" "proj").
  - reflexivity.
  - reflexivity.
  - discriminate.
  - discriminate.
  - eexists _, _. vm_compute. reflexivity.
Defined.

Lemma os_Remove_lookup (p : string) (fs : filesystem) :
  files (os_Remove p fs) !! p = None.
Proof.
  unfold os_Remove. case_bool_decide as Hp; simpl; [apply lookup_delete_eq|].
  apply eq_None_not_Some in Hp. by case_bool_decide.
Qed.

Lemma os_Remove_lookup_ne (p q : string) (fs : filesystem) :
  p ≠ q → files (os_Remove p fs) !! q = files fs !! q.
Proof.
  intros Hne. unfold os_Remove. case_bool_decide; simpl.
  - by apply lookup_delete_ne.
  - by case_bool_decide.
Qed.

Lemma os_Create_lookup_ne (p q : string) (fs : filesystem) :
  p ≠ q → files (os_Create p fs).2 !! q = files fs !! q.
Proof.
  intros Hne. unfold os_Create. repeat case_bool_decide; simpl; try done.
  by apply lookup_insert_ne.
Qed.

Lemma testFileWrite_cases (sys : host) (out : outParams) (fs : filesystem) :
  let r := testFileWrite sys out fs in
  (create_denied sys (out_output out) = true ∧
   r = (Some os_ErrPermission, fs)) ∨
  (create_denied sys (out_output out) = false ∧ r.1 = None ∧
   files r.2 !! out_output out = None ∧
   ∀ p, p ≠ out_output out → files r.2 !! p = files fs !! p).
Proof.
  unfold testFileWrite. destruct (create_denied sys (out_output out)); [by left|].
  right. split; [done|].
  destruct (os_Create (out_output out) fs) as [r1 fs1] eqn:Hc. simpl.
  split; [done|]. split; [apply os_Remove_lookup|].
  intros p Hp. rewrite os_Remove_lookup_ne by done.
  replace fs1 with (os_Create (out_output out) fs).2 by by rewrite Hc.
  by apply os_Create_lookup_ne.
Qed.

(** X17. [testFileWrite] returns an error only when [os.Create] is refused
    for lack of permission, and then it is [os.ErrPermission] and nothing
    has changed.  In every other case, also when the file could not be
    created for another reason, it returns nil, and afterwards there is no
    file under the output path, whether there was one before or not; the
    other files are as they were. *)
Theorem testFileWrite_leaves_no_file (sys : host) (out : outParams)
    (fs : filesystem) :
  let r := testFileWrite sys out fs in
  (create_denied sys (out_output out) = true ∧
   r = (Some os_ErrPermission, fs)) ∨
  (create_denied sys (out_output out) = false ∧ r.1 = None ∧
   files r.2 !! out_output out = None ∧
   ∀ p, p ≠ out_output out → files r.2 !! p = files fs !! p).
Proof. apply testFileWrite_cases. Qed.

Lemma validateOutputPermission_missing (sys : host) (out : outParams)
    (fs : filesystem) (notExist : bool) (msg : string) :
  os_Stat sys fs (out_output out) = StatError notExist msg →
  validateOutputPermission sys out fs
  = if notExist then testFileWrite sys out fs
    else (Some "output path is not valid", fs).
Proof. intros Hstat. unfold validateOutputPermission. by rewrite Hstat. Qed.

(** X18. What [validateParameters] can return.  Output parameters: then the
    URL was answered with status 200 to a HEAD request, [validateOutput]
    made the parameters, [os.Stat] reported that nothing exists under the
    output path, creating a file there was not refused for lack of
    permission, and no file is left there.  An error: then the file system
    is unchanged, and the error is that of the HEAD request or of its
    status, or that of [os.Getwd], or [os.ErrPermission] of the trial
    creation, or "output path is not valid".  With nothing else changing
    the file system in between, the second [os.Stat] fails as the first
    did, so the permission bits of the output path are never looked at. *)
Theorem validateParameters_outcomes (sys : host) (fuel : nat)
    (URL output : string) (fs fs' : filesystem) (r : result outParams) :
  validateParameters sys fuel URL output fs = Some (r, fs') →
  match r with
  | Ok out =>
      (∃ status body berr, http_Head sys URL = Response 200 status body berr) ∧
      validateOutput sys fuel 0 output fs = Some (Ok out) ∧
      (∃ msg, os_Stat sys fs (out_output out) = StatError true msg) ∧
      create_denied sys (out_output out) = false ∧
      files fs' !! out_output out = None ∧
      (∀ p, p ≠ out_output out → files fs' !! p = files fs !! p)
  | Err e =>
      fs' = fs ∧
      (validateURL sys URL = Some e ∨
       validateURL sys URL = None ∧
       (os_Getwd sys = Err e ∨ e = os_ErrPermission ∨
        e = "output path is not valid"))
  | Panic e => os_Getwd sys = Panic e
  end.
Proof.
  unfold validateParameters.
  destruct (validateURL sys URL) as [e|] eqn:Hurl.
  { intros [= <- <-]. split; [done|]. by left. }
  destruct (validateOutput sys fuel 0 output fs) as [[out|e|e]|] eqn:Hout;
    simpl; [| | |done].
  - destruct (validateOutput_Ok_inv sys _ _ _ _ _ Hout)
      as (_ & _ & _ & _ & nx & msg & Hstat).
    rewrite (validateOutputPermission_missing sys out fs nx msg Hstat).
    destruct nx.
    + pose proof (testFileWrite_cases sys out fs) as Hcases. simpl in Hcases.
      destruct (testFileWrite sys out fs) as [e fs1].
      destruct Hcases as [[Hden [= -> ->]]|(Hden & He & Hgone & Hframe)].
      * intros [= <- <-]. split; [done|]. right. split; [done|]. auto.
      * simpl in He. subst e. intros [= <- <-].
        split; [|by eauto 10].
        unfold validateURL in Hurl.
        destruct (http_Head sys URL) as [e|code status body berr]; [done|].
        destruct (code =? 200) eqn:Hcode; [|done].
        apply Z.eqb_eq in Hcode as ->. eauto.
    + intros [= <- <-]. split; [done|]. right. split; [done|]. auto.
  - intros [= <- <-]. split; [done|]. right. split; [done|]. left.
    revert Hout. clear. generalize 0%nat. revert output.
    induction fuel as [|fuel IH]; intros output tick; [done|]. simpl.
    repeat case_match; try done; try congruence; try (by intros [= <-]);
      try apply IH.
  - intros [= <- <-].
    revert Hout. clear. generalize 0%nat. revert output.
    induction fuel as [|fuel IH]; intros output tick; [done|]. simpl.
    repeat case_match; try done; try congruence; try (by intros [= <-]);
      try apply IH.
Qed.

Lemma validateParameters_outcomes_witness :
  let out := {| out_output := "/home/u/1700000000.ts"; out_path := "/home/u/";
                out_filename := "1700000000.ts"; out_extension := ".ts" |} in
  let fs' := default ValidationSample.fs
               (snd <$> validateParameters ValidationSample.sys 2 "http://host/a"
                          "/home/u/movie.ts" ValidationSample.fs) in
  (∃ status body berr,
     http_Head ValidationSample.sys "http://host/a"
       = Response 200 status body berr) ∧
  validateOutput ValidationSample.sys 2 0 "/home/u/movie.ts" ValidationSample.fs
    = Some (Ok out) ∧
  (∃ msg, os_Stat ValidationSample.sys ValidationSample.fs (out_output out)
            = StatError true msg) ∧
  create_denied ValidationSample.sys (out_output out) = false ∧
  files fs' !! out_output out = None ∧
  (∀ p, p ≠ out_output out → files fs' !! p = files ValidationSample.fs !! p).
Proof.
  intros out fs'.
  apply (validateParameters_outcomes ValidationSample.sys 2 "http://host/a"
           "/home/u/movie.ts" ValidationSample.fs fs' (Ok out)).
  vm_compute. reflexivity.
Defined.

(** What [validateParameters] has checked when it returns parameters. *)
Lemma validateParameters_Ok_inv (sys : host) (fuel : nat) (URL output : string)
    (fs fs' : filesystem) (out : outParams) :
  validateParameters sys fuel URL output fs = Some (Ok out, fs') →
  validateOutput sys fuel 0 output fs = Some (Ok out) ∧
  files fs' !! out_output out = None.
Proof.
  unfold validateParameters.
  destruct (validateURL sys URL) as [e|]; [done|].
  destruct (validateOutput sys fuel 0 output fs) as [[out'|e|e]|] eqn:Hout;
    simpl; [| | |done].
  - destruct (validateOutput_Ok_inv sys _ _ _ _ _ Hout)
      as (_ & _ & _ & _ & nx & msg & Hstat).
    rewrite (validateOutputPermission_missing sys out' fs nx msg Hstat).
    destruct nx; [|done].
    pose proof (testFileWrite_cases sys out' fs) as Hcases. simpl in Hcases.
    destruct (testFileWrite sys out' fs) as [e fs1].
    destruct Hcases as [[_ [= -> ->]]|(_ & He & Hgone & _)]; [done|].
    simpl in He. subst e. by intros [= <- <-].
  - done.
  - done.
Qed.

Lemma configure_keeps (h h' : hlsDownloader) :
  configure h h' →
  url h' = url h ∧ output h' = output h ∧ h_path h' = h_path h ∧
  filename h' = filename h ∧ extension h' = extension h ∧
  tmpDir h' = tmpDir h ∧ (1 ≤ workers h → 1 ≤ workers h').
Proof.
  intros [c h1 H|hd h1 H|n h1 H|b h1 H]; simpl in H.
  - by injection H as <-.
  - by injection H as <-.
  - destruct (n <? 1) eqn:Hn; [done|]. injection H as <-. simpl.
    apply Z.ltb_ge in Hn. repeat split; done.
  - destruct b as [b|]; [|done]. by injection H as <-.
Qed.

(** X19. A downloader that [New] returns has the URL it was given, five
    workers, no progress sink, no headers, a client of its own and no staging
    directory; its file name has the extension it records, which is not
    empty, its output path is its directory joined with its file name, and
    no file is left under that path.  Whatever successful calls of the
    setters follow, the URL and the output parameters stay as they are and
    there is at least one worker. *)
Theorem New_then_setters (sys : host) (fuel : nat) (URL out : string)
    (fs fs' : filesystem) (h h' : hlsDownloader) :
  New sys fuel URL out fs = Some (Ok h, fs') →
  rtc configure h h' →
  (workers h = 5 ∧ bar h = None ∧ header h = ∅ ∧
   client h = Client (new_client sys)) ∧
  url h' = URL ∧ tmpDir h' = "" ∧ 1 ≤ workers h' ∧
  extension h' ≠ "" ∧ filepath_Ext (filename h') = extension h' ∧
  output h' = filepath_Join2 sys (h_path h') (filename h') ∧
  files fs' !! output h' = None.
Proof.
  intros Hnew Hcfg. unfold New in Hnew.
  destruct (validateParameters sys fuel URL out fs) as [[[o|e|e] fs1]|] eqn:Hvp;
    simpl in Hnew; [|done..].
  injection Hnew as <- <-.
  destruct (validateParameters_Ok_inv sys _ _ _ _ _ _ Hvp) as [Hout Hgone].
  destruct (validateOutput_Ok_inv sys _ _ _ _ _ Hout)
    as (_ & Hext & Hname & Hjoin & _).
  split; [done|].
  revert h' Hcfg. apply rtc_ind_r.
  - simpl. by repeat split.
  - intros h1 h2 _ Hstep (Hu & Ht & Hw & He & Hn & Hj & Hg).
    destruct (configure_keeps _ _ Hstep) as (-> & -> & -> & -> & -> & -> & Hw').
    repeat split; try done. by apply Hw'.
Qed.

Lemma New_then_setters_witness :
  let h := {| url := "http://host/a"; output := "/home/u/proj/clip.ts";
              h_path := "/home/u/proj"; filename := "clip.ts";
              extension := ".ts"; tmpDir := "";
              client := Client 1; header := ∅; workers := 5; bar := None |} in
  let h' := {| url := "http://host/a"; output := "/home/u/proj/clip.ts";
               h_path := "/home/u/proj"; filename := "clip.ts";
               extension := ".ts"; tmpDir := "";
               client := Client 1; header := ∅; workers := 2; bar := None |} in
  let fs' := default ValidationSample.fs
               (snd <$> New ValidationSample.sys 1 "http://host/a" "clip"
                          ValidationSample.fs) in
  (workers h = 5 ∧ bar h = None ∧ header h = ∅ ∧
   client h = Client (new_client ValidationSample.sys)) ∧
  url h' = "http://host/a" ∧ tmpDir h' = "" ∧ 1 ≤ workers h' ∧
  extension h' ≠ "" ∧ filepath_Ext (filename h') = extension h' ∧
  output h' = filepath_Join2 ValidationSample.sys (h_path h') (filename h') ∧
  files fs' !! output h' = None.
Proof.
  intros h h' fs'.
  apply (New_then_setters ValidationSample.sys 1 "http://host/a" "clip"
           ValidationSample.fs fs' h h').
  - vm_compute. reflexivity.
  - apply rtc_once. apply (by_SetWorkers h 2). reflexivity.
Defined.

(** X20. Called on output parameters whose path is a regular file with the
    owner's write bit set, [validateOutputPermission] goes on to the trial
    creation: unless creating the file is refused for lack of permission it
    returns nil, and the file that was there is gone. *)
Theorem validateOutputPermission_removes_existing_file (sys : host)
    (out : outParams) (fs : filesystem) (perm : Z) (data : list byte) :
  os_Stat sys fs (out_output out) = StatInfo false true perm →
  Z.land perm 128 ≠ 0 →
  create_denied sys (out_output out) = false →
  files fs !! out_output out = Some data →
  (validateOutputPermission sys out fs).1 = None ∧
  files (validateOutputPermission sys out fs).2 !! out_output out = None ∧
  ∀ p, p ≠ out_output out →
       files (validateOutputPermission sys out fs).2 !! p = files fs !! p.
Proof.
  intros Hstat Hperm Hden Hfile. unfold validateOutputPermission.
  rewrite Hstat. simpl.
  destruct (Z.land perm 128 =? 0) eqn:Hbit; [by apply Z.eqb_eq in Hbit|].
  destruct (testFileWrite_cases sys out fs) as [[Hd _]|(_ & He & Hgone & Hframe)];
    [congruence|done].
Qed.

Lemma validateOutputPermission_removes_existing_file_witness :
  let out := {| out_output := "/home/u/movie.ts"; out_path := "/home/u/";
                out_filename := "movie.ts"; out_extension := ".ts" |} in
  let r := validateOutputPermission ValidationSample.sys out ValidationSample.fs in
  files ValidationSample.fs !! out_output out = Some ["m"]%byte ∧
  r.1 = None ∧
  files r.2 !! out_output out = None ∧
  ∀ p, p ≠ out_output out → files r.2 !! p = files ValidationSample.fs !! p.
Proof.
  intros out r. split; [vm_compute; reflexivity|].
  apply (validateOutputPermission_removes_existing_file ValidationSample.sys out
           ValidationSample.fs 420 ["m"]%byte).
  - vm_compute. reflexivity.
  - vm_compute. discriminate.
  - reflexivity.
  - vm_compute. reflexivity.
Defined.

(** ** The command *)

(** X21. [main] never logs that setting the workers failed: it calls
    [SetWorkers] only with a positive number, which [SetWorkers] accepts.
    When it gets as far as [Download], it runs it on the downloader that
    [New] returned with as many workers as the command line asked for if
    that is positive, and with five otherwise; what it then logs and leaves
    is what [Download] returned. *)
Theorem main_runs_with_at_least_one_worker (f : flags) (sys : host)
    (fuel : nat) (lib : externals) (env : environment) (fs fs' : filesystem)
    (r : result (option string)) :
  main f sys fuel lib env fs = Some (r, fs') →
  (∀ line, r = Ok (Some line) →
           String.prefix "Error setting workers: " line = false) ∧
  ∀ hls fs1,
    flag_help f = false → flag_URL f ≠ "" →
    New sys fuel (flag_URL f) (flag_output f) fs = Some (Ok hls, fs1) →
    ∃ hls' d,
      rtc configure hls hls' ∧
      workers hls' = (if 0 <? flag_workers f then flag_workers f else 5) ∧
      1 ≤ workers hls' ∧
      Download lib (Some hls') env fs1 = Some (d, fs') ∧
      r = match d with
          | Ok _ => Ok None
          | Err e => Ok (Some ("Error downloading file: " +:+ e))
          | Panic e => Panic e
          end.
Proof.
  unfold main, handleArgs. intros Hmain.
  destruct (flag_help f); [by injection Hmain as <- <-|].
  case_bool_decide as Hurl.
  { injection Hmain as <- <-. split; [by intros line [= <-]|done]. }
  destruct (New sys fuel (flag_URL f) (flag_output f) fs)
    as [[[hls|e|e] fs1]|] eqn:Hnew; [| | |done].
  - assert (workers hls = 5) as Hfive.
    { unfold New in Hnew.
      destruct (validateParameters sys fuel _ _ fs) as [[[o|?|?] ?]|];
        simpl in Hnew; try done. by injection Hnew as <- _. }
    assert (∃ hls', (if 0 <? flag_workers f
                     then SetWorkers (Some hls) (flag_workers f) else Ok hls)
                    = Ok hls' ∧ rtc configure hls hls' ∧
                    workers hls' = (if 0 <? flag_workers f
                                    then flag_workers f else 5))
      as (hls' & Hset & Hcfg & Hwk).
    { destruct (0 <? flag_workers f) eqn:Hpos.
      - apply Z.ltb_lt in Hpos.
        assert ((flag_workers f <? 1) = false) as Hlt by (apply Z.ltb_ge; lia).
        unfold SetWorkers. rewrite Hlt. eexists. split; [done|]. split; [|done].
        apply rtc_once, (by_SetWorkers hls (flag_workers f)).
        unfold SetWorkers. by rewrite Hlt.
      - exists hls. by split. }
    cbn [mbind option_bind] in Hmain. rewrite Hset in Hmain.
    destruct (Download lib (Some hls') env fs1) as [[d fs2]|] eqn:Hdl;
      [|done]. cbn [mbind option_bind] in Hmain.
    assert (r = match d with
                | Ok _ => Ok None
                | Err e => Ok (Some ("Error downloading file: " +:+ e))
                | Panic e => Panic e
                end ∧ fs2 = fs') as [-> ->].
    { destruct d; by injection Hmain as <- <-. }
    split.
    + intros line Hline. destruct d; try done. by injection Hline as <-.
    + intros hls0 fs0 _ _ [= <- <-]. exists hls', d.
      repeat split; try done.
      rewrite Hwk. destruct (0 <? flag_workers f) eqn:Hpos; [|lia].
      apply Z.ltb_lt in Hpos. lia.
  - cbn [mbind option_bind] in Hmain. injection Hmain as <- <-.
    split; [by intros line [= <-]|done].
  - cbn [mbind option_bind] in Hmain. injection Hmain as <- <-.
    split; [done|done].
Qed.

Lemma main_runs_with_at_least_one_worker_witness :
  let f := {| flag_URL := "http://host/index.m3u8"; flag_output := "video";
              flag_workers := 1; flag_help := false |} in
  let sys := ValidationSample.sys in
  let lib := DownloadSample.lib_of DownloadSample.playlist in
  let r := main f sys 1 lib DownloadSample.env_ok ValidationSample.fs in
  let fs' := default ValidationSample.fs (snd <$> r) in
  r = Some (Ok None, fs') ∧
  files fs' !! "/home/u/proj/video.ts" = Some ["G"; x00; "G"; x01; "G"; x02]%byte ∧
  (∀ line, Ok None = Ok (Some line) →
           String.prefix "Error setting workers: " line = false) ∧
  ∀ hls fs1,
    flag_help f = false → flag_URL f ≠ "" →
    New sys 1 (flag_URL f) (flag_output f) ValidationSample.fs
      = Some (Ok hls, fs1) →
    ∃ hls' d,
      rtc configure hls hls' ∧
      workers hls' = (if 0 <? flag_workers f then flag_workers f else 5) ∧
      1 ≤ workers hls' ∧
      Download lib (Some hls') DownloadSample.env_ok fs1 = Some (d, fs') ∧
      Ok None = match d with
                | Ok _ => Ok None
                | Err e => Ok (Some ("Error downloading file: " +:+ e))
                | Panic e => Panic e
                end.
Proof.
  intros f sys lib r fs'. split; [vm_compute; reflexivity|].
  split; [vm_compute; reflexivity|].
  apply (main_runs_with_at_least_one_worker f sys 1 lib DownloadSample.env_ok
           ValidationSample.fs fs' (Ok None)).
  vm_compute. reflexivity.
Defined.
